(** * Verification of the MCP tool-acquisition subsystem of agentic-framework

    Shallow embedding of
    - [agentic_framework/mcp/provider.py]: [MCPConnectionError],
      [MCPProvider.get_tools] and [MCPProvider.tool_session];
    - [agentic_framework/mcp/config.py]: [DEFAULT_MCP_SERVERS],
      [_resolve_server_config] and [get_mcp_servers_config].

    Both files are modelled with a small state-and-error monad [EM]: the
    state carries what the Python code mutates (the exit stack and the log
    for the provider, the object heap, the environment and the log for the
    configuration), and the error side carries the Python exception that
    propagates. *)

From Stdlib Require Import String Ascii List Arith Lia.
From stdpp Require Import base list gmap strings.
Import ListNotations.
Open Scope string_scope.
Open Scope list_scope.

(** ** A state and error monad *)

Definition EM (E S A : Type) : Type := S -> (E + A) * S.

Definition em_ret {E S A} (a : A) : EM E S A := fun s => (inr a, s).
Definition em_raise {E S A} (e : E) : EM E S A := fun s => (inl e, s).
Definition em_bind {E S A B} (m : EM E S A) (k : A -> EM E S B) : EM E S B :=
  fun s => match m s with
           | (inl e, s') => (inl e, s')
           | (inr a, s') => k a s'
           end.
(** [try: ... except BaseException]: the outcome of [m] as a value. *)
Definition em_try {E S A} (m : EM E S A) : EM E S (E + A) :=
  fun s => let (r, s') := m s in (inr r, s').
Definition em_get {E S} : EM E S S := fun s => (inr s, s).
Definition em_put {E S} (s : S) : EM E S unit := fun _ => (inr tt, s).

Notation "'let!' x ':=' m 'in' k" := (em_bind m (fun x => k))
  (at level 200, x name, m at level 100, k at level 200).

(** * provider.py *)

Module Provider.

(** A LangChain tool handle is opaque; its name stands for it. *)
Definition tool := string.

(** The exceptions that reach [tool_session]. [OtherError cls msg] is any
    other [Exception] subclass raised by a transport (e.g.
    [RuntimeError("boom")]); [CancelledError] is [asyncio.CancelledError],
    a [BaseException] that [except Exception] does not catch. *)
Inductive exn :=
  | TimeoutError (msg : string)
  | OtherError (cls msg : string)
  | MCPConnectionError (server_name : string) (cause : exn)
  | CancelledError.

(** [except (asyncio.TimeoutError, TimeoutError)] *)
Definition is_timeout (e : exn) : bool :=
  match e with TimeoutError _ => true | _ => false end.

(** [except Exception] *)
Definition is_Exception (e : exn) : bool :=
  match e with CancelledError => false | _ => true end.

(** What one configured server does when [tool_session] talks to it:
    [self._client.session(name).__aenter__] takes [open_time] seconds and
    then raises [open_error] (if any); [load_mcp_tools] then takes
    [load_time] seconds and returns the tools or raises; the session's
    [__aexit__] raises [close_error] (if any). An outer cancellation
    arriving during one of these awaits is [CancelledError] raised there. *)
Record server := {
  open_time : nat;
  open_error : option exn;
  load_time : nat;
  load_result : exn + list tool;
  close_error : option exn;
}.

Definition CONN_TIMEOUT : nat := 15.

(** Observable events: the log lines and the session lifecycle. *)
Inductive event :=
  | EvConnecting (name : string)          (* logging.debug Connecting to *)
  | EvOpened (name : string)              (* session entered on the stack *)
  | EvLoaded (name : string) (n : nat)    (* logging.info Loaded n tools *)
  | EvFailed (name : string) (err : exn)  (* logging.error Failed to connect *)
  | EvYield (tools : list tool)           (* yield all_tools *)
  | EvClosed (name : string).             (* session __aexit__ called *)

(** [stack] is the [AsyncExitStack] of the running [tool_session]: the exit
    callbacks pushed so far, most recent first, each with the behaviour of
    the session's [__aexit__]. *)
Record pstate := {
  clock : nat;
  stack : list (string * option exn);
  trace : list event;
}.

Definition PM (A : Type) := EM exn pstate A.

Definition emit (ev : event) : PM unit :=
  fun s => (inr tt, {| clock := clock s; stack := stack s;
                       trace := trace s ++ [ev] |}).

Definition tick (d : nat) : PM unit :=
  fun s => (inr tt, {| clock := clock s + d; stack := stack s;
                       trace := trace s |}).

(** [stack.enter_async_context(...)] once [__aenter__] has returned. *)
Definition push_exit (name : string) (close : option exn) : PM unit :=
  fun s => (inr tt, {| clock := clock s; stack := (name, close) :: stack s;
                       trace := trace s ++ [EvOpened name] |}).

Definition set_stack (st : list (string * option exn)) : PM unit :=
  fun s => (inr tt, {| clock := clock s; stack := st; trace := trace s |}).

(** The body of the [try] for one server, under
    [asyncio.timeout(CONN_TIMEOUT)]: it returns the tools, or the exception
    that left the [async with asyncio.timeout] block. When the deadline
    passes first, the pending await is cancelled and [asyncio.timeout]
    raises a bare [TimeoutError()]; the cancelled await is taken to unwind
    at once. *)
Definition attempt (name : string) (srv : server) : PM (exn + list tool) :=
  let! _ := emit (EvConnecting name) in
  if Nat.ltb (open_time srv) CONN_TIMEOUT then
    let! _ := tick (open_time srv) in
    match open_error srv with
    | Some e => em_ret (inl e)
    | None =>
        let! _ := push_exit name (close_error srv) in
        if Nat.ltb (open_time srv + load_time srv) CONN_TIMEOUT then
          let! _ := tick (load_time srv) in
          match load_result srv with
          | inl e => em_ret (inl e)
          | inr tools =>
              let! _ := emit (EvLoaded name (length tools)) in
              em_ret (inr tools)
          end
        else
          let! _ := tick (CONN_TIMEOUT - open_time srv) in
          em_ret (inl (TimeoutError ""))
    end
  else
    let! _ := tick CONN_TIMEOUT in
    em_ret (inl (TimeoutError "")).

(** [for name in self._config: try ... except ...], accumulating
    [all_tools]. *)
Fixpoint acquire (fail_fast : bool) (servers : list (string * server))
    (all_tools : list tool) : PM (list tool) :=
  match servers with
  | [] => em_ret all_tools
  | (name, srv) :: rest =>
      let! r := attempt name srv in
      match r with
      | inr tools => acquire fail_fast rest (all_tools ++ tools)
      | inl e =>
          if is_timeout e then
            let err := TimeoutError "Connection timed out after 15s" in
            if fail_fast then em_raise (MCPConnectionError name err)
            else
              let! _ := emit (EvFailed name err) in
              acquire fail_fast rest all_tools
          else if is_Exception e then
            if fail_fast then em_raise (MCPConnectionError name e)
            else
              let! _ := emit (EvFailed name e) in
              acquire fail_fast rest all_tools
          else em_raise e
      end
  end.

(** [AsyncExitStack.__aexit__]: pop every callback, most recent first, and
    call it with the current exception; a callback that raises replaces the
    current exception, and the remaining callbacks still run. The result is
    the exception that leaves the [async with]. The time a close takes is
    not modelled (the clock does not advance here), so no result below
    bounds it. *)
Fixpoint unwind (cbs : list (string * option exn)) (exc : option exn)
    : PM (option exn) :=
  match cbs with
  | [] => em_ret exc
  | (name, close) :: rest =>
      let! _ := emit (EvClosed name) in
      unwind rest (match close with Some f => Some f | None => exc end)
  end.

Definition stack_exit (exc : option exn) : PM (option exn) :=
  let! s := em_get in
  let! _ := set_stack [] in
  unwind (stack s) exc.

(** The caller's [async with provider.tool_session() as tools:] block:
    it returns a value, or raises (a cancellation arriving mid-block is
    [BRaise CancelledError]). *)
Inductive block_outcome :=
  | BReturn (v : string)
  | BRaise (e : exn).

Definition block_exc (o : block_outcome) : option exn :=
  match o with BReturn _ => None | BRaise e => Some e end.

(** What leaves [async with provider.tool_session(fail_fast) as tools:
    block(tools)]: the [@asynccontextmanager] generator opens a fresh
    [AsyncExitStack], runs the loop, yields, and on the way out (normal
    exit or an exception thrown in at the [yield]) runs the [finally] and
    leaves the stack's [async with]. *)
Definition tool_session (fail_fast : bool) (config : list (string * server))
    (block : list tool -> block_outcome) : PM string :=
  let! _ := set_stack [] in
  let! r := em_try (acquire fail_fast config []) in
  match r with
  | inl e =>
      let! exc := stack_exit (Some e) in
      em_raise (default e exc)
  | inr all_tools =>
      let! _ := emit (EvYield all_tools) in
      let o := block all_tools in
      let! exc := stack_exit (block_exc o) in
      match exc, o with
      | Some e, _ => em_raise e
      | None, BReturn v => em_ret v
      | None, BRaise e => em_raise e
      end
  end.

(** ** Projections of the trace *)

Definition opened_of (tr : list event) : list string :=
  omap (fun ev => match ev with EvOpened n => Some n | _ => None end) tr.
Definition closed_of (tr : list event) : list string :=
  omap (fun ev => match ev with EvClosed n => Some n | _ => None end) tr.
Definition connecting_of (tr : list event) : list string :=
  omap (fun ev => match ev with EvConnecting n => Some n | _ => None end) tr.
Definition failed_of (tr : list event) : list (string * exn) :=
  omap (fun ev => match ev with EvFailed n e => Some (n, e) | _ => None end) tr.
Definition yields_of (tr : list event) : list (list tool) :=
  omap (fun ev => match ev with EvYield ts => Some ts | _ => None end) tr.

(** ** The outcome of one attempt

    [opens srv]: the session's [__aenter__] returns before the deadline, so
    [enter_async_context] registers it. [attempt_result srv] is what the
    [try] body of [attempt] returns; [attempt_time srv] the time it takes. *)

Definition opens (srv : server) : bool :=
  Nat.ltb (open_time srv) CONN_TIMEOUT &&
  match open_error srv with None => true | Some _ => false end.

Definition attempt_result (srv : server) : exn + list tool :=
  if Nat.ltb (open_time srv) CONN_TIMEOUT then
    match open_error srv with
    | Some e => inl e
    | None =>
        if Nat.ltb (open_time srv + load_time srv) CONN_TIMEOUT
        then load_result srv else inl (TimeoutError "")
    end
  else inl (TimeoutError "").

(** The error that [tool_session] reports for a failed attempt. *)
Definition report (e : exn) : exn :=
  if is_timeout e then TimeoutError "Connection timed out after 15s" else e.

Definition ok_tools (r : exn + list tool) : list tool :=
  match r with inr ts => ts | inl _ => [] end.

Definition failed (r : exn + list tool) : bool :=
  match r with inr _ => false | inl _ => true end.


(** ** The caller of [get_tools]

    [MultiServerMCPClient.get_tools] is third-party code
    ([langchain_mcp_adapters], not part of this repository): it starts
    [load_mcp_tools] for every connection and awaits them with
    [asyncio.gather] (no [return_exceptions]), so a failing server makes the
    whole call raise. [gather] raises the failure that happens first in
    time; here it is the first in catalog order, and no result below
    depends on which failing server's error is reported. It has no
    per-server timeout. *)
Definition server_load (srv : server) : exn + list tool :=
  match open_error srv with
  | Some e => inl e
  | None => load_result srv
  end.

Fixpoint MultiServerMCPClient_get_tools (connections : list (string * server))
    : exn + list tool :=
  match connections with
  | [] => inr []
  | (_, srv) :: rest =>
      match server_load srv, MultiServerMCPClient_get_tools rest with
      | inl e, _ => inl e
      | inr _, inl e => inl e
      | inr ts, inr ts' => inr (ts ++ ts')
      end
  end.

(** [MCPProvider]: [_config] and its [MultiServerMCPClient(self._config)],
    and [_tools_cache]. *)
Record MCPProvider := {
  _config : list (string * server);
  _tools_cache : option (list tool);
}.

(** [MCPProvider.get_tools]: the first call awaits the client and caches
    the result; later calls return the cache. *)
Definition get_tools (self : MCPProvider) : (exn + list tool) * MCPProvider :=
  match _tools_cache self with
  | Some ts => (inr ts, self)
  | None =>
      match MultiServerMCPClient_get_tools (_config self) with
      | inl e => (inl e, self)
      | inr ts => (inr ts, {| _config := _config self; _tools_cache := Some ts |})
      end
  end.

Definition init_pstate : pstate := {| clock := 0; stack := []; trace := [] |}.

(** A server that answers at once with the given tools. *)
Definition good (ts : list tool) : server :=
  {| open_time := 1; open_error := None; load_time := 1; load_result := inr ts;
     close_error := None |}.



(** The failures of a catalog, as [tool_session] logs them. *)
Definition failures (servers : list (string * server)) : list (string * exn) :=
  omap (fun p => match attempt_result p.2 with
                 | inl e => Some (p.1, report e)
                 | inr _ => None
                 end) servers.

Definition succeeded_tools (servers : list (string * server)) : list tool :=
  concat (map (fun p => ok_tools (attempt_result p.2)) servers).


Definition refused : server :=
  {| open_time := 1; open_error := Some (OtherError "ConnectError" "connection refused");
     load_time := 0; load_result := inr []; close_error := None |}.

(** A session whose [__aexit__] fails, like an HTTP transport answering the
    closing DELETE with 405. *)
Definition close_fails (ts : list tool) : server :=
  {| open_time := 1; open_error := None; load_time := 1; load_result := inr ts;
     close_error := Some (OtherError "HTTPStatusError" "405 Method Not Allowed") |}.

End Provider.

(** * config.py *)

Module Config.

(** Objects reachable from a server catalog: strings, [None], and dicts,
    the latter by reference into a heap of dict objects. *)
Abbreviation loc := nat (only parsing).

Inductive val :=
  | VStr (s : string)
  | VNone
  | VDict (l : loc).

(** A dict: its items in insertion order. *)
Abbreviation pydict := (list (string * val)) (only parsing).

Section Assoc.
Context {V : Type}.

(** [d.get(k)] *)
Fixpoint aget (d : list (string * V)) (k : string) : option V :=
  match d with
  | [] => None
  | (k', v) :: d' => if String.eqb k k' then Some v else aget d' k
  end.

(** [d[k] = v]: an existing key keeps its position, a new key goes last. *)
Fixpoint aset (d : list (string * V)) (k : string) (v : V) : list (string * V) :=
  match d with
  | [] => [(k, v)]
  | (k', v') :: d' => if String.eqb k k' then (k', v) :: d' else (k', v') :: aset d' k v
  end.

End Assoc.

(** [d.update(u)] for a dict [u] *)
Definition dict_update (d u : pydict) : pydict :=
  fold_left (fun acc kv => aset acc kv.1 kv.2) u d.

(** [TypeError] stands for any exception raised by applying a dict
    operation to a non-dict ([dict(v)], [d.update(v)], [x[k] = v] on a
    string or [None]); [AttributeError] is [.rstrip] on a non-empty dict. *)
Inductive exn := TypeError | AttributeError.

Inductive event :=
  | EnvGet (var : string)          (** [os.environ.get(var)] *)
  | LogWarning (msg : string).     (** [logging.warning(msg)] *)

Record cstate := {
  heap : gmap loc pydict;
  next_loc : loc;
  env : list (string * string);
  trace : list event;
}.

Definition CM (A : Type) : Type := EM exn cstate A.

Definition alloc (d : pydict) : CM loc := fun s =>
  (inr (next_loc s),
   {| heap := <[next_loc s := d]> (heap s); next_loc := S (next_loc s);
      env := env s; trace := trace s |}).

Definition load (l : loc) : CM pydict := fun s =>
  (inr (default [] (heap s !! l)), s).

Definition store (l : loc) (d : pydict) : CM unit := fun s =>
  (inr tt,
   {| heap := <[l := d]> (heap s); next_loc := next_loc s;
      env := env s; trace := trace s |}).

Definition emit (ev : event) : CM unit := fun s =>
  (inr tt,
   {| heap := heap s; next_loc := next_loc s; env := env s;
      trace := trace s ++ [ev] |}).

Definition environ_get (var : string) : CM (option string) := fun s =>
  (inr (aget (env s) var),
   {| heap := heap s; next_loc := next_loc s; env := env s;
      trace := trace s ++ [EnvGet var] |}).

(** [dict(v)], and the items [d.update(v)] adds: the empty string is an
    empty iterable, so it gives no items. *)
Definition as_dict (v : val) : CM pydict :=
  match v with
  | VDict l => load l
  | VStr x => if String.eqb x "" then em_ret [] else em_raise TypeError
  | VNone => em_raise TypeError
  end.

(** [not key] is false exactly for a present, non-empty value. *)
Definition nonempty (key : option string) : option string :=
  match key with
  | Some k => if String.eqb k "" then None else Some k
  | None => None
  end.

(** [raw.get("url") or ""], then used as a [str]. *)
Definition url_or_empty (v : option val) : CM string :=
  match v with
  | None | Some VNone => em_ret ""
  | Some (VStr u) => em_ret u
  | Some (VDict l) =>
      let! d := load l in
      match d with
      | [] => em_ret ""
      | _ => em_raise AttributeError
      end
  end.

Fixpoint drop_slashes (cs : list ascii) : list ascii :=
  match cs with
  | [] => []
  | c :: cs' => if Ascii.eqb c "/"%char then drop_slashes cs' else cs
  end.

(** [s.rstrip("/")] *)
Definition rstrip_slash (s : string) : string :=
  string_of_list_ascii (rev (drop_slashes (rev (list_ascii_of_string s)))).

(** ["?" in s] *)
Definition contains_qmark (s : string) : bool :=
  existsb (fun c => Ascii.eqb c "?"%char) (list_ascii_of_string s).

Definition TAVILY_WARNING : string :=
  "TAVILY_API_KEY not found in environment. Tavily MCP may fail to connect.".
Definition TINYFISH_WARNING : string :=
  "TINYFISH_API_KEY not found in environment. TinyFish MCP may fail to connect.".

(** [_resolve_server_config(server_name, raw)]; [raw] is not written before
    [raw.get("url")] is read, so its content [d] is read once. *)
Definition _resolve_server_config (server_name : string) (raw : loc) : CM loc :=
  let! d := load raw in
  let! out := alloc d in
  if String.eqb server_name "tavily" then
    let! key := environ_get "TAVILY_API_KEY" in
    match nonempty key with
    | None =>
        let! _ := emit (LogWarning TAVILY_WARNING) in
        em_ret out
    | Some k =>
        let! u := url_or_empty (aget d "url") in
        let base := rstrip_slash u in
        let sep := if contains_qmark base then "&" else "?" in
        let! od := load out in
        let! _ := store out (aset od "url" (VStr (base ++ sep ++ "tavilyApiKey=" ++ k)%string)) in
        em_ret out
    end
  else if String.eqb server_name "tinyfish" then
    let! key := environ_get "TINYFISH_API_KEY" in
    match nonempty key with
    | None =>
        let! _ := emit (LogWarning TINYFISH_WARNING) in
        em_ret out
    | Some k =>
        (* out["headers"] = out.get("headers", {}) *)
        let! empty := alloc [] in
        let! od := load out in
        let! _ := store out (aset od "headers" (default (VDict empty) (aget od "headers"))) in
        (* out["headers"]["X-API-Key"] = key *)
        let! od' := load out in
        match aget od' "headers" with
        | Some (VDict hl) =>
            let! hd := load hl in
            let! _ := store hl (aset hd "X-API-Key" (VStr k)) in
            em_ret out
        | _ => em_raise TypeError
        end
    end
  else em_ret out.

(** [DEFAULT_MCP_SERVERS]: the module-level dict and its four entries. *)
Definition DEFAULT_MCP_SERVERS : loc := 0.

Definition kiwi_entry : pydict :=
  [("url", VStr "https://mcp.kiwi.com"); ("transport", VStr "sse")].
Definition tinyfish_entry : pydict :=
  [("url", VStr "https://agent.tinyfish.ai/mcp"); ("transport", VStr "sse")].
Definition web_fetch_entry : pydict :=
  [("url", VStr "https://remote.mcpservers.org/fetch/mcp"); ("transport", VStr "http")].
Definition tavily_entry : pydict :=
  [("url", VStr "https://mcp.tavily.com/mcp"); ("transport", VStr "sse")].

Definition DEFAULT_MCP_SERVERS_dict : pydict :=
  [("kiwi-com-flight-search", VDict 1); ("tinyfish", VDict 2);
   ("web-fetch", VDict 3); ("tavily", VDict 4)].

(** The heap right after [config.py] is imported. *)
Definition module_heap : gmap loc pydict :=
  list_to_map [(0, DEFAULT_MCP_SERVERS_dict); (1, kiwi_entry); (2, tinyfish_entry);
               (3, web_fetch_entry); (4, tavily_entry)].

(** [base = {k: dict(v) for k, v in DEFAULT_MCP_SERVERS.items()}] *)
Fixpoint copy_entries (base : loc) (items : pydict) : CM unit :=
  match items with
  | [] => em_ret tt
  | (k, v) :: rest =>
      let! d := as_dict v in
      let! c := alloc d in
      let! bd := load base in
      let! _ := store base (aset bd k (VDict c)) in
      copy_entries base rest
  end.

(** [for k, v in override.items(): base[k] = dict(base.get(k, {})); base[k].update(v)];
    [base[k]] in the second statement is the copy [c] just stored. *)
Fixpoint merge_override (base : loc) (items : pydict) : CM unit :=
  match items with
  | [] => em_ret tt
  | (k, v) :: rest =>
      let! empty := alloc [] in
      let! bd := load base in
      let! src := as_dict (default (VDict empty) (aget bd k)) in
      let! c := alloc src in
      let! bd' := load base in
      let! _ := store base (aset bd' k (VDict c)) in
      let! cd := load c in
      let! u := as_dict v in
      let! _ := store c (dict_update cd u) in
      merge_override base rest
  end.

(** [{k: _resolve_server_config(k, v) for k, v in base.items()}] *)
Fixpoint resolve_all (res : loc) (items : pydict) : CM unit :=
  match items with
  | [] => em_ret tt
  | (k, v) :: rest =>
      let! out := match v with
                  | VDict raw => _resolve_server_config k raw
                  | _ => em_raise TypeError
                  end in
      let! rd := load res in
      let! _ := store res (aset rd k (VDict out)) in
      resolve_all res rest
  end.

(** [get_mcp_servers_config(override)]; [override] is [None] or a dict. *)
Definition get_mcp_servers_config (override : option loc) : CM loc :=
  let! base := alloc [] in
  let! defaults := load DEFAULT_MCP_SERVERS in
  let! _ := copy_entries base defaults in
  let! _ := match override with
            | None => em_ret tt
            | Some ol =>
                let! od := load ol in
                match od with
                | [] => em_ret tt
                | _ => merge_override base od
                end
            end in
  let! bd := load base in
  let! res := alloc [] in
  let! _ := resolve_all res bd in
  em_ret res.

(** ** Reading results back

    A catalog is observed down to the values of its descriptors' fields:
    a field holding a dict is shown with that dict's items. *)
Inductive fview :=
  | FPlain (v : val)
  | FDict (d : option pydict).

Definition deref (h : gmap loc pydict) (v : val) : fview :=
  match v with
  | VDict l => FDict (h !! l)
  | _ => FPlain v
  end.

Definition deref_fields (h : gmap loc pydict) (d : pydict) : list (string * fview) :=
  map (fun kv => (kv.1, deref h kv.2)) d.

Definition view_entry (h : gmap loc pydict) (v : val) : option (list (string * fview)) :=
  match v with
  | VDict c => deref_fields h <$> h !! c
  | _ => None
  end.

Definition view (h : gmap loc pydict) (r : loc) :
    option (list (string * option (list (string * fview)))) :=
  map (fun kv => (kv.1, view_entry h kv.2)) <$> h !! r.

(** The dict objects a catalog reaches: the catalog, its descriptors, and
    the dicts held in their fields. *)
Definition reach (h : gmap loc pydict) (r : loc) : list loc :=
  r :: flat_map (fun kv => match kv.2 with
                           | VDict c => c :: flat_map (fun fv => match fv.2 with
                                                                 | VDict x => [x]
                                                                 | _ => []
                                                                 end) (default [] (h !! c))
                           | _ => []
                           end) (default [] (h !! r)).

(** ** The catalog the code computes, stated without the heap *)

Definition default_catalog : list (string * pydict) :=
  [("kiwi-com-flight-search", kiwi_entry); ("tinyfish", tinyfish_entry);
   ("web-fetch", web_fetch_entry); ("tavily", tavily_entry)].

(** The items of a value read as a dict. *)
Definition dict_of (h : gmap loc pydict) (v : val) : pydict :=
  match v with VDict l => default [] (h !! l) | _ => [] end.

(** The override's entries, each read as a dict. *)
Definition ov_items (h : gmap loc pydict) (override : option loc) : list (string * pydict) :=
  match override with
  | None => []
  | Some ol => map (fun kv => (kv.1, dict_of h kv.2)) (default [] (h !! ol))
  end.

Definition merge_step (cat : list (string * pydict)) (ku : string * pydict) :=
  aset cat ku.1 (dict_update (default [] (aget cat ku.1)) ku.2).

Definition merged (h : gmap loc pydict) (override : option loc) : list (string * pydict) :=
  fold_left merge_step (ov_items h override) default_catalog.

Definition url_str (h : gmap loc pydict) (v : option val) : option string :=
  match v with
  | None | Some VNone => Some ""
  | Some (VStr u) => Some u
  | Some (VDict l) => match default [] (h !! l) with [] => Some "" | _ => None end
  end.

Definition tavily_url (u key : string) : string :=
  let base := rstrip_slash u in
  (base ++ (if contains_qmark base then "&" else "?") ++ "tavilyApiKey=" ++ key)%string.

Definition tavily_key (e : list (string * string)) : option string :=
  nonempty (aget e "TAVILY_API_KEY").
Definition tinyfish_key (e : list (string * string)) : option string :=
  nonempty (aget e "TINYFISH_API_KEY").

(** The items of the copy [out] made for server [k] from descriptor [d];
    [empty] is the dict allocated for [out.get("headers", {})]. *)
Definition resolved_fields (h : gmap loc pydict) (e : list (string * string))
    (k : string) (d : pydict) (empty : loc) : pydict :=
  if String.eqb k "tavily" then
    match tavily_key e with
    | Some key =>
        match url_str h (aget d "url") with
        | Some u => aset d "url" (VStr (tavily_url u key))
        | None => d
        end
    | None => d
    end
  else if String.eqb k "tinyfish" then
    match tinyfish_key e with
    | Some key => aset d "headers" (default (VDict empty) (aget d "headers"))
    | None => d
    end
  else d.

(** The observable events of one resolution. *)
Definition resolve_events (e : list (string * string)) (k : string) : list event :=
  if String.eqb k "tavily" then
    EnvGet "TAVILY_API_KEY" ::
      match tavily_key e with None => [LogWarning TAVILY_WARNING] | Some _ => [] end
  else if String.eqb k "tinyfish" then
    EnvGet "TINYFISH_API_KEY" ::
      match tinyfish_key e with None => [LogWarning TINYFISH_WARNING] | Some _ => [] end
  else [].

(** The pre-existing dict a resolution writes into: a [headers] dict found
    in a [tinyfish] descriptor when the key is set. *)
Definition mutated (e : list (string * string)) (k : string) (d : pydict) : option loc :=
  if String.eqb k "tinyfish" then
    match tinyfish_key e, aget d "headers" with
    | Some _, Some (VDict x) => Some x
    | _, _ => None
    end
  else None.

(** The observed descriptor for [k], when [mutated] is [None]. *)
Definition spec_desc (h : gmap loc pydict) (e : list (string * string))
    (k : string) (d : pydict) : list (string * fview) :=
  match (if String.eqb k "tinyfish" then tinyfish_key e else None) with
  | Some key => aset (deref_fields h d) "headers" (FDict (Some [("X-API-Key", VStr key)]))
  | None => deref_fields h (resolved_fields h e k d 0)
  end.

Definition spec_view (h : gmap loc pydict) (e : list (string * string))
    (override : option loc) : list (string * option (list (string * fview))) :=
  fold_left (fun acc kd => aset acc kd.1 (Some (spec_desc h e kd.1 kd.2)))
            (merged h override) [].

(** ** Assumptions on the starting state *)

Definition fields_below (n : nat) (d : pydict) : Prop :=
  forall f l, In (f, VDict l) d -> l < n.

(** [DEFAULT_MCP_SERVERS] as imported, and only older objects below it. *)
Definition default_loaded (s : cstate) : Prop :=
  (forall l d, module_heap !! l = Some d -> heap s !! l = Some d) /\ 5 <= next_loc s.

(** [override] is [None] or a dict of dicts, all allocated. *)
Definition override_ok (s : cstate) (override : option loc) : Prop :=
  match override with
  | None => True
  | Some ol =>
      ol < next_loc s /\ exists od, heap s !! ol = Some od /\
        forall k v, In (k, v) od ->
          exists l d, v = VDict l /\ l < next_loc s /\ heap s !! l = Some d /\
                      fields_below (next_loc s) d
  end.

(** ** Vocabulary of the proofs *)

(** [bd] is the item list of a dict of copies: the [i]-th item holds a dict
    allocated in [lo, hi) whose items are the [i]-th descriptor of [cat]. *)
Definition rep (h : gmap loc pydict) (lo hi : nat) (bd : pydict)
    (cat : list (string * pydict)) : Prop :=
  Forall2 (fun kv kd => kv.1 = kd.1 /\
             exists c, kv.2 = VDict c /\ lo <= c < hi /\ h !! c = Some kd.2) bd cat.

(** [h'] differs from [h] below [n] at most at [x]. *)
Definition agree_below (n : nat) (x : option loc) (h h' : gmap loc pydict) : Prop :=
  forall l, l < n -> x <> Some l -> h' !! l = h !! l.

(** ** Sample states

    Each state holds [DEFAULT_MCP_SERVERS] as imported (locations 0-4)
    and an [override] dict at location 5. *)

(** [override = {"new-server": {"url": "https://example.org/mcp"}}] *)
Definition new_server_heap : gmap loc pydict :=
  <[6 := [("url", VStr "https://example.org/mcp")]]>
    (<[5 := [("new-server", VDict 6)]]> module_heap).

Definition new_server_state : cstate :=
  {| heap := new_server_heap; next_loc := 7; env := []; trace := [] |}.

(** The same override, with [TAVILY_API_KEY] set. *)
Definition tavily_key_state : cstate :=
  {| heap := new_server_heap; next_loc := 7;
     env := [("TAVILY_API_KEY", "tv-key")]; trace := [] |}.

(** [override = {"internal": {"headers": H}}] with [H = {"Authorization": "token"}]
    at location 7. *)
Definition shared_headers_heap : gmap loc pydict :=
  <[7 := [("Authorization", VStr "token")]]>
    (<[6 := [("headers", VDict 7)]]>
      (<[5 := [("internal", VDict 6)]]> module_heap)).

Definition shared_headers_state : cstate :=
  {| heap := shared_headers_heap; next_loc := 8; env := []; trace := [] |}.

(** [override = {"tinyfish": {"headers": H}}] with [H = {}] at location 7,
    and [TINYFISH_API_KEY] set. *)
Definition tinyfish_headers_heap : gmap loc pydict :=
  <[7 := []]> (<[6 := [("headers", VDict 7)]]> (<[5 := [("tinyfish", VDict 6)]]> module_heap)).

Definition tinyfish_headers_state : cstate :=
  {| heap := tinyfish_headers_heap; next_loc := 8;
     env := [("TINYFISH_API_KEY", "tf-key")]; trace := [] |}.

End Config.

(** * The callers of the MCP code *)

(** ** [MCPProvider.__init__]: how [_config] is built

    This is the part of [MCPProvider.__init__] that touches the objects of
    [config.py]; [Provider.MCPProvider] models what the constructor stores
    next ([MultiServerMCPClient(self._config)] and [_tools_cache = None]). *)
Module ProviderInit.
Import Config.

(** [{k: resolved[k] for k in server_names if k in resolved}], filling the
    new dict [cfg]. *)
Fixpoint select_servers (cfg resolved : loc) (server_names : list string) : CM unit :=
  match server_names with
  | [] => em_ret tt
  | k :: rest =>
      let! rd := load resolved in
      match aget rd k with
      | Some v =>
          let! cd := load cfg in
          let! _ := store cfg (aset cd k v) in
          select_servers cfg resolved rest
      | None => select_servers cfg resolved rest
      end
  end.

(** The location of [self._config] after
    [MCPProvider(servers_config, server_names)]. *)
Definition MCPProvider___init__ (servers_config : option loc)
    (server_names : option (list string)) : CM loc :=
  match servers_config with
  | Some sc =>
      (* self._config = dict(servers_config) *)
      let! d := load sc in
      alloc d
  | None =>
      let! resolved := get_mcp_servers_config None in
      match server_names with
      | Some ns =>
          let! cfg := alloc [] in
          let! _ := select_servers cfg resolved ns in
          em_ret cfg
      | None => em_ret resolved
      end
  end.

(** The elements of [l] not in [seen], each at its first occurrence: the
    key order of a dict filled from [l] by [d[k] = ...]. *)
Fixpoint dedup_first (seen : list string) (l : list string) : list string :=
  match l with
  | [] => []
  | x :: l' =>
      if existsb (String.eqb x) seen then dedup_first seen l'
      else x :: dedup_first (x :: seen) l'
  end.

End ProviderInit.

(** ** [registry.py]: [AgentRegistry]

    The class attributes [_registry], [_mcp_servers] and
    [_strict_registration], and the log of [_logger]. An agent class is
    represented by its [__name__]. *)
Module Registry.

Definition agent_class := string.

Inductive exn :=
  | DuplicateAgentRegistrationError (name : string) (existing new : agent_class).

Inductive event :=
  | LogWarning (name : string) (existing new : agent_class)   (* Duplicate agent registration *)
  | LogDebug (name : string) (registered : agent_class).      (* Registered agent *)

Record AgentRegistry := {
  _registry : list (string * agent_class);
  _mcp_servers : list (string * option (list string));
  _strict_registration : bool;
  log : list event;
}.

(** The class as defined: both dicts empty, strict registration off. *)
Definition AgentRegistry_class : AgentRegistry :=
  {| _registry := []; _mcp_servers := []; _strict_registration := false; log := [] |}.

Definition set_strict_registration (strict : bool) (cls : AgentRegistry) : AgentRegistry :=
  {| _registry := _registry cls; _mcp_servers := _mcp_servers cls;
     _strict_registration := strict; log := log cls |}.

(** [AgentRegistry.register(name, mcp_servers, override=override)(agent_cls)] *)
Definition register (name : string) (mcp_servers : option (list string)) (override : bool)
    (agent_cls : agent_class) (cls : AgentRegistry) : (exn + agent_class) * AgentRegistry :=
  let checked :=
    (* if name in cls._registry and not override: *)
    match Config.aget (_registry cls) name, override with
    | Some existing_cls, false =>
        if _strict_registration cls
        then inl (DuplicateAgentRegistrationError name existing_cls agent_cls)
        else inr [LogWarning name existing_cls agent_cls]
    | _, _ => inr []
    end in
  match checked with
  | inl e => (inl e, cls)
  | inr warned =>
      (inr agent_cls,
       {| _registry := Config.aset (_registry cls) name agent_cls;
          _mcp_servers := Config.aset (_mcp_servers cls) name mcp_servers;
          _strict_registration := _strict_registration cls;
          log := log cls ++ warned ++ [LogDebug name agent_cls] |})
  end.

(** [AgentRegistry.get(name)] *)
Definition get (name : string) (cls : AgentRegistry) : option agent_class :=
  Config.aget (_registry cls) name.

(** [AgentRegistry.get_mcp_servers(name)]: [dict.get] gives [None] both for
    a missing name and for one registered with [mcp_servers=None]. *)
Definition get_mcp_servers (name : string) (cls : AgentRegistry) : option (list string) :=
  match Config.aget (_mcp_servers cls) name with
  | Some v => v
  | None => None
  end.

(** [AgentRegistry.list_agents()] *)
Definition list_agents (cls : AgentRegistry) : list string :=
  map fst (_registry cls).

(** [AgentRegistry.discover_agents()]: importing the agent modules runs
    their [@AgentRegistry.register(name, mcp_servers, override=...)]
    decorators in import order; an exception stops the import. *)
Fixpoint run_registrations
    (decls : list (string * option (list string) * bool * agent_class))
    (cls : AgentRegistry) : (exn + unit) * AgentRegistry :=
  match decls with
  | [] => (inr tt, cls)
  | (name, mcp_servers, override, agent_cls) :: rest =>
      match register name mcp_servers override agent_cls cls with
      | (inl e, cls') => (inl e, cls')
      | (inr _, cls') => run_registrations rest cls'
      end
  end.

End Registry.

(** ** [core/langgraph_agent.py]: [LangGraphMCPAgent]

    The MCP side of the agent. At most one [MCPProvider] is in play (the
    CLI creates one; [TravelCoordinatorAgent] hands the same one to its
    specialists), so it is threaded as state and [_mcp_provider] records
    whether it was injected. [create_agent] is third-party code; it is
    modelled as returning a graph over the tools it is given. *)
Module Agent.
Import Provider.

Record LangGraphMCPAgent := {
  _mcp_provider : bool;
  _initial_mcp_tools : option (list tool);
  _tools : list tool;
  _graph : option (list tool);
}.

(** [LangGraphMCPAgent.__init__], with the subclass's [local_tools()]. *)
Definition LangGraphMCPAgent___init__ (local_tools : list tool) (mcp_provider : bool)
    (initial_mcp_tools : option (list tool)) : LangGraphMCPAgent :=
  {| _mcp_provider := mcp_provider; _initial_mcp_tools := initial_mcp_tools;
     _tools := local_tools; _graph := None |}.

Definition _load_mcp_tools (self : LangGraphMCPAgent) (provider : MCPProvider)
    : (exn + list tool) * MCPProvider :=
  match _initial_mcp_tools self with
  | Some ts => (inr ts, provider)
  | None => if _mcp_provider self then get_tools provider else (inr [], provider)
  end.

Definition _ensure_initialized (self : LangGraphMCPAgent) (provider : MCPProvider)
    : (exn + unit) * (LangGraphMCPAgent * MCPProvider) :=
  match _graph self with
  | Some _ => (inr tt, (self, provider))
  | None =>
      match _load_mcp_tools self provider with
      | (inl e, provider') => (inl e, (self, provider'))
      | (inr ts, provider') =>
          let tools := _tools self ++ ts in
          (inr tt, ({| _mcp_provider := _mcp_provider self;
                       _initial_mcp_tools := _initial_mcp_tools self;
                       _tools := tools; _graph := Some tools |}, provider'))
      end
  end.

(** [LangGraphMCPAgent.get_tools()] *)
Definition LangGraphMCPAgent_get_tools (self : LangGraphMCPAgent) : list tool := _tools self.

End Agent.

(** * Proofs *)

Lemma em_bind_inl {E S A B} (m : EM E S A) (k : A -> EM E S B) s e s' :
  m s = (inl e, s') -> em_bind m k s = (inl e, s').
Proof. unfold em_bind. intros ->. reflexivity. Qed.

Lemma em_bind_inv {E S A B} (m : EM E S A) (k : A -> EM E S B) s b s'' :
  em_bind m k s = (inr b, s'') ->
  exists a s', m s = (inr a, s') /\ k a s' = (inr b, s'').
Proof. unfold em_bind. destruct (m s) as [[e|a] s']; intros H; [discriminate|eauto]. Qed.

Lemma em_bind_inr {E S A B} (m : EM E S A) (k : A -> EM E S B) s a s' :
  m s = (inr a, s') -> em_bind m k s = k a s'.
Proof. unfold em_bind. intros ->. reflexivity. Qed.


Module ProviderFacts.
Import Provider.

Example tool_session_two_servers :
  fst (tool_session true [("srv-a", good ["tool-srv-a"]); ("srv-b", good ["tool-srv-b"])]
         (fun ts => BReturn "done") init_pstate) = inr "done".
Proof. reflexivity. Qed.

Ltac run_em :=
  repeat (unfold em_bind, em_ret, em_raise, em_get, emit, tick, push_exit,
            set_stack in *; simpl in *).

(** One attempt returns [attempt_result], registers the session iff
    [opens], logs [EvConnecting] first and otherwise only [EvLoaded], and
    takes at most [CONN_TIMEOUT] seconds. *)
Lemma attempt_spec name srv s :
  exists d mid,
    attempt name srv s =
      (inr (attempt_result srv),
       {| clock := clock s + d;
          stack := (if opens srv then [(name, close_error srv)] else []) ++ stack s;
          trace := trace s ++ [EvConnecting name] ++
                   (if opens srv then [EvOpened name] else []) ++ mid |}) /\
    d <= CONN_TIMEOUT /\
    Forall (fun ev => exists n k, ev = EvLoaded n k) mid.
Proof.
  unfold attempt, attempt_result, opens.
  destruct (Nat.ltb (open_time srv) CONN_TIMEOUT) eqn:Ho; simpl.
  - apply Nat.ltb_lt in Ho.
    destruct (open_error srv) as [e|]; simpl.
    + exists (open_time srv), []. run_em. rewrite ?app_nil_r.
      split; [reflexivity | split; [lia | constructor]].
    + destruct (Nat.ltb (open_time srv + load_time srv) CONN_TIMEOUT) eqn:Hl.
      * apply Nat.ltb_lt in Hl. destruct (load_result srv) as [e|ts] eqn:Hr.
        -- exists (open_time srv + load_time srv), []. run_em.
           rewrite ?Hr, ?app_nil_r, <- ?app_assoc, ?Nat.add_assoc.
           split; [reflexivity | split; [lia | constructor]].
        -- exists (open_time srv + load_time srv), [EvLoaded name (length ts)].
           run_em. rewrite ?Hr, <- ?app_assoc, ?Nat.add_assoc.
           split; [reflexivity | split; [lia | repeat constructor; eauto]].
      * exists (open_time srv + (CONN_TIMEOUT - open_time srv)), []. run_em.
        rewrite ?app_nil_r, <- ?app_assoc, ?Nat.add_assoc.
        split; [reflexivity | split; [lia | constructor]].
  - exists CONN_TIMEOUT, []. run_em. rewrite ?app_nil_r.
    split; [reflexivity | split; [lia | constructor]].
Qed.

Lemma loaded_only_projections mid :
  Forall (fun ev => exists n k, ev = EvLoaded n k) mid ->
  opened_of mid = [] /\ closed_of mid = [] /\ connecting_of mid = [] /\
  failed_of mid = [] /\ yields_of mid = [].
Proof.
  induction 1 as [|ev mid (n & k & ->) _ IH]; [done|].
  destruct IH as (H1 & H2 & H3 & H4 & H5).
  unfold opened_of, closed_of, connecting_of, failed_of, yields_of in *; simpl.
  auto.
Qed.

Lemma opened_of_app l1 l2 : opened_of (l1 ++ l2) = opened_of l1 ++ opened_of l2.
Proof. apply omap_app. Qed.
Lemma closed_of_app l1 l2 : closed_of (l1 ++ l2) = closed_of l1 ++ closed_of l2.
Proof. apply omap_app. Qed.
Lemma connecting_of_app l1 l2 :
  connecting_of (l1 ++ l2) = connecting_of l1 ++ connecting_of l2.
Proof. apply omap_app. Qed.
Lemma failed_of_app l1 l2 : failed_of (l1 ++ l2) = failed_of l1 ++ failed_of l2.
Proof. apply omap_app. Qed.
Lemma yields_of_app l1 l2 : yields_of (l1 ++ l2) = yields_of l1 ++ yields_of l2.
Proof. apply omap_app. Qed.


Ltac proj_simpl :=
  repeat (rewrite ?opened_of_app, ?closed_of_app, ?connecting_of_app,
            ?failed_of_app, ?yields_of_app in *; simpl in * ).

(** The loop never closes a session; every session it registers is on
    top of the exit stack, most recent first. *)
Lemma acquire_stack ff servers acc s r s' :
  acquire ff servers acc s = (r, s') ->
  exists acq, trace s' = trace s ++ acq /\ closed_of acq = [] /\
    yields_of acq = [] /\
    map fst (stack s') = rev (opened_of acq) ++ map fst (stack s).
Proof.
  revert acc s r s'.
  induction servers as [|[name srv] rest IH]; intros acc s r s' H; simpl in H.
  - injection H as <- <-. exists []. rewrite app_nil_r. done.
  - destruct (attempt_spec name srv s) as (d & mid & Ha & _ & Hmid).
    destruct (loaded_only_projections mid Hmid) as (Ho & Hc & _ & _ & Hy).
    rewrite (em_bind_inr _ _ _ _ _ Ha) in H.
    set (s1 := {| clock := clock s + d;
                  stack := (if opens srv then [(name, close_error srv)] else []) ++ stack s;
                  trace := trace s ++ [EvConnecting name] ++
                    (if opens srv then [EvOpened name] else []) ++ mid |}) in H.
    assert (Hs1 : exists acq1, trace s1 = trace s ++ acq1 /\ closed_of acq1 = [] /\
              yields_of acq1 = [] /\
              map fst (stack s1) = rev (opened_of acq1) ++ map fst (stack s)).
    { exists ([EvConnecting name] ++ (if opens srv then [EvOpened name] else []) ++ mid).
      subst s1; simpl. split; [done|].
      destruct (opens srv); proj_simpl; rewrite Ho, Hc, Hy; auto. }
    destruct Hs1 as (acq1 & Ht1 & Hc1 & Hy1 & Hk1).
    assert (Hstep : forall ext acc' s2 r2 s2',
              acquire ff rest acc' s2 = (r2, s2') ->
              trace s2 = trace s ++ acq1 ++ ext ->
              opened_of ext = [] -> closed_of ext = [] -> yields_of ext = [] ->
              map fst (stack s2) = map fst (stack s1) ->
              exists acq, trace s2' = trace s ++ acq /\ closed_of acq = [] /\
                yields_of acq = [] /\
                map fst (stack s2') = rev (opened_of acq) ++ map fst (stack s)).
    { intros ext acc' s2 r2 s2' H2 Ht2 Hoe Hce Hye Hk2.
      destruct (IH _ _ _ _ H2) as (acq2 & Ht & Hc2 & Hy2 & Hk).
      exists (acq1 ++ ext ++ acq2). rewrite Ht, Ht2, !app_assoc.
      proj_simpl. rewrite Hc1, Hc2, Hy1, Hy2, Hoe, Hce, Hye, Hk, Hk2, Hk1.
      rewrite !app_nil_r, rev_app_distr, app_assoc. auto. }
    destruct (attempt_result srv) as [e|tools].
    + destruct (is_timeout e); [|destruct (is_Exception e)]; destruct ff;
        run_em;
        try (injection H as <- <-; exists acq1; split; [exact Ht1 | auto]; fail);
        (eapply (Hstep [EvFailed name _]); [exact H | | done | done | done | done];
         simpl; rewrite Ht1, app_assoc; reflexivity).
    + eapply (Hstep []); [exact H | rewrite app_nil_r; exact Ht1 | done..].
Qed.

(** Leaving the exit stack calls every registered [__aexit__] once, most
    recent first; it raises nothing of its own, and with no failing close
    the exception passed in is the one that leaves. *)
Lemma unwind_spec cbs exc s :
  exists o, unwind cbs exc s =
    (inr o, {| clock := clock s; stack := stack s;
               trace := trace s ++ map (fun p => EvClosed p.1) cbs |}) /\
    (Forall (fun p => p.2 = None) cbs -> o = exc) /\
    (exc <> None -> o <> None).
Proof.
  revert exc s. induction cbs as [|[name close] rest IH]; intros exc s; simpl.
  - exists exc. rewrite app_nil_r. destruct s; auto.
  - destruct (IH (match close with Some f => Some f | None => exc end)
                 {| clock := clock s; stack := stack s;
                    trace := trace s ++ [EvClosed name] |}) as (o & Hu & Hn & Hs).
    exists o. unfold em_bind, emit. rewrite Hu. simpl. rewrite <- app_assoc.
    split; [reflexivity|]. split.
    + intros Hf. inversion Hf as [|? ? Hp Hr]; subst. simpl in Hp; subst.
      auto.
    + intros He. apply Hs. destruct close; congruence.
Qed.

Lemma stack_exit_spec exc s :
  exists o, stack_exit exc s =
    (inr o, {| clock := clock s; stack := [];
               trace := trace s ++ map (fun p => EvClosed p.1) (stack s) |}) /\
    (Forall (fun p => p.2 = None) (stack s) -> o = exc) /\
    (exc <> None -> o <> None).
Proof.
  unfold stack_exit, em_bind, em_get, set_stack. simpl.
  destruct (unwind_spec (stack s) exc
              {| clock := clock s; stack := []; trace := trace s |}) as (o & Hu & H).
  exists o. rewrite Hu. auto.
Qed.

Lemma closed_of_closing (cbs : list (string * option exn)) :
  closed_of (map (fun p => EvClosed p.1) cbs) = map fst cbs.
Proof. induction cbs as [|[n c] ? IH]; [done|]. unfold closed_of in *. simpl. f_equal. done. Qed.

Lemma opened_of_closing (cbs : list (string * option exn)) :
  opened_of (map (fun p => EvClosed p.1) cbs) = [].
Proof. induction cbs as [|[n c] ? IH]; done. Qed.

(** C1. Whatever way a [tool_session] scope is left (the block returns or
    raises, a cancellation arrives mid-block or during acquisition, some
    server fails, some close raises), every session registered during
    entry is closed exactly once, after all openings, most recent first. *)
Theorem tool_session_closes_every_opened_session ff config block s :
  exists acq cleanup,
    trace (snd (tool_session ff config block s)) = trace s ++ acq ++ cleanup /\
    closed_of acq = [] /\ opened_of cleanup = [] /\
    closed_of cleanup = rev (opened_of acq).
Proof.
  unfold tool_session, em_bind, em_try, set_stack at 1. simpl.
  set (s0 := {| clock := clock s; stack := []; trace := trace s |}).
  destruct (acquire ff config [] s0) as [r s1] eqn:E.
  destruct (acquire_stack _ _ _ _ _ _ E) as (acq & Ht & Hc & _ & Hk).
  simpl in Hk. rewrite app_nil_r in Hk.
  destruct r as [e|all_tools].
  - destruct (stack_exit_spec (Some e) s1) as (o & Hx & _).
    rewrite Hx. simpl. exists acq, (map (fun p => EvClosed p.1) (stack s1)).
    rewrite Ht, <- app_assoc. split; [reflexivity|]. split; [done|].
    split; [apply opened_of_closing|]. rewrite closed_of_closing. exact Hk.
  - set (s2 := {| clock := clock s1; stack := stack s1;
                  trace := trace s1 ++ [EvYield all_tools] |}).
    destruct (stack_exit_spec (block_exc (block all_tools)) s2) as (o & Hx & _).
    rewrite Hx.
    exists acq, (EvYield all_tools :: map (fun p => EvClosed p.1) (stack s1)).
    split.
    + destruct o as [f|]; [|destruct (block all_tools)]; simpl;
        rewrite Ht, <- !app_assoc; reflexivity.
    + split; [done|]. unfold opened_of, closed_of in *. simpl.
      fold (opened_of (map (fun p => EvClosed p.1) (stack s1))).
      fold (closed_of (map (fun p => EvClosed p.1) (stack s1))).
      rewrite opened_of_closing, closed_of_closing. auto.
Qed.

Lemma acquire_best_effort servers acc s :
  Forall (fun p => attempt_result p.2 <> inl CancelledError) servers ->
  exists acq,
    fst (acquire false servers acc s) = inr (acc ++ succeeded_tools servers) /\
    trace (snd (acquire false servers acc s)) = trace s ++ acq /\
    connecting_of acq = map fst servers /\
    failed_of acq = failures servers /\
    yields_of acq = [].
Proof.
  revert acc s. induction servers as [|[name srv] rest IH]; intros acc s Hc.
  - exists []. unfold succeeded_tools, failures. simpl. rewrite ?app_nil_r. auto.
  - inversion Hc as [|? ? Hcs Hcr]; subst. simpl in Hcs.
    destruct (attempt_spec name srv s) as (d & mid & Ha & _ & Hmid).
    destruct (loaded_only_projections mid Hmid) as (_ & _ & Hco & Hf & Hy).
    set (s1 := {| clock := clock s + d;
                  stack := (if opens srv then [(name, close_error srv)] else []) ++ stack s;
                  trace := trace s ++ [EvConnecting name] ++
                    (if opens srv then [EvOpened name] else []) ++ mid |}) in Ha.
    set (acq1 := [EvConnecting name] ++ (if opens srv then [EvOpened name] else []) ++ mid).
    assert (Hp1 : connecting_of acq1 = [name] /\ failed_of acq1 = [] /\ yields_of acq1 = []).
    { subst acq1. destruct (opens srv); proj_simpl; rewrite Hco, Hf, Hy; auto. }
    destruct Hp1 as (Hc1 & Hf1 & Hy1).
    assert (Ht1 : trace s1 = trace s ++ acq1) by reflexivity.
    clearbody acq1 s1.
    change (succeeded_tools ((name, srv) :: rest))
      with (ok_tools (attempt_result srv) ++ succeeded_tools rest).
    assert (Hfl : failures ((name, srv) :: rest) =
                  match attempt_result srv with
                  | inl e => [(name, report e)] | inr _ => [] end ++ failures rest)
      by (unfold failures; simpl; destruct (attempt_result srv); reflexivity).
    rewrite Hfl.
    change (map fst ((name, srv) :: rest)) with (name :: map fst rest).
    destruct (attempt_result srv) as [e|tools] eqn:Hr.
    + assert (He : is_Exception e = true) by (destruct e; simpl; congruence).
      assert (Hk : acquire false ((name, srv) :: rest) acc s =
                   acquire false rest acc
                     {| clock := clock s1; stack := stack s1;
                        trace := trace s1 ++ [EvFailed name (report e)] |}).
      { simpl. rewrite (em_bind_inr _ _ _ _ _ Ha). unfold report.
        destruct (is_timeout e); rewrite ?He; reflexivity. }
      rewrite Hk.
      destruct (IH acc {| clock := clock s1; stack := stack s1;
                          trace := trace s1 ++ [EvFailed name (report e)] |} Hcr)
        as (acq & Hr2 & Hacq & Hco2 & Hf2 & Hy2).
      exists (acq1 ++ [EvFailed name (report e)] ++ acq).
      rewrite Hr2, Hacq. simpl. rewrite Ht1, <- !app_assoc.
      split; [reflexivity|]. split; [reflexivity|]. simpl.
      proj_simpl. rewrite Hc1, Hf1, Hy1, Hco2, Hf2, Hy2. auto.
    + simpl. rewrite (em_bind_inr _ _ _ _ _ Ha).
      destruct (IH (acc ++ tools) s1 Hcr) as (acq & Hr2 & Hacq & Hco2 & Hf2 & Hy2).
      exists (acq1 ++ acq). rewrite Hr2, Hacq, Ht1, <- !app_assoc.
      split; [reflexivity|]. split; [reflexivity|].
      proj_simpl. rewrite Hc1, Hf1, Hy1, Hco2, Hf2, Hy2. auto.
Qed.

Lemma yields_of_closing (cbs : list (string * option exn)) :
  yields_of (map (fun p => EvClosed p.1) cbs) = [].
Proof. induction cbs as [|[n c] ? IH]; done. Qed.

Lemma succeeded_tools_all_failed config :
  Forall (fun p => failed (attempt_result p.2) = true) config ->
  succeeded_tools config = [].
Proof.
  unfold succeeded_tools. induction 1 as [|[n srv] ? Hp ? IH]; [done|].
  simpl in *. rewrite IH. destruct (attempt_result srv); [done|discriminate].
Qed.

(** C3. With [fail_fast=false] and no outer cancellation during the
    acquisition, every server is attempted in catalog order, each failure
    is logged (not raised), and the scope yields exactly the concatenation
    of the tools of the servers that succeeded; with no success it yields
    the empty list. *)
Theorem tool_session_best_effort config block s :
  Forall (fun p => attempt_result p.2 <> inl CancelledError) config ->
  exists acq rest,
    trace (snd (tool_session false config block s)) =
      trace s ++ acq ++ EvYield (succeeded_tools config) :: rest /\
    connecting_of acq = map fst config /\
    failed_of acq = failures config /\
    yields_of acq = [] /\ yields_of rest = [] /\
    (Forall (fun p => failed (attempt_result p.2) = true) config ->
     succeeded_tools config = []).
Proof.
  intros Hc.
  unfold tool_session, em_bind, em_try, set_stack at 1. simpl.
  set (s0 := {| clock := clock s; stack := []; trace := trace s |}).
  destruct (acquire_best_effort config [] s0 Hc) as (acq & Hr & Ha & Hco & Hf & Hy).
  destruct (acquire false config [] s0) as [r s1] eqn:E. simpl in Hr, Ha. subst r.
  simpl.
  set (s2 := {| clock := clock s1; stack := stack s1;
                trace := trace s1 ++ [EvYield (succeeded_tools config)] |}).
  destruct (stack_exit_spec (block_exc (block (succeeded_tools config))) s2)
    as (o & Hx & _).
  rewrite Hx. exists acq, (map (fun p => EvClosed p.1) (stack s2)).
  split.
  { destruct o as [f|]; [|destruct (block (succeeded_tools config))]; simpl;
      rewrite Ha, <- !app_assoc; reflexivity. }
  split; [done|]. split; [done|]. split; [done|]. split.
  - apply yields_of_closing.
  - apply succeeded_tools_all_failed.
Qed.

(** Every exit callback the loop leaves on the stack belongs to one of the
    servers it went through. *)
Lemma acquire_stack_from ff servers acc s r s' :
  acquire ff servers acc s = (r, s') ->
  forall q, In q (stack s') ->
    In q (stack s) \/ exists p, In p servers /\ q = (p.1, close_error p.2).
Proof.
  revert acc s r s'.
  induction servers as [|[name srv] rest IH]; intros acc s r s' H q Hq; simpl in H.
  - injection H as <- <-. auto.
  - destruct (attempt_spec name srv s) as (d & mid & Ha & _ & _).
    rewrite (em_bind_inr _ _ _ _ _ Ha) in H.
    set (s1 := {| clock := clock s + d;
                  stack := (if opens srv then [(name, close_error srv)] else []) ++ stack s;
                  trace := trace s ++ [EvConnecting name] ++
                    (if opens srv then [EvOpened name] else []) ++ mid |}) in H.
    assert (H1 : forall q, In q (stack s1) ->
              In q (stack s) \/ exists p, In p ((name, srv) :: rest) /\
                                        q = (p.1, close_error p.2)).
    { intros q' Hq'. subst s1. simpl in Hq'. apply in_app_or in Hq' as [Hq'|Hq'].
      - destruct (opens srv); [|contradiction]. destruct Hq' as [<-|[]].
        right. exists (name, srv). simpl. auto.
      - auto. }
    assert (Hrec : forall acc' s2 r2 s2', acquire ff rest acc' s2 = (r2, s2') ->
              stack s2 = stack s1 ->
              In q (stack s2') -> In q (stack s) \/
                exists p, In p ((name, srv) :: rest) /\ q = (p.1, close_error p.2)).
    { intros acc' s2 r2 s2' H2 Hs2 Hq2.
      destruct (IH _ _ _ _ H2 q Hq2) as [Hin|(p & Hp & ->)].
      - rewrite Hs2 in Hin. apply H1. exact Hin.
      - right. exists p. simpl. auto. }
    destruct (attempt_result srv) as [e|tools].
    + destruct (is_timeout e); [|destruct (is_Exception e)]; destruct ff; run_em;
        try (injection H as <- <-; apply H1; exact Hq);
        eapply Hrec; eauto.
    + eapply Hrec; eauto.
Qed.











(** C2: with [fail_fast=true], a failing close of a session opened before
    the failing server replaces the [MCPConnectionError]: the caller
    receives the close error. *)
Lemma fail_fast_connection_error_masked_by_close :
  tool_session true
    [("a", close_fails ["tool-a"]); ("b", refused); ("c", good ["tool-c"])]
    (fun _ => BReturn "unused") init_pstate =
    (inl (OtherError "HTTPStatusError" "405 Method Not Allowed"),
     {| clock := 3; stack := [];
        trace := [EvConnecting "a"; EvOpened "a"; EvLoaded "a" 1;
                  EvConnecting "b"; EvClosed "a"] |}).
Proof. reflexivity. Qed.

(** C4: a failing close escalates: it replaces the block's return value,
    and it replaces the block's own exception. Nothing is logged for it. *)
Lemma close_failure_escalates :
  tool_session true [("web-fetch", close_fails ["fetch"])]
    (fun _ => BReturn "answer") init_pstate =
    (inl (OtherError "HTTPStatusError" "405 Method Not Allowed"),
     {| clock := 2; stack := [];
        trace := [EvConnecting "web-fetch"; EvOpened "web-fetch";
                  EvLoaded "web-fetch" 1; EvYield ["fetch"];
                  EvClosed "web-fetch"] |}) /\
  fst (tool_session true [("web-fetch", close_fails ["fetch"])]
         (fun _ => BRaise (OtherError "ValueError" "agent failed")) init_pstate) =
    inl (OtherError "HTTPStatusError" "405 Method Not Allowed").
Proof. split; reflexivity. Qed.

Lemma client_get_tools_fails cfg name srv e :
  In (name, srv) cfg -> server_load srv = inl e ->
  exists e', MultiServerMCPClient_get_tools cfg = inl e'.
Proof.
  induction cfg as [|[n p] rest IH]; intros Hin Hl; [contradiction|].
  simpl. destruct Hin as [Heq|Hin].
  - injection Heq as -> ->. rewrite Hl. eauto.
  - destruct (server_load p); [eauto|].
    destruct (IH Hin Hl) as (e' & ->). eauto.
Qed.

Lemma client_get_tools_error_source cfg e' :
  MultiServerMCPClient_get_tools cfg = inl e' ->
  exists name srv, In (name, srv) cfg /\ server_load srv = inl e'.
Proof.
  induction cfg as [|[n p] rest IH]; simpl; [discriminate|].
  destruct (server_load p) eqn:Hp.
  - intros [= <-]. exists n, p. auto.
  - destruct (MultiServerMCPClient_get_tools rest); [|discriminate].
    intros [= <-]. destruct IH as (n' & p' & Hin & Hl); [reflexivity|].
    exists n', p'. auto.
Qed.

Lemma client_get_tools_single_error cfg name srv e :
  In (name, srv) cfg -> server_load srv = inl e ->
  Forall (fun p => server_load p.2 = inl e \/ failed (server_load p.2) = false) cfg ->
  MultiServerMCPClient_get_tools cfg = inl e.
Proof.
  intros Hin Hl Hall.
  destruct (MultiServerMCPClient_get_tools cfg) as [e'|ts] eqn:E.
  - destruct (client_get_tools_error_source _ _ E) as (n' & p' & Hin' & Hl').
    rewrite Forall_forall in Hall. apply list_elem_of_In in Hin'.
    destruct (Hall _ Hin') as [H|H]; simpl in H; rewrite Hl' in H;
      [congruence|discriminate].
  - destruct (client_get_tools_fails _ _ _ _ Hin Hl) as (e' & E').
    congruence.
Qed.

(** C5 (as amended). [get_tools] has no per-server error handling: on the
    first call it returns exactly what [MultiServerMCPClient.get_tools]
    returns and caches only a success. When one configured server fails,
    [get_tools] raises the failure of a failing configured server, caches
    nothing and returns no tool list; when every failing server fails with
    the same error [e] (in particular when only one server fails), it
    raises [e] itself. *)
Theorem get_tools_propagates_client_failure self name srv e :
  _tools_cache self = None ->
  In (name, srv) (_config self) -> server_load srv = inl e ->
  get_tools self =
    match MultiServerMCPClient_get_tools (_config self) with
    | inl e' => (inl e', self)
    | inr ts => (inr ts, {| _config := _config self; _tools_cache := Some ts |})
    end /\
  (exists name' srv' e',
     In (name', srv') (_config self) /\ server_load srv' = inl e' /\
     get_tools self = (inl e', self)) /\
  (Forall (fun p => server_load p.2 = inl e \/ failed (server_load p.2) = false)
     (_config self) ->
   get_tools self = (inl e, self)).
Proof.
  intros Hc Hin Hl. unfold get_tools. rewrite Hc. split; [reflexivity|].
  split.
  - destruct (client_get_tools_fails _ _ _ _ Hin Hl) as (e' & E).
    destruct (client_get_tools_error_source _ _ E) as (n' & p' & Hin' & Hl').
    rewrite E. exists n', p', e'. auto.
  - intros Hall. rewrite (client_get_tools_single_error _ _ _ _ Hin Hl Hall).
    reflexivity.
Qed.

Lemma get_tools_propagates_client_failure_witness :
  get_tools {| _config := [("kiwi", good ["search"]); ("tavily", refused)];
               _tools_cache := None |} =
    (inl (OtherError "ConnectError" "connection refused"),
     {| _config := [("kiwi", good ["search"]); ("tavily", refused)];
        _tools_cache := None |}).
Proof.
  destruct (get_tools_propagates_client_failure
              {| _config := [("kiwi", good ["search"]); ("tavily", refused)];
                 _tools_cache := None |} "tavily" refused
              (OtherError "ConnectError" "connection refused")) as (_ & _ & H).
  - reflexivity.
  - simpl. auto.
  - reflexivity.
  - apply H. simpl. constructor; [simpl; auto|]. constructor; [simpl; auto|].
    constructor.
Defined.

(** C5 fails as stated: with one of two servers unreachable, the first
    [get_tools] raises, although the other server is reachable. *)
Lemma get_tools_one_unreachable_raises :
  server_load (good ["search"]) = inr ["search"] /\
  get_tools {| _config := [("kiwi", good ["search"]); ("tavily", refused)];
               _tools_cache := None |} =
    (inl (OtherError "ConnectError" "connection refused"),
     {| _config := [("kiwi", good ["search"]); ("tavily", refused)];
        _tools_cache := None |}).
Proof. split; reflexivity. Qed.

(** A witness for C3: three servers, the second refused. *)
Lemma tool_session_best_effort_witness :
  exists acq rest,
    trace (snd (tool_session false
                  [("a", good ["tool-a"]); ("bad", refused); ("c", good ["tool-c"])]
                  (fun _ => BReturn "ok") init_pstate)) =
      [] ++ acq ++ EvYield ["tool-a"; "tool-c"] :: rest /\
    failed_of acq = [("bad", OtherError "ConnectError" "connection refused")].
Proof.
  destruct (tool_session_best_effort
              [("a", good ["tool-a"]); ("bad", refused); ("c", good ["tool-c"])]
              (fun _ => BReturn "ok") init_pstate)
    as (acq & rest & Ht & _ & Hf & _).
  - repeat constructor; discriminate.
  - exists acq, rest. split; [exact Ht | exact Hf].
Defined.

End ProviderFacts.

Module ConfigFacts.
Import Config.

Lemma aget_In {V} (d : list (string * V)) k v : aget d k = Some v -> In (k, v) d.
Proof.
  induction d as [|[k' v'] d IH]; simpl; [discriminate|].
  destruct (String.eqb_spec k k') as [->|]; [intros [= ->]; auto | auto].
Qed.

Lemma In_aset {V} (d : list (string * V)) k w f v :
  In (f, v) (aset d k w) -> (f = k /\ v = w) \/ In (f, v) d.
Proof.
  induction d as [|[k' v'] d IH]; simpl.
  - intros [[= -> ->]|[]]. auto.
  - destruct (String.eqb_spec k k') as [->|]; simpl.
    + intros [[= -> ->]|H]; auto.
    + intros [[= -> ->]|H]; [auto|]. destruct (IH H) as [?|?]; auto.
Qed.

Lemma aget_aset_same {V} (d : list (string * V)) k v : aget (aset d k v) k = Some v.
Proof.
  induction d as [|[k' v'] d IH]; simpl.
  - rewrite String.eqb_refl. reflexivity.
  - destruct (String.eqb_spec k k') as [->|Hne]; simpl.
    + rewrite String.eqb_refl. reflexivity.
    + apply String.eqb_neq in Hne. rewrite Hne. exact IH.
Qed.

Lemma keys_aset {V} (d : list (string * V)) k v f :
  In f (map fst (aset d k v)) <-> f = k \/ In f (map fst d).
Proof.
  induction d as [|[k' v'] d IH]; simpl.
  - intuition.
  - destruct (String.eqb_spec k k') as [->|]; simpl; rewrite ?IH; intuition.
Qed.

Lemma fields_below_aset n d k v :
  fields_below n d -> (forall l, v = VDict l -> l < n) -> fields_below n (aset d k v).
Proof.
  intros Hd Hv f l Hin. destruct (In_aset _ _ _ _ _ Hin) as [[_ Heq]|H]; eauto.
Qed.

Lemma fields_below_mono n m d : n <= m -> fields_below n d -> fields_below m d.
Proof. intros Hnm Hd f l Hin. specialize (Hd f l Hin). lia. Qed.

Ltac peel H :=
  let a := fresh "a" in
  let s1 := fresh "s" in
  let Hm := fresh "Hm" in
  apply em_bind_inv in H; destruct H as (a & s1 & Hm & H);
  try (unfold load, alloc, environ_get, emit, store, em_ret in Hm;
       injection Hm as ? ?; subst a s1).

Lemma url_or_empty_spec h0 v s u s' :
  (forall l, v = Some (VDict l) -> heap s !! l = h0 !! l) ->
  url_or_empty v s = (inr u, s') -> s' = s /\ url_str h0 v = Some u.
Proof.
  intros Hl H. destruct v as [[u'| |l]|]; simpl in H.
  - injection H as <- <-. auto.
  - injection H as <- <-. auto.
  - unfold em_bind, load in H. simpl in H. rewrite (Hl l eq_refl) in H.
    unfold url_str. destruct (default [] (h0 !! l)); simpl in H.
    + injection H as <- <-. auto.
    + discriminate.
  - injection H as <- <-. auto.
Qed.

Lemma fields_below_lt n d f l : fields_below n d -> aget d f = Some (VDict l) -> l < n.
Proof. intros Hd Hg. exact (Hd _ _ (aget_In _ _ _ Hg)). Qed.

Ltac fin_state H := unfold em_ret in H; injection H as <- <-; simpl.

Ltac close_step n Hfb :=
  split_and!; try reflexivity; try lia;
  try (rewrite <- app_assoc; reflexivity);
  try (rewrite app_nil_r; reflexivity);
  try (rewrite lookup_insert_eq; reflexivity);
  try (rewrite lookup_insert_ne by lia; rewrite lookup_insert_eq; reflexivity);
  try (apply (fields_below_mono n); [lia|exact Hfb]);
  try (apply fields_below_aset; [apply (fields_below_mono n); [lia|exact Hfb]|];
       first [discriminate | intros ?l [= <-]; lia]);
  try (intros ?l ?Hl ?Hne; rewrite !lookup_insert_ne by lia; reflexivity);
  try (intros ?l ?Hl ?Hne; rewrite lookup_insert_ne by congruence;
       rewrite !lookup_insert_ne by lia; reflexivity);
  try (intros ?l ?Hl; lia);
  try (match goal with
       | |- _ = "tinyfish" -> _ => intros ?Hk ?Hkey;
         first [discriminate | congruence | (subst; simpl in *; discriminate)
               | (left; reflexivity) | solve [right; eauto]]
       end).

Lemma resolve_step k raw d s out s' :
  heap s !! raw = Some d -> fields_below (next_loc s) d ->
  _resolve_server_config k raw s = (inr out, s') ->
  out = next_loc s /\ S (next_loc s) <= next_loc s' /\ env s' = env s /\
  trace s' = trace s ++ resolve_events (env s) k /\
  heap s' !! out = Some (resolved_fields (heap s) (env s) k d (S (next_loc s))) /\
  fields_below (next_loc s') (resolved_fields (heap s) (env s) k d (S (next_loc s))) /\
  agree_below (next_loc s) (mutated (env s) k d) (heap s) (heap s') /\
  (forall l, next_loc s < l < next_loc s' -> mutated (env s) k d = None ->
     exists key, tinyfish_key (env s) = Some key /\
                 heap s' !! l = Some [("X-API-Key", VStr key)]) /\
  (k = "tinyfish" -> tinyfish_key (env s) <> None ->
     aget d "headers" = None \/ exists x, aget d "headers" = Some (VDict x)).
Proof.
  intros Hraw Hfb H.
  unfold _resolve_server_config in H.
  peel H. rewrite Hraw in H. peel H. simpl in H.
  unfold resolved_fields, resolve_events, mutated, tavily_key, tinyfish_key.
  set (n := next_loc s) in *.
  destruct (String.eqb k "tavily") eqn:Hta.
  - apply String.eqb_eq in Hta as ->. simpl.
    peel H. simpl in H.
    destruct (nonempty (aget (env s) "TAVILY_API_KEY")) as [key|] eqn:Hk.
    + peel H.
      assert (Hside : forall l, aget d "url" = Some (VDict l) ->
                heap {| heap := <[n:=d]> (heap s); next_loc := S n; env := env s;
                        trace := trace s ++ [EnvGet "TAVILY_API_KEY"] |} !! l = heap s !! l).
      { intros l Hl. simpl. apply lookup_insert_ne.
        pose proof (fields_below_lt _ _ _ _ Hfb Hl). lia. }
      destruct (url_or_empty_spec _ _ _ _ _ Hside Hm) as [-> Hu]. clear Hm Hside.
      peel H. simpl in H. rewrite lookup_insert_eq in H. simpl in H.
      peel H. fin_state H. rewrite Hu. close_step n Hfb.
    + peel H. fin_state H. close_step n Hfb.
  - destruct (String.eqb k "tinyfish") eqn:Htf.
    + apply String.eqb_eq in Htf as ->. simpl.
      peel H. simpl in H.
      destruct (nonempty (aget (env s) "TINYFISH_API_KEY")) as [key|] eqn:Hk.
      * peel H. peel H. simpl in H.
        rewrite lookup_insert_ne in H by lia. rewrite lookup_insert_eq in H. simpl in H.
        peel H. peel H. simpl in H. rewrite lookup_insert_eq in H. simpl in H.
        rewrite aget_aset_same in H.
        destruct (aget d "headers") as [[hs| |x]|] eqn:Hh; simpl in H;
          try discriminate.
        -- pose proof (fields_below_lt _ _ _ _ Hfb Hh) as Hx.
           peel H. simpl in H. rewrite !lookup_insert_ne in H by lia.
           peel H. fin_state H. close_step n Hfb.
           intros l Hl Hn. discriminate.
        -- peel H. simpl in H. rewrite lookup_insert_ne in H by lia.
           rewrite lookup_insert_eq in H. simpl in H.
           peel H. fin_state H. close_step n Hfb.
           intros l Hl _. assert (l = S n) as -> by lia.
           exists key. split; [reflexivity|]. rewrite lookup_insert_eq. reflexivity.
      * peel H. fin_state H. close_step n Hfb.
    + fin_state H. close_step n Hfb.
Qed.

(** ** The dict of copies *)

Ltac lk :=
  repeat rewrite lookup_insert;
  repeat first [rewrite decide_True by lia | rewrite decide_False by lia].

Lemma rep_aset h lo hi bd cat k c d :
  rep h lo hi bd cat -> lo <= c < hi -> h !! c = Some d ->
  rep h lo hi (aset bd k (VDict c)) (aset cat k d).
Proof.
  intros Hr Hc Hd.
  induction Hr as [|[k1 v1] [k2 d2] bd cat [Hk Hx] Hr IH]; simpl in *.
  - repeat constructor. simpl. eauto.
  - subst k2. destruct (String.eqb k k1); constructor; simpl; eauto.
Qed.

Lemma rep_mono h h' lo hi hi' bd cat :
  rep h lo hi bd cat -> hi <= hi' ->
  (forall c, lo <= c < hi -> h' !! c = h !! c) -> rep h' lo hi' bd cat.
Proof.
  intros Hr Hhi Hag. eapply Forall2_impl; [exact Hr|].
  intros [k v] [k' d] [Hk (c & Hv & Hc & Hd)]; simpl in *.
  split; [exact Hk|]. exists c. split_and!; [exact Hv|lia|lia|].
  rewrite Hag; [exact Hd|lia].
Qed.

Lemma rep_aget h lo hi bd cat k :
  rep h lo hi bd cat ->
  (aget bd k = None /\ aget cat k = None) \/
  (exists c d, aget bd k = Some (VDict c) /\ aget cat k = Some d /\
               lo <= c < hi /\ h !! c = Some d).
Proof.
  intros Hr.
  induction Hr as [|[k1 v1] [k2 d2] ? ? [Hk (c & Hv & Hc & Hd)] Hr IH]; simpl in *.
  - auto.
  - subst. destruct (String.eqb k k2); [right; eauto 10|exact IH].
Qed.

Lemma rep_keys h lo hi bd cat : rep h lo hi bd cat -> map fst bd = map fst cat.
Proof.
  intros Hr. induction Hr as [|[k1 v1] [k2 d2] ? ? [Hk _] Hr IH]; simpl in *; congruence.
Qed.

Lemma agree_below_trans n x h1 h2 h3 :
  agree_below n x h1 h2 -> agree_below n x h2 h3 -> agree_below n x h1 h3.
Proof. intros H12 H23 l Hl Hx. rewrite H23, H12; auto. Qed.

Lemma fold_left_ext_In {A B} (f g : A -> B -> A) (l : list B) a :
  (forall acc b, In b l -> f acc b = g acc b) -> fold_left f l a = fold_left g l a.
Proof.
  revert a. induction l as [|b l IH]; intros a Hfg; simpl; [reflexivity|].
  rewrite Hfg by (left; reflexivity). apply IH. intros acc b' Hb. apply Hfg. right. exact Hb.
Qed.

(** Phase 1: [base = {k: dict(v) for k, v in DEFAULT_MCP_SERVERS.items()}]. *)
Lemma copy_entries_spec base items s bd cat :
  base < next_loc s -> heap s !! base = Some bd ->
  rep (heap s) (S base) (next_loc s) bd cat ->
  (forall k v, In (k, v) items -> exists l, v = VDict l /\ l < base) ->
  exists s', copy_entries base items s = (inr tt, s') /\
    next_loc s <= next_loc s' /\ env s' = env s /\ trace s' = trace s /\
    agree_below (next_loc s) (Some base) (heap s) (heap s') /\
    exists bd', heap s' !! base = Some bd' /\
      rep (heap s') (S base) (next_loc s') bd'
        (fold_left (fun cat kv => aset cat kv.1 (dict_of (heap s) kv.2)) items cat).
Proof.
  revert s bd cat.
  induction items as [|[k v] items IH]; intros s bd cat Hb Hbd Hr Hitems; simpl.
  - exists s. split_and!; try reflexivity; try lia.
    + intros l _ _. reflexivity.
    + exists bd. auto.
  - destruct (Hitems k v (or_introl eq_refl)) as (l & -> & Hl).
    set (n := next_loc s).
    set (s2 := {| heap := <[base := aset bd k (VDict n)]> (<[n := default [] (heap s !! l)]> (heap s));
                  next_loc := S n; env := env s; trace := trace s |}).
    assert (Hrun : copy_entries base ((k, VDict l) :: items) s = copy_entries base items s2).
    { simpl. unfold em_bind, load, alloc, store. simpl.
      rewrite lookup_insert_ne by lia. rewrite Hbd. reflexivity. }
    assert (Hag : agree_below n (Some base) (heap s) (heap s2)).
    { intros l' Hl' Hne. simpl. rewrite lookup_insert_ne by congruence.
      rewrite lookup_insert_ne by lia. reflexivity. }
    destruct (IH s2 (aset bd k (VDict n)) (aset cat k (default [] (heap s !! l))))
      as (s' & Hs' & Hn & He & Ht & Hag' & bd' & Hbd' & Hr').
    + simpl. lia.
    + simpl. apply lookup_insert_eq.
    + apply rep_aset.
      * eapply rep_mono; [exact Hr|simpl; lia|].
        intros c Hc. simpl. rewrite !lookup_insert_ne by lia. reflexivity.
      * simpl. lia.
      * simpl. rewrite lookup_insert_ne by lia. apply lookup_insert_eq.
    + intros k' v' Hin. apply (Hitems k'). right. exact Hin.
    + exists s'. rewrite <- Hrun in Hs'. split; [exact Hs'|].
      split_and!; [simpl in Hn; lia|exact He|exact Ht| |].
      * intros l' Hl' Hne. rewrite Hag'; [|simpl; lia|exact Hne]. apply Hag; assumption.
      * exists bd'. split; [exact Hbd'|].
        erewrite fold_left_ext_In; [exact Hr'|].
        intros acc [k' v'] Hin. simpl.
        destruct (Hitems k' v' (or_intror Hin)) as (l' & -> & Hl'). simpl.
        rewrite Hag; [reflexivity|lia|intros [= ?]; lia].
Qed.

(** Phase 2: [for k, v in override.items(): ...]. *)
Lemma merge_override_spec base items s bd cat :
  base < next_loc s -> heap s !! base = Some bd ->
  rep (heap s) (S base) (next_loc s) bd cat ->
  (forall k v, In (k, v) items -> exists l, v = VDict l /\ l < base) ->
  exists s', merge_override base items s = (inr tt, s') /\
    next_loc s <= next_loc s' /\ env s' = env s /\ trace s' = trace s /\
    agree_below (next_loc s) (Some base) (heap s) (heap s') /\
    exists bd', heap s' !! base = Some bd' /\
      rep (heap s') (S base) (next_loc s') bd'
        (fold_left (fun cat kv => merge_step cat (kv.1, dict_of (heap s) kv.2)) items cat).
Proof.
  revert s bd cat.
  induction items as [|[k v] items IH]; intros s bd cat Hb Hbd Hr Hitems; simpl.
  - exists s. split_and!; try reflexivity; try lia.
    + intros l _ _. reflexivity.
    + exists bd. auto.
  - destruct (Hitems k v (or_introl eq_refl)) as (l & -> & Hl).
    set (n := next_loc s).
    set (src := default [] (aget cat k)).
    set (u := default [] (heap s !! l)).
    set (s2 := {| heap := <[S n := dict_update src u]>
                            (<[base := aset bd k (VDict (S n))]>
                              (<[S n := src]> (<[n := []]> (heap s))));
                  next_loc := S (S n); env := env s; trace := trace s |}).
    assert (Hrun : merge_override base ((k, VDict l) :: items) s = merge_override base items s2).
    { simpl. unfold em_bind, load, alloc, store, as_dict, load. simpl.
      lk. rewrite Hbd. simpl.
      destruct (rep_aget _ _ _ _ _ k Hr) as [[Hbk Hck]|(c & d & Hbk & Hck & Hc & Hd)].
      - rewrite Hbk. simpl. lk. rewrite Hbd. simpl.
        unfold s2, src, u. rewrite Hck. reflexivity.
      - rewrite Hbk. simpl. lk. rewrite Hd, Hbd. simpl.
        unfold s2, src, u. rewrite Hck. reflexivity. }
    assert (Hag : agree_below n (Some base) (heap s) (heap s2)).
    { intros l' Hl' Hne. simpl. rewrite lookup_insert_ne by lia.
      rewrite lookup_insert_ne by congruence. rewrite !lookup_insert_ne by lia. reflexivity. }
    destruct (IH s2 (aset bd k (VDict (S n))) (merge_step cat (k, u)))
      as (s' & Hs' & Hn & He & Ht & Hag' & bd' & Hbd' & Hr').
    + simpl. lia.
    + simpl. rewrite lookup_insert_ne by lia. apply lookup_insert_eq.
    + apply rep_aset.
      * eapply rep_mono; [exact Hr|simpl; lia|].
        intros c Hc. simpl. rewrite !lookup_insert_ne by lia. reflexivity.
      * simpl. lia.
      * simpl. apply lookup_insert_eq.
    + intros k' v' Hin. apply (Hitems k'). right. exact Hin.
    + exists s'. rewrite <- Hrun in Hs'. split; [exact Hs'|].
      split_and!; [simpl in Hn; lia|exact He|exact Ht| |].
      * intros l' Hl' Hne. rewrite Hag'; [|simpl; lia|exact Hne]. apply Hag; assumption.
      * exists bd'. split; [exact Hbd'|].
        erewrite fold_left_ext_In; [exact Hr'|].
        intros acc [k' v'] Hin. simpl.
        destruct (Hitems k' v' (or_intror Hin)) as (l' & -> & Hl'). simpl.
        rewrite Hag; [reflexivity|lia|intros [= ?]; lia].
Qed.

(** ** Resolved descriptors *)

Lemma aset_app_notin {V} (d : list (string * V)) k v :
  ~ In k (map fst d) -> aset d k v = d ++ [(k, v)].
Proof.
  induction d as [|[k' v'] d IH]; simpl; intros Hn; [reflexivity|].
  destruct (String.eqb_spec k k') as [->|]; [tauto|].
  rewrite IH by tauto. reflexivity.
Qed.

Lemma In_resolved_fields h e k d em f x :
  In (f, VDict x) (resolved_fields h e k d em) ->
  In (f, VDict x) d \/ (x = em /\ k = "tinyfish" /\ tinyfish_key e <> None).
Proof.
  unfold resolved_fields.
  destruct (String.eqb_spec k "tavily") as [->|Hta].
  - destruct (tavily_key e); [|auto].
    destruct (url_str h (aget d "url")); [|auto].
    intros Hin. destruct (In_aset _ _ _ _ _ Hin) as [[_ ?]|?]; [discriminate|auto].
  - destruct (String.eqb_spec k "tinyfish") as [->|Htf]; [|auto].
    destruct (tinyfish_key e) as [key|] eqn:Hk; [|auto].
    intros Hin. destruct (In_aset _ _ _ _ _ Hin) as [[Hf Hv]|?]; [|auto].
    destruct (aget d "headers") as [v|] eqn:Hh; simpl in Hv; subst.
    + left. exact (aget_In _ _ _ Hh).
    + injection Hv as ->. right. split_and!; congruence.
Qed.

Lemma resolved_fields_em h e k d em em' :
  ~ (k = "tinyfish" /\ tinyfish_key e <> None) ->
  resolved_fields h e k d em = resolved_fields h e k d em'.
Proof.
  intros Hn. unfold resolved_fields.
  destruct (String.eqb_spec k "tavily"); [reflexivity|].
  destruct (String.eqb_spec k "tinyfish") as [->|]; [|reflexivity].
  destruct (tinyfish_key e); [|reflexivity]. exfalso. apply Hn. split; congruence.
Qed.

Lemma deref_fields_agree h h' d :
  (forall f x, In (f, VDict x) d -> h' !! x = h !! x) ->
  deref_fields h' d = deref_fields h d.
Proof.
  unfold deref_fields. intros Hd. apply map_ext_in. intros [f v] Hin. simpl.
  destruct v as [| |x]; simpl; [reflexivity|reflexivity|]. rewrite (Hd f x Hin). reflexivity.
Qed.

Lemma deref_fields_aset h d k v :
  deref_fields h (aset d k v) = aset (deref_fields h d) k (deref h v).
Proof.
  unfold deref_fields. induction d as [|[k' v'] d IH]; simpl; [reflexivity|].
  destruct (String.eqb k k'); simpl; [reflexivity|]. rewrite IH. reflexivity.
Qed.

Lemma url_str_agree h h' v :
  (forall l, v = Some (VDict l) -> h' !! l = h !! l) -> url_str h' v = url_str h v.
Proof.
  intros Hv. destruct v as [[| |l]|]; simpl; try reflexivity.
  rewrite (Hv l eq_refl). reflexivity.
Qed.

Lemma resolved_fields_agree h h' e k d em lo :
  fields_below lo d -> (forall l, l < lo -> h' !! l = h !! l) ->
  resolved_fields h' e k d em = resolved_fields h e k d em.
Proof.
  intros Hfb Hag. unfold resolved_fields.
  rewrite (url_str_agree h h'); [reflexivity|].
  intros l Hl. apply Hag. exact (fields_below_lt _ _ _ _ Hfb Hl).
Qed.

Lemma spec_desc_agree h h' e k d lo :
  fields_below lo d -> (forall l, l < lo -> h' !! l = h !! l) ->
  spec_desc h' e k d = spec_desc h e k d.
Proof.
  intros Hfb Hag. unfold spec_desc.
  assert (Hd : deref_fields h' d = deref_fields h d).
  { apply deref_fields_agree. intros f x Hin. apply Hag. exact (Hfb f x Hin). }
  destruct (if String.eqb k "tinyfish" then tinyfish_key e else None) as [key|] eqn:Htk.
  - rewrite Hd. reflexivity.
  - rewrite (resolved_fields_agree h h' e k d 0 lo Hfb Hag).
    apply deref_fields_agree. intros f x Hin.
    destruct (In_resolved_fields _ _ _ _ _ _ _ Hin) as [Hx|(_ & -> & Htf)].
    + apply Hag. exact (Hfb f x Hx).
    + exfalso. rewrite String.eqb_refl in Htk. contradiction.
Qed.

Lemma Forall2_impl_Forall {A B} (P : A -> Prop) (R R' : A -> B -> Prop) l1 l2 :
  Forall P l1 -> Forall2 R l1 l2 -> (forall x y, P x -> R x y -> R' x y) -> Forall2 R' l1 l2.
Proof.
  intros HP HR Himp. induction HR as [|x y l1 l2 Hxy HR IH]; constructor.
  - inversion HP; subst. auto.
  - inversion HP; subst. auto.
Qed.

Lemma mutated_below lo e k d x :
  fields_below lo d -> mutated e k d = Some x -> x < lo.
Proof.
  unfold mutated. intros Hfb.
  destruct (String.eqb k "tinyfish"); [|discriminate].
  destruct (tinyfish_key e); [|discriminate].
  destruct (aget d "headers") as [[| |x']|] eqn:Hh; try discriminate.
  intros [= <-]. exact (fields_below_lt _ _ _ _ Hfb Hh).
Qed.

(** Phase 3: [{k: _resolve_server_config(k, v) for k, v in base.items()}]. *)
Lemma resolve_all_spec env0 lo res items cat s s' rd acc :
  lo <= res < next_loc s -> env s = env0 ->
  heap s !! res = Some rd ->
  rep (heap s) (S res) (next_loc s) rd acc ->
  rep (heap s) lo res items cat ->
  Forall (fun kd => fields_below lo kd.2) cat ->
  NoDup (map fst acc ++ map fst cat) ->
  resolve_all res items s = (inr tt, s') ->
  exists rd' rcat,
    heap s' !! res = Some rd' /\
    rep (heap s') (S res) (next_loc s') rd' (acc ++ rcat) /\
    Forall2 (fun kd kod => kd.1 = kod.1 /\
               (exists h em, kod.2 = resolved_fields h env0 kd.1 kd.2 em) /\
               (forall f x, In (f, VDict x) kod.2 ->
                  In (f, VDict x) kd.2 \/ res < x < next_loc s'))
            cat rcat /\
    next_loc s <= next_loc s' /\ env s' = env0 /\
    trace s' = trace s ++ flat_map (fun kd => resolve_events env0 kd.1) cat /\
    (forall l, lo <= l < next_loc s -> l <> res -> heap s' !! l = heap s !! l) /\
    (forall l, l < lo -> (forall kd, In kd cat -> mutated env0 kd.1 kd.2 <> Some l) ->
       heap s' !! l = heap s !! l) /\
    (Forall (fun kd => mutated env0 kd.1 kd.2 = None) cat ->
       Forall2 (fun kd kod => deref_fields (heap s') kod.2 = spec_desc (heap s) env0 kd.1 kd.2)
               cat rcat).
Proof.
  revert s rd acc cat.
  induction items as [|[k v] items IH];
    intros s rd acc cat Hres Henv Hrd Hracc Hrep Hfb Hnd H.
  - inversion Hrep; subst. simpl in H. unfold em_ret in H. injection H as <-.
    exists rd, []. rewrite app_nil_r.
    split_and!; try done; try lia;
      try (simpl; rewrite app_nil_r; reflexivity); intros; constructor.
  - inversion Hrep as [|kv kd items' cat' [Hk (c & Hv & Hc & Hd)] Hrep' Heq1 Heq2]; subst.
    destruct kd as [k' d]. simpl in Hk, Hv, Hd. subst k' v.
    inversion Hfb as [|? ? Hfbd Hfb']; subst. simpl in Hfbd.
    simpl in H. apply em_bind_inv in H as (a & s1 & Hm & H).
    assert (Hfbn : fields_below (next_loc s) d) by (apply (fields_below_mono lo); [lia|exact Hfbd]).
    destruct (resolve_step k c d s a s1 Hd Hfbn Hm)
      as (-> & Hn1 & He1 & Ht1 & Hout & Hfo & Hag1 & Hfresh & Hhead).
    set (n := next_loc s) in *.
    set (od := resolved_fields (heap s) (env s) k d (S n)) in *.
    assert (Hag1' : forall l, l < n -> (mutated (env s) k d <> Some l) -> heap s1 !! l = heap s !! l)
      by (intros; apply Hag1; assumption).
    assert (Hmut : forall x, mutated (env s) k d = Some x -> x < lo)
      by (intros x Hx; exact (mutated_below _ _ _ _ _ Hfbd Hx)).
    assert (Hres1 : heap s1 !! res = Some rd).
    { rewrite Hag1' by (try lia; intros Hx; specialize (Hmut _ Hx); lia). exact Hrd. }
    peel H. rewrite Hres1 in H. simpl in H. peel H.
    simpl in *.
    set (s2 := {| heap := <[res:=aset rd k (VDict n)]> (heap s1); next_loc := next_loc s1;
                  env := env s1; trace := trace s1 |}) in *.
    assert (Hnd' : NoDup (map fst (acc ++ [(k, od)]) ++ map fst cat')).
    { rewrite map_app, <- app_assoc. exact Hnd. }
    assert (Hkn : ~ In k (map fst rd)).
    { rewrite (rep_keys _ _ _ _ _ Hracc). intros Hin.
      apply NoDup_app in Hnd as (_ & Hdis & _). apply (Hdis k); apply list_elem_of_In; [exact Hin|left; reflexivity]. }
    assert (Hag2 : forall l, l <> res -> heap s2 !! l = heap s1 !! l)
      by (intros l Hl; simpl; apply lookup_insert_ne; congruence).
    destruct (IH s2 (aset rd k (VDict n)) (acc ++ [(k, od)]) cat')
      as (rd' & rcat' & Hrd' & Hrep2 & HF & Hn2 & He2 & Ht2 & Hfr1 & Hfr2 & Hspec).
    + simpl. lia.
    + simpl. congruence.
    + simpl. apply lookup_insert_eq.
    + rewrite aset_app_notin by exact Hkn. apply Forall2_app.
      * eapply rep_mono; [exact Hracc|simpl; lia|].
        intros c' Hc'. rewrite Hag2 by lia. apply Hag1'; [lia|].
        intros Hx. specialize (Hmut _ Hx). lia.
      * constructor; [|constructor]. simpl. split; [reflexivity|].
        exists n. split_and!; [reflexivity|lia|simpl; lia|].
        rewrite Hag2 by lia. exact Hout.
    + eapply rep_mono; [exact Hrep'|lia|].
      intros c' Hc'. rewrite Hag2 by lia. apply Hag1'; [lia|].
      intros Hx. specialize (Hmut _ Hx). lia.
    + exact Hfb'.
    + exact Hnd'.
    + exact H.
    + exists rd', ((k, od) :: rcat').
      assert (Hfr : forall l, lo <= l < n -> l <> res -> heap s' !! l = heap s !! l).
      { intros l Hl Hne. rewrite Hfr1 by (simpl; lia). rewrite Hag2 by exact Hne.
        apply Hag1'; [lia|]. intros Hx. specialize (Hmut _ Hx). lia. }
      split_and!.
      * exact Hrd'.
      * rewrite <- app_assoc in Hrep2. exact Hrep2.
      * constructor; [|exact HF]. simpl. split_and!.
        -- reflexivity.
        -- exists (heap s), (S n). unfold od. reflexivity.
        -- intros f x Hin.
           destruct (In_resolved_fields _ _ _ _ _ _ _ Hin) as [Hx|(-> & _)]; [left; exact Hx|].
           right. split; [lia|]. pose proof (Hfo f (S n) Hin). simpl in Hn2. lia.
      * simpl in Hn2. lia.
      * exact He2.
      * rewrite Ht2. simpl. rewrite Ht1, <- app_assoc. reflexivity.
      * exact Hfr.
      * intros l Hl Hnm. rewrite Hfr2; [|exact Hl|intros kd Hkd; apply Hnm; right; exact Hkd].
        rewrite Hag2 by lia. apply Hag1'; [lia|]. apply (Hnm (k, d)). left. reflexivity.
      * intros Hnone. inversion Hnone as [|? ? Hm0 Hnone']; subst. simpl in Hm0.
        assert (Hlow1 : forall x, x < lo -> heap s2 !! x = heap s !! x).
        { intros x Hx. rewrite Hag2 by lia. apply Hag1'; [lia|]. rewrite Hm0. discriminate. }
        assert (Hlow : forall x, x < lo -> heap s' !! x = heap s !! x).
        { intros x Hx. rewrite Hfr2; [apply Hlow1; exact Hx|exact Hx|].
          intros kd Hkd. rewrite (proj1 (List.Forall_forall _ _) Hnone' kd Hkd). discriminate. }
        constructor.
        -- simpl. unfold od, spec_desc.
           destruct (String.eqb_spec k "tinyfish") as [->|Hnt].
           ++ simpl. destruct (tinyfish_key (env s)) as [key|] eqn:Hkey.
              ** destruct (Hhead eq_refl ltac:(congruence)) as [Hh|(x & Hh)].
                 2:{ unfold mutated in Hm0. simpl in Hm0. rewrite Hkey, Hh in Hm0. discriminate. }
                 unfold resolved_fields. simpl. rewrite Hkey, Hh. simpl.
                 rewrite deref_fields_aset. simpl.
                 assert (HSn : S n < next_loc s1).
                 { apply (Hfo "headers"). unfold od, resolved_fields. simpl. rewrite Hkey, Hh.
                   simpl. apply aget_In, aget_aset_same. }
                 assert (Hfs : heap s' !! S n = Some [("X-API-Key", VStr key)]).
                 { rewrite Hfr1 by (simpl; lia). rewrite Hag2 by lia.
                   destruct (Hfresh (S n) ltac:(lia) Hm0) as (key' & Hkey' & Hl).
                   injection Hkey' as <-. exact Hl. }
                 rewrite Hfs. f_equal. apply deref_fields_agree.
                 intros f x Hin. apply Hlow. exact (Hfbd f x Hin).
              ** rewrite (resolved_fields_em _ _ _ _ _ 0) by (intros [_ Hcf]; congruence).
                 apply deref_fields_agree. intros f x Hin.
                 destruct (In_resolved_fields _ _ _ _ _ _ _ Hin) as [Hx|(_ & _ & Hcf)];
                   [|congruence]. apply Hlow. exact (Hfbd f x Hx).
           ++ simpl.
              rewrite (resolved_fields_em _ _ _ _ _ 0) by (intros [Hcf _]; congruence).
              apply deref_fields_agree. intros f x Hin.
              destruct (In_resolved_fields _ _ _ _ _ _ _ Hin) as [Hx|(_ & Hcf & _)];
                [|congruence]. apply Hlow. exact (Hfbd f x Hx).
        -- apply (Forall2_impl_Forall (fun kd => fields_below lo kd.2) _ _ _ _ Hfb' (Hspec Hnone')).
           intros kd kod Hkd Heq. rewrite Heq. apply (spec_desc_agree _ _ _ _ _ lo Hkd).
           exact Hlow1.
Qed.


Lemma fold_left_map_comm {A B C} (f : A -> B -> A) (g : C -> B) l a :
  fold_left f (map g l) a = fold_left (fun acc x => f acc (g x)) l a.
Proof. revert a. induction l as [|x l IH]; intros a; simpl; [reflexivity|apply IH]. Qed.

Lemma Forall_aset {V} (P : string * V -> Prop) (d : list (string * V)) k v :
  Forall P d -> P (k, v) -> Forall P (aset d k v).
Proof.
  intros Hd Hkv. apply List.Forall_forall. intros [f w] Hin.
  destruct (In_aset _ _ _ _ _ Hin) as [[-> ->]|Hin']; [exact Hkv|].
  exact (proj1 (List.Forall_forall _ _) Hd _ Hin').
Qed.

Lemma NoDup_keys_aset {V} (d : list (string * V)) k v :
  NoDup (map fst d) -> NoDup (map fst (aset d k v)).
Proof.
  induction d as [|[k' v'] d IH]; simpl; intros Hnd.
  - constructor; [apply not_elem_of_nil|constructor].
  - inversion Hnd as [|? ? Hni Hnd']; subst.
    destruct (String.eqb_spec k k') as [->|Hne]; simpl.
    + constructor; assumption.
    + constructor; [|apply IH; exact Hnd'].
      rewrite list_elem_of_In, keys_aset. rewrite list_elem_of_In in Hni.
      intros [->|Hin]; [congruence|tauto].
Qed.

Lemma In_dict_update d u f v :
  In (f, v) (dict_update d u) -> In (f, v) d \/ In (f, v) u.
Proof.
  unfold dict_update. revert d. induction u as [|[k w] u IH]; simpl; intros d Hin; [auto|].
  destruct (IH _ Hin) as [H|H]; [|auto].
  destruct (In_aset _ _ _ _ _ H) as [[-> ->]|H']; auto.
Qed.

Lemma keys_dict_update d u f :
  In f (map fst (dict_update d u)) <-> In f (map fst d) \/ In f (map fst u).
Proof.
  unfold dict_update. revert d. induction u as [|[k w] u IH]; simpl; intros d; [tauto|].
  rewrite IH, keys_aset. intuition (subst; auto).
Qed.

Lemma module_heap_lt l d : module_heap !! l = Some d -> l < 5.
Proof.
  intros Hl. apply elem_of_list_to_map_2, list_elem_of_In in Hl. simpl in Hl.
  destruct Hl as [H|[H|[H|[H|[H|[]]]]]]; injection H as <- _; lia.
Qed.

Lemma default_catalog_fields n : Forall (fun kd => fields_below n kd.2) default_catalog.
Proof.
  unfold default_catalog, kiwi_entry, tinyfish_entry, web_fetch_entry, tavily_entry.
  repeat constructor; intros f l Hin; simpl in Hin; intuition discriminate.
Qed.

Lemma default_catalog_NoDup : NoDup (map fst default_catalog).
Proof. apply NoDup_ListNoDup. simpl. repeat constructor; simpl; intuition discriminate. Qed.

Lemma merged_fields_below s ov :
  override_ok s ov -> Forall (fun kd => fields_below (next_loc s) kd.2) (merged (heap s) ov).
Proof.
  intros Hov. unfold merged.
  assert (Hov' : Forall (fun kd => fields_below (next_loc s) kd.2) (ov_items (heap s) ov)).
  { destruct ov as [ol|]; [|constructor]. destruct Hov as (_ & od & Hod & Hvals).
    simpl. rewrite Hod. simpl.
    apply List.Forall_forall. intros [k d] Hin. apply in_map_iff in Hin as ([k' v] & Heq & Hin).
    simpl in Heq. injection Heq as <- <-.
    destruct (Hvals k' v Hin) as (l & d' & -> & _ & Hl & Hfb). simpl. rewrite Hl. exact Hfb. }
  pose proof (default_catalog_fields (next_loc s)) as Hdef. revert Hdef.
  generalize default_catalog.
  induction Hov' as [|ku l Hku Hl IH]; intros cat Hcat; simpl; [exact Hcat|].
  apply IH. unfold merge_step. apply Forall_aset; [exact Hcat|]. simpl.
  intros f x Hin. destruct (In_dict_update _ _ _ _ Hin) as [H|H]; [|exact (Hku f x H)].
  destruct (aget cat ku.1) eqn:Hg; simpl in H; [|contradiction].
  apply aget_In in Hg. exact (proj1 (List.Forall_forall _ _) Hcat _ Hg f x H).
Qed.

Lemma merged_NoDup h ov : NoDup (map fst (merged h ov)).
Proof.
  unfold merged. generalize (ov_items h ov). intros l.
  pose proof default_catalog_NoDup as H0. revert H0. generalize default_catalog.
  induction l as [|ku l IH]; intros cat Hc; simpl; [exact Hc|].
  apply IH. apply NoDup_keys_aset. exact Hc.
Qed.

Lemma merged_agree s h' ov :
  override_ok s ov -> (forall l, l < next_loc s -> h' !! l = heap s !! l) ->
  merged h' ov = merged (heap s) ov.
Proof.
  intros Hov Hag. unfold merged. f_equal. destruct ov as [ol|]; [|reflexivity].
  destruct Hov as (Hol & od & Hod & Hvals). simpl. rewrite Hag by exact Hol. rewrite Hod. simpl.
  apply map_ext_in. intros [k v] Hin. destruct (Hvals k v Hin) as (l & d & -> & Hl & _).
  simpl. rewrite Hag by exact Hl. reflexivity.
Qed.

Lemma override_ok_agree s s' ov :
  override_ok s ov -> next_loc s <= next_loc s' ->
  (forall l, l < next_loc s -> heap s' !! l = heap s !! l) -> override_ok s' ov.
Proof.
  destruct ov as [ol|]; [|auto]. intros (Hol & od & Hod & Hvals) Hn Hag.
  split; [lia|]. exists od. split; [rewrite Hag by lia; exact Hod|].
  intros k v Hin. destruct (Hvals k v Hin) as (l & d & -> & Hl & Hd & Hfb).
  exists l, d. split_and!; [reflexivity|lia|rewrite Hag by lia; exact Hd|].
  apply (fields_below_mono (next_loc s)); [lia|exact Hfb].
Qed.

Lemma default_loaded_agree s s' :
  default_loaded s -> next_loc s <= next_loc s' ->
  (forall l, l < next_loc s -> heap s' !! l = heap s !! l) -> default_loaded s'.
Proof.
  intros [Hm Hn] Hle Hag. split; [|lia]. intros l d Hl.
  pose proof (module_heap_lt _ _ Hl). rewrite Hag by lia. apply Hm. exact Hl.
Qed.

Lemma spec_view_agree s h' e ov :
  override_ok s ov -> (forall l, l < next_loc s -> h' !! l = heap s !! l) ->
  spec_view h' e ov = spec_view (heap s) e ov.
Proof.
  intros Hov Hag. unfold spec_view. rewrite (merged_agree s h' ov Hov Hag).
  apply fold_left_ext_In. intros acc kd Hin. f_equal. f_equal.
  apply (spec_desc_agree _ _ _ _ _ (next_loc s)); [|exact Hag].
  exact (proj1 (List.Forall_forall _ _) (merged_fields_below s ov Hov) kd Hin).
Qed.

Lemma fold_aset_map {V} (f : string * pydict -> V) (l : list (string * pydict))
    (acc : list (string * V)) :
  NoDup (map fst acc ++ map fst l) ->
  fold_left (fun acc kd => aset acc kd.1 (f kd)) l acc = acc ++ map (fun kd => (kd.1, f kd)) l.
Proof.
  revert acc. induction l as [|kd l IH]; intros acc Hnd; simpl; [rewrite app_nil_r; reflexivity|].
  assert (Hk : ~ In kd.1 (map fst acc)).
  { intros Hin. apply NoDup_app in Hnd as (_ & Hdis & _).
    apply (Hdis kd.1); apply list_elem_of_In; [exact Hin|left; reflexivity]. }
  rewrite (aset_app_notin _ _ _ Hk).
  rewrite IH by (rewrite map_app, <- app_assoc; exact Hnd).
  rewrite <- app_assoc. reflexivity.
Qed.

Lemma Forall2_conj {A B} (R1 R2 : A -> B -> Prop) l1 l2 :
  Forall2 R1 l1 l2 -> Forall2 R2 l1 l2 -> Forall2 (fun x y => R1 x y /\ R2 x y) l1 l2.
Proof. intros H1. induction H1; intros H2; inversion H2; subst; constructor; auto. Qed.

Lemma Forall2_In_both {A B C} (R1 : A -> B -> Prop) (R2 : C -> B -> Prop) l1 l2 l3 x :
  Forall2 R1 l1 l2 -> Forall2 R2 l3 l2 -> In x l1 ->
  exists y z, In y l2 /\ In z l3 /\ R1 x y /\ R2 z y.
Proof.
  intros H1. revert l3. induction H1 as [|a b l1 l2 Hab H1 IH]; intros l3 H2 Hin; [destruct Hin|].
  inversion H2 as [|c ? l3' ? Hcb H2']; subst. destruct Hin as [<-|Hin].
  - exists b, c. simpl. auto.
  - destruct (IH _ H2' Hin) as (y & z & ? & ? & ? & ?). exists y, z. simpl. auto.
Qed.

Lemma view_rep h r rd lo hi rcat cat (g : string * pydict -> list (string * fview)) :
  h !! r = Some rd -> rep h lo hi rd rcat ->
  Forall2 (fun kd kod => kd.1 = kod.1 /\ deref_fields h kod.2 = g kd) cat rcat ->
  view h r = Some (map (fun kd => (kd.1, Some (g kd))) cat).
Proof.
  intros Hr Hrep Hcat. unfold view. rewrite Hr. simpl. f_equal. clear Hr.
  revert cat Hcat.
  induction Hrep as [|kv kod rd rcat [Hk (c & Hv & _ & Hc)] Hrep IH]; intros cat Hcat;
    inversion Hcat as [|kd ? cat' ? [Hk' Hg] Hcat']; subst; simpl; [reflexivity|].
  f_equal; [|apply IH; exact Hcat'].
  rewrite Hv. simpl. rewrite Hc. simpl. rewrite Hk, Hk', Hg. reflexivity.
Qed.

Lemma reach_rep h r rd lo hi rcat cat :
  h !! r = Some rd -> rep h lo hi rd rcat ->
  Forall2 (fun (kd kod : string * pydict) =>
            forall f x, In (f, VDict x) kod.2 -> In (f, VDict x) kd.2 \/ lo <= x < hi)
    cat rcat ->
  forall l, In l (reach h r) ->
    l = r \/ lo <= l < hi \/ exists kd f, In kd cat /\ In (f, VDict l) kd.2.
Proof.
  intros Hr Hrep Hcat l. unfold reach. rewrite Hr. simpl. intros [<-|Hin]; [left; reflexivity|right].
  apply in_flat_map in Hin as (kv & Hkv & Hl).
  destruct (Forall2_In_both _ _ _ _ _ _ Hrep Hcat Hkv)
    as (kod & kd & Hkod & Hkd & [_ (c & Hv & Hc & Hcd)] & Hfx).
  rewrite Hv in Hl. simpl in Hl. destruct Hl as [<-|Hl]; [left; lia|].
  rewrite Hcd in Hl. simpl in Hl. apply in_flat_map in Hl as ([f v] & Hfv & Hl).
  simpl in Hl. destruct v as [| |x]; simpl in Hl; try contradiction.
  destruct Hl as [<-|[]]. destruct (Hfx f x Hfv) as [H|H]; [right; exists kd, f; auto|left; exact H].
Qed.

Lemma view_agree h h' r :
  (forall l, In l (reach h r) -> h' !! l = h !! l) ->
  view h' r = view h r /\ reach h' r = reach h r.
Proof.
  intros Hag. assert (Hr : h' !! r = h !! r) by (apply Hag; left; reflexivity).
  assert (Hin : forall rd kv c, h !! r = Some rd -> In kv rd -> kv.2 = VDict c ->
            h' !! c = h !! c /\
            forall f x, In (f, VDict x) (default [] (h !! c)) -> h' !! x = h !! x).
  { intros rd kv c Hrd Hkv Hc. split.
    - apply Hag. unfold reach. rewrite Hrd. right. apply in_flat_map.
      exists kv. split; [exact Hkv|]. rewrite Hc. left. reflexivity.
    - intros f x Hx. apply Hag. unfold reach. rewrite Hrd. right. apply in_flat_map.
      exists kv. split; [exact Hkv|]. rewrite Hc. right. apply in_flat_map.
      exists (f, VDict x). split; [exact Hx|]. left. reflexivity. }
  unfold view, reach. rewrite Hr. destruct (h !! r) as [rd|] eqn:Hrd; simpl; [|split; reflexivity].
  split.
  - f_equal. apply map_ext_in. intros [k v] Hkv. f_equal. destruct v as [| |c]; simpl; try reflexivity.
    destruct (Hin rd _ c eq_refl Hkv eq_refl) as [Hc Hf]. rewrite Hc.
    destruct (h !! c) as [d|] eqn:Hcd; simpl; [|reflexivity]. f_equal.
    apply deref_fields_agree. intros f x Hx. apply (Hf f x). exact Hx.
  - f_equal. rewrite !flat_map_concat_map. f_equal. apply map_ext_in.
    intros [k v] Hkv. destruct v as [| |c]; simpl; try reflexivity.
    destruct (Hin rd _ c eq_refl Hkv eq_refl) as [Hc _]. rewrite Hc. reflexivity.
Qed.

Lemma phase2_spec s ov sb bdb :
  override_ok s ov -> next_loc s < next_loc sb ->
  (forall l, l < next_loc s -> heap sb !! l = heap s !! l) ->
  heap sb !! next_loc s = Some bdb ->
  rep (heap sb) (S (next_loc s)) (next_loc sb) bdb default_catalog ->
  exists sc bdc,
    (match ov with
     | None => em_ret tt
     | Some ol =>
         let! od := load ol in
         match od with
         | [] => em_ret tt
         | _ => merge_override (next_loc s) od
         end
     end) sb = (inr tt, sc) /\
    next_loc sb <= next_loc sc /\ env sc = env sb /\ trace sc = trace sb /\
    agree_below (next_loc sb) (Some (next_loc s)) (heap sb) (heap sc) /\
    heap sc !! next_loc s = Some bdc /\
    rep (heap sc) (S (next_loc s)) (next_loc sc) bdc (merged (heap s) ov).
Proof.
  intros Hov Hlt Hsb Hbdb Hrepb.
  destruct ov as [ol|].
  - destruct Hov as (Hol & od & Hod & Hvals).
    assert (Hodb : heap sb !! ol = Some od) by (rewrite Hsb by exact Hol; exact Hod).
    destruct od as [|kv od'].
    + exists sb, bdb. split_and!; try reflexivity; try lia.
      * unfold em_bind, load. rewrite Hodb. reflexivity.
      * intros l _ _. reflexivity.
      * exact Hbdb.
      * unfold merged, ov_items. rewrite Hod. exact Hrepb.
    + destruct (merge_override_spec (next_loc s) (kv :: od') sb bdb default_catalog)
        as (sc & Hrun & Hn & He & Ht & Hag & bdc & Hbdc & Hrepc).
      * exact Hlt.
      * exact Hbdb.
      * exact Hrepb.
      * intros k v Hin. destruct (Hvals k v Hin) as (l & d & -> & Hl & _).
        exists l. split; [reflexivity|exact Hl].
      * exists sc, bdc. split_and!; try assumption.
        -- unfold em_bind at 1, load. rewrite Hodb. exact Hrun.
        -- assert (Hmg : merged (heap s) (Some ol) =
                   fold_left (fun cat kv => merge_step cat (kv.1, dict_of (heap sb) kv.2))
                     (kv :: od') default_catalog).
           { unfold merged, ov_items. rewrite Hod. simpl default. rewrite fold_left_map_comm.
             apply fold_left_ext_In. intros acc [k v] Hin.
             destruct (Hvals k v Hin) as (l & d & -> & Hl & _). simpl.
             rewrite Hsb by exact Hl. reflexivity. }
           rewrite Hmg. exact Hrepc.
  - exists sb, bdb. split_and!; try reflexivity; try lia.
    + intros l _ _. reflexivity.
    + exact Hbdb.
    + exact Hrepb.
Qed.

Lemma get_config_spec s ov r s' :
  default_loaded s -> override_ok s ov ->
  get_mcp_servers_config ov s = (inr r, s') ->
  next_loc s <= r < next_loc s' /\ env s' = env s /\
  trace s' = trace s ++ flat_map (fun kd => resolve_events (env s) kd.1) (merged (heap s) ov) /\
  (exists rd rcat, heap s' !! r = Some rd /\ rep (heap s') (S r) (next_loc s') rd rcat /\
     Forall2 (fun (kd kod : string * pydict) => kd.1 = kod.1 /\
                (exists h em, kod.2 = resolved_fields h (env s) kd.1 kd.2 em))
             (merged (heap s) ov) rcat) /\
  (forall l, In l (reach (heap s') r) ->
     next_loc s <= l < next_loc s' \/
     exists kd f, In kd (merged (heap s) ov) /\ In (f, VDict l) kd.2) /\
  (Forall (fun kd => mutated (env s) kd.1 kd.2 = None) (merged (heap s) ov) ->
     (forall l, l < next_loc s -> heap s' !! l = heap s !! l) /\
     view (heap s') r = Some (spec_view (heap s) (env s) ov)).
Proof.
  intros [Hml Hn5] Hov H.
  unfold get_mcp_servers_config in H.
  apply em_bind_inv in H as (base & sa & Hm & H). unfold alloc in Hm. injection Hm as <- <-.
  apply em_bind_inv in H as (defs & sa' & Hm & H). unfold load in Hm. injection Hm as <- <-.
  cbv beta in H. simpl heap in H.
  assert (Hdef : heap s !! DEFAULT_MCP_SERVERS = Some DEFAULT_MCP_SERVERS_dict)
    by (apply Hml; reflexivity).
  rewrite lookup_insert_ne in H by (unfold DEFAULT_MCP_SERVERS; lia).
  rewrite Hdef in H. simpl default in H.
  destruct (copy_entries_spec (next_loc s) DEFAULT_MCP_SERVERS_dict
              {| heap := <[next_loc s := []]> (heap s); next_loc := S (next_loc s);
                 env := env s; trace := trace s |} [] [])
    as (sb & Hcp & Hnb & Heb & Htb & Hagb & bdb & Hbdb & Hrepb).
  { simpl. lia. }
  { simpl. apply lookup_insert_eq. }
  { constructor. }
  { intros k v Hin. simpl in Hin.
    destruct Hin as [E|[E|[E|[E|[]]]]]; injection E as <- <-; eexists; split; try reflexivity; lia. }
  simpl next_loc in Hnb, Hagb. simpl env in Heb. simpl trace in Htb.
  apply em_bind_inv in H as (u & sb' & Hm & H). rewrite Hcp in Hm. injection Hm as <- <-.
  assert (Hfold : fold_left (fun cat kv => aset cat kv.1
                    (dict_of (<[next_loc s := []]> (heap s)) kv.2)) DEFAULT_MCP_SERVERS_dict []
                  = default_catalog).
  { simpl. rewrite !lookup_insert_ne by lia.
    rewrite (Hml 1 kiwi_entry), (Hml 2 tinyfish_entry), (Hml 3 web_fetch_entry),
      (Hml 4 tavily_entry) by reflexivity.
    reflexivity. }
  simpl heap in Hrepb. rewrite Hfold in Hrepb.
  assert (Hsb : forall l, l < next_loc s -> heap sb !! l = heap s !! l).
  { intros l Hl. rewrite Hagb by (try lia; intros [= ?]; lia). simpl. apply lookup_insert_ne. lia. }
  destruct (phase2_spec s ov sb bdb Hov ltac:(lia) Hsb Hbdb Hrepb)
    as (sc & bdc & Hp2 & Hnc & Hec & Htc & Hagc & Hbdc & Hrepc).
  apply em_bind_inv in H as (u & sc' & Hm & H). rewrite Hp2 in Hm. injection Hm as <- <-.
  apply em_bind_inv in H as (bdc' & sc' & Hm & H). unfold load in Hm. rewrite Hbdc in Hm.
  simpl in Hm. injection Hm as <- <-.
  apply em_bind_inv in H as (res & sd & Hm & H). unfold alloc in Hm. injection Hm as <- <-.
  apply em_bind_inv in H as (u & sf & Hm & H). cbv beta in H. unfold em_ret in H.
  injection H as <- <-.
  set (sd := {| heap := <[next_loc sc := []]> (heap sc); next_loc := S (next_loc sc);
                env := env sc; trace := trace sc |}) in *.
  assert (Hsc : forall l, l < next_loc s -> heap sc !! l = heap s !! l).
  { intros l Hl. rewrite Hagc by (try lia; intros [= ?]; lia). apply Hsb. exact Hl. }
  assert (Hsd : forall l, l < next_loc s -> heap sd !! l = heap s !! l).
  { intros l Hl. simpl. rewrite lookup_insert_ne by lia. apply Hsc. exact Hl. }
  pose proof (merged_fields_below s ov Hov) as Hmfb.
  destruct u.
  destruct (resolve_all_spec (env s) (S (next_loc s)) (next_loc sc) bdc (merged (heap s) ov)
              sd sf [] [])
    as (rd' & rcat & Hrd' & Hrep' & HF & Hn' & He' & Ht' & Hfr1 & Hfr2 & Hspec).
  { simpl. lia. }
  { simpl. congruence. }
  { simpl. apply lookup_insert_eq. }
  { constructor. }
  { eapply rep_mono; [exact Hrepc|lia|]. intros c Hc. simpl. apply lookup_insert_ne. lia. }
  { eapply Forall_impl; [exact Hmfb|]. intros kd Hkd. apply (fields_below_mono (next_loc s)); [lia|exact Hkd]. }
  { simpl. apply merged_NoDup. }
  { exact Hm. }
  simpl next_loc in Hn'. simpl in Hrep'.
  split_and!.
  - lia.
  - lia.
  - exact He'.
  - rewrite Ht'. simpl. rewrite Htc, Htb. reflexivity.
  - exists rd', rcat. split_and!; [exact Hrd'|exact Hrep'|].
    eapply Forall2_impl; [exact HF|]. intros kd kod (Hk & Hr & _). split; assumption.
  - intros l Hl.
    destruct (reach_rep _ _ _ _ _ _ _ Hrd' Hrep'
                (Forall2_impl _ _ _ _ HF (fun kd kod H => match H with
                   | conj _ (conj _ Hx) => fun f x Hin =>
                       match Hx f x Hin with
                       | or_introl H1 => or_introl H1
                       | or_intror H2 => or_intror (conj (proj1 H2) (proj2 H2))
                       end
                   end)) l Hl)
      as [->|[Hl'|Hl']].
    + left. lia.
    + left. lia.
    + right. exact Hl'.
  - intros Hnm. split.
    + intros l Hl. rewrite Hfr2.
      * apply Hsd. exact Hl.
      * lia.
      * intros kd Hkd. rewrite (proj1 (List.Forall_forall _ _) Hnm kd Hkd). discriminate.
    + rewrite (view_rep _ _ _ _ _ _ (merged (heap s) ov)
                 (fun kd => spec_desc (heap s) (env s) kd.1 kd.2) Hrd' Hrep').
      * f_equal. unfold spec_view. rewrite fold_aset_map; [reflexivity|]. simpl. apply merged_NoDup.
      * apply (Forall2_impl_Forall (fun kd => fields_below (next_loc s) kd.2) _ _ _ _ Hmfb
                 (Forall2_conj _ _ _ _ HF (Hspec Hnm))).
        intros kd kod Hfb [[Hk _] Hd]. split; [exact Hk|]. rewrite Hd.
        apply (spec_desc_agree _ _ _ _ _ (next_loc s) Hfb). exact Hsd.
Qed.

Lemma resolve_plain k raw s :
  (k = "tavily" -> tavily_key (env s) = None) ->
  (k = "tinyfish" -> tinyfish_key (env s) = None) ->
  _resolve_server_config k raw s =
    (inr (next_loc s),
     {| heap := <[next_loc s := default [] (heap s !! raw)]> (heap s);
        next_loc := S (next_loc s); env := env s;
        trace := trace s ++ resolve_events (env s) k |}).
Proof.
  intros Hta Htf. unfold _resolve_server_config, resolve_events, tavily_key, tinyfish_key in *.
  destruct (String.eqb_spec k "tavily") as [->|Hne1].
  - specialize (Hta eq_refl).
    unfold em_bind, load, alloc, environ_get, emit, em_ret. simpl. rewrite Hta.
    cbn [heap next_loc env trace]. rewrite <- app_assoc. reflexivity.
  - destruct (String.eqb_spec k "tinyfish") as [->|Hne2].
    + specialize (Htf eq_refl).
      unfold em_bind, load, alloc, environ_get, emit, em_ret. simpl. rewrite Htf.
      cbn [heap next_loc env trace]. rewrite <- app_assoc. reflexivity.
    + unfold em_bind, load, alloc, em_ret. simpl. rewrite app_nil_r. reflexivity.
Qed.

Lemma resolve_all_total res items s :
  tavily_key (env s) = None -> tinyfish_key (env s) = None ->
  (forall k v, In (k, v) items -> exists l, v = VDict l) ->
  exists s', resolve_all res items s = (inr tt, s').
Proof.
  revert s. induction items as [|[k v] items IH]; intros s Hta Htf Hit; cbn [resolve_all].
  - eexists. reflexivity.
  - destruct (Hit k v (or_introl eq_refl)) as (l & ->).
    erewrite em_bind_inr by exact (resolve_plain k l s (fun _ => Hta) (fun _ => Htf)).
    cbv beta. erewrite em_bind_inr by (unfold load; reflexivity).
    cbv beta. erewrite em_bind_inr by (unfold store; reflexivity).
    apply IH; [exact Hta|exact Htf|]. intros k' v' Hin. apply (Hit k'). right. exact Hin.
Qed.

Lemma rep_vals h lo hi bd cat k v :
  rep h lo hi bd cat -> In (k, v) bd -> exists l, v = VDict l.
Proof.
  intros Hr Hin. induction Hr as [|kv kd bd cat [_ (c & Hv & _)] Hr IH]; [destruct Hin|].
  destruct Hin as [Heq|Hin]; [subst kv; exists c; exact Hv|exact (IH Hin)].
Qed.

Lemma get_config_total s ov :
  default_loaded s -> override_ok s ov ->
  tavily_key (env s) = None -> tinyfish_key (env s) = None ->
  exists r s', get_mcp_servers_config ov s = (inr r, s').
Proof.
  intros [Hml Hn5] Hov Hta Htf. unfold get_mcp_servers_config.
  erewrite em_bind_inr by (unfold alloc; reflexivity). cbv beta.
  erewrite em_bind_inr by (unfold load; reflexivity). cbv beta. simpl heap.
  assert (Hdef : heap s !! DEFAULT_MCP_SERVERS = Some DEFAULT_MCP_SERVERS_dict)
    by (apply Hml; reflexivity).
  rewrite lookup_insert_ne by (unfold DEFAULT_MCP_SERVERS; lia).
  rewrite Hdef. simpl default.
  destruct (copy_entries_spec (next_loc s) DEFAULT_MCP_SERVERS_dict
              {| heap := <[next_loc s := []]> (heap s); next_loc := S (next_loc s);
                 env := env s; trace := trace s |} [] [])
    as (sb & Hcp & Hnb & Heb & Htb & Hagb & bdb & Hbdb & Hrepb).
  { simpl. lia. }
  { simpl. apply lookup_insert_eq. }
  { constructor. }
  { intros k v Hin. simpl in Hin.
    destruct Hin as [E|[E|[E|[E|[]]]]]; injection E as <- <-; eexists; split; try reflexivity; lia. }
  simpl next_loc in Hnb, Hagb. simpl env in Heb.
  erewrite em_bind_inr by exact Hcp. cbv beta.
  assert (Hfold : fold_left (fun cat kv => aset cat kv.1
                    (dict_of (<[next_loc s := []]> (heap s)) kv.2)) DEFAULT_MCP_SERVERS_dict []
                  = default_catalog).
  { simpl. rewrite !lookup_insert_ne by lia.
    rewrite (Hml 1 kiwi_entry), (Hml 2 tinyfish_entry), (Hml 3 web_fetch_entry),
      (Hml 4 tavily_entry) by reflexivity.
    reflexivity. }
  simpl heap in Hrepb. rewrite Hfold in Hrepb.
  assert (Hsb : forall l, l < next_loc s -> heap sb !! l = heap s !! l).
  { intros l Hl. rewrite Hagb by (try lia; intros [= ?]; lia). simpl. apply lookup_insert_ne. lia. }
  destruct (phase2_spec s ov sb bdb Hov ltac:(lia) Hsb Hbdb Hrepb)
    as (sc & bdc & Hp2 & Hnc & Hec & Htc & Hagc & Hbdc & Hrepc).
  erewrite em_bind_inr by exact Hp2. cbv beta.
  erewrite em_bind_inr by (unfold load; reflexivity). cbv beta. rewrite Hbdc. simpl default.
  erewrite em_bind_inr by (unfold alloc; reflexivity). cbv beta.
  destruct (resolve_all_total (next_loc sc) bdc
              {| heap := <[next_loc sc := []]> (heap sc); next_loc := S (next_loc sc);
                 env := env sc; trace := trace sc |}) as (sf & Hres).
  { simpl. rewrite Hec, Heb. exact Hta. }
  { simpl. rewrite Hec, Heb. exact Htf. }
  { intros k v Hin. exact (rep_vals _ _ _ _ _ _ _ Hrepc Hin). }
  erewrite em_bind_inr by exact Hres. cbv beta. unfold em_ret. eexists _, _. reflexivity.
Qed.

Lemma merged_keys_default h ov k :
  In k (map fst default_catalog) -> In k (map fst (merged h ov)).
Proof.
  unfold merged. generalize (ov_items h ov). intros l. generalize default_catalog as cat.
  induction l as [|ku l IH]; intros cat Hk; simpl; [exact Hk|].
  apply IH. unfold merge_step. apply keys_aset. right. exact Hk.
Qed.

Lemma aget_NoDup_In {V} (d : list (string * V)) k v :
  NoDup (map fst d) -> In (k, v) d -> aget d k = Some v.
Proof.
  induction d as [|[k' v'] d IH]; simpl; intros Hnd Hin; [destruct Hin|].
  inversion Hnd as [|? ? Hni Hnd']; subst.
  destruct Hin as [E|Hin].
  - injection E as -> ->. rewrite String.eqb_refl. reflexivity.
  - destruct (String.eqb_spec k k') as [->|_]; [|exact (IH Hnd' Hin)].
    exfalso. apply Hni. apply list_elem_of_In, in_map_iff. exists (k', v). auto.
Qed.

Lemma aget_aset {V} (d : list (string * V)) k1 v k :
  aget (aset d k1 v) k = if String.eqb k k1 then Some v else aget d k.
Proof.
  induction d as [|[k' v'] d IH]; simpl; [reflexivity|].
  destruct (String.eqb_spec k1 k') as [<-|Hne]; simpl.
  - destruct (String.eqb k k1); reflexivity.
  - rewrite IH. destruct (String.eqb_spec k k') as [->|_]; [|reflexivity].
    rewrite (proj2 (String.eqb_neq k' k1)) by congruence. reflexivity.
Qed.

Lemma aget_keys {V} (d : list (string * V)) k v : aget d k = Some v -> In k (map fst d).
Proof. intros H. apply in_map_iff. exists (k, v). split; [reflexivity|]. exact (aget_In _ _ _ H). Qed.

Lemma fold_merge_keys f l cat k d :
  NoDup (map fst cat) -> In (k, d) (fold_left merge_step l cat) ->
  (In f (map fst d) <->
     (exists d0, aget cat k = Some d0 /\ In f (map fst d0)) \/
     exists u, In (k, u) l /\ In f (map fst u)).
Proof.
  revert cat. induction l as [|[k1 u1] l IH]; intros cat Hnd Hin; simpl in Hin.
  - rewrite (aget_NoDup_In _ _ _ Hnd Hin). split.
    + intros H. left. exists d. auto.
    + intros [(d0 & E & H)|(u & [] & _)]. injection E as <-. exact H.
  - rewrite (IH _ (NoDup_keys_aset _ _ _ Hnd) Hin). unfold merge_step. simpl.
    rewrite aget_aset. destruct (String.eqb_spec k k1) as [->|Hne].
    + split.
      * intros [(d0 & E & H)|(u & Hu & H)].
        -- injection E as <-. apply keys_dict_update in H as [H|H].
           ++ destruct (aget cat k1) as [d0|] eqn:E; [|destruct H].
              left. exists d0. auto.
           ++ right. exists u1. simpl. auto.
        -- right. exists u. simpl. auto.
      * intros [(d0 & E & H)|(u & [E|Hu] & H)].
        -- left. eexists. split; [reflexivity|]. apply keys_dict_update. left. rewrite E. exact H.
        -- injection E as <-. left. eexists. split; [reflexivity|]. apply keys_dict_update. right. exact H.
        -- right. exists u. auto.
    + split.
      * intros [H|(u & Hu & H)]; [left; exact H|right; exists u; simpl; auto].
      * intros [H|(u & [E|Hu] & H)]; [left; exact H| |right; exists u; auto].
        injection E as <- _. congruence.
Qed.

Lemma merged_transport h ov kd :
  In kd (merged h ov) ->
  (In "transport" (map fst kd.2) <->
     In kd.1 (map fst DEFAULT_MCP_SERVERS_dict) \/
     exists u, In (kd.1, u) (ov_items h ov) /\ In "transport" (map fst u)).
Proof.
  destruct kd as [k d]. intros Hin. unfold merged in Hin. simpl.
  rewrite (fold_merge_keys _ _ _ _ _ default_catalog_NoDup Hin).
  assert (Hdef : (exists d0, aget default_catalog k = Some d0 /\ In "transport" (map fst d0)) <->
                 In k (map fst DEFAULT_MCP_SERVERS_dict)).
  { split.
    - intros (d0 & E & _). exact (aget_keys _ _ _ E).
    - simpl. intros [<-|[<-|[<-|[<-|[]]]]]; eexists; (split; [reflexivity|simpl; auto]). }
  rewrite Hdef. reflexivity.
Qed.

Lemma resolved_fields_keys h e k d em f :
  f <> "url" -> f <> "headers" ->
  In f (map fst (resolved_fields h e k d em)) <-> In f (map fst d).
Proof.
  intros Hu Hh. unfold resolved_fields.
  destruct (String.eqb k "tavily");
    [destruct (tavily_key e); [destruct (url_str h (aget d "url"))|]
    |destruct (String.eqb k "tinyfish"); [destruct (tinyfish_key e)|]];
    try reflexivity; rewrite keys_aset; intuition congruence.
Qed.

Lemma Forall2_keys (cat rcat : list (string * pydict)) (P : string * pydict -> string * pydict -> Prop) :
  Forall2 (fun kd kod => kd.1 = kod.1 /\ P kd kod) cat rcat -> map fst cat = map fst rcat.
Proof. intros H. induction H as [|? ? ? ? [Hk _] _ IH]; simpl; congruence. Qed.

Lemma aget_In_some {V} (d : list (string * V)) k v :
  In (k, v) d -> exists v', aget d k = Some v'.
Proof.
  induction d as [|[k' v'] d IH]; simpl; [done|].
  destruct (String.eqb_spec k k') as [->|Hne]; [eauto|].
  intros [E|Hin]; [injection E as -> _; congruence|exact (IH Hin)].
Qed.

Lemma aset_aget_self {V} (d : list (string * V)) k v : aget d k = Some v -> aset d k v = d.
Proof.
  induction d as [|[k' v'] d IH]; simpl; [discriminate|].
  destruct (String.eqb k k'); [intros [= ->]; reflexivity|].
  intros H. rewrite (IH H). reflexivity.
Qed.

Lemma In_aset_ne {V} (d : list (string * V)) k w f v :
  In (f, v) d -> f <> k -> In (f, v) (aset d k w).
Proof.
  induction d as [|[k' v'] d IH]; simpl; [done|].
  destruct (String.eqb_spec k k') as [->|Hne]; intros [E|Hin] Hf.
  - injection E as -> _. congruence.
  - right. exact Hin.
  - left. exact E.
  - right. exact (IH Hin Hf).
Qed.

(** A dict held in a field of a descriptor stays in its copy, except a
    ["url"] of ["tavily"], which may be replaced by a string. *)
Lemma In_resolved_fields_keep h e k d em f x :
  In (f, VDict x) d -> k <> "tavily" \/ f <> "url" ->
  In (f, VDict x) (resolved_fields h e k d em).
Proof.
  intros Hin Hc. unfold resolved_fields.
  destruct (String.eqb_spec k "tavily") as [->|Hta].
  - destruct Hc as [Hc|Hc]; [congruence|].
    destruct (tavily_key e); [|exact Hin].
    destruct (url_str h (aget d "url")); [|exact Hin].
    apply In_aset_ne; assumption.
  - destruct (String.eqb_spec k "tinyfish"); [|exact Hin].
    destruct (tinyfish_key e); [|exact Hin].
    destruct (String.eqb_spec f "headers") as [->|Hf].
    + destruct (aget_In_some _ _ _ Hin) as (v0 & Hv0). rewrite Hv0. simpl.
      rewrite (aset_aget_self _ _ _ Hv0). exact Hin.
    + apply In_aset_ne; assumption.
Qed.

Lemma Forall2_In_l {A B} (R : A -> B -> Prop) l1 l2 x :
  Forall2 R l1 l2 -> In x l1 -> exists y, In y l2 /\ R x y.
Proof.
  induction 1 as [|a b l1 l2 Hab _ IH]; simpl; [done|].
  intros [<-|Hin]; [exists b; auto|].
  destruct (IH Hin) as (y & Hy & Hr). exists y. auto.
Qed.

Lemma Forall2_In_r {A B} (R : A -> B -> Prop) l1 l2 y :
  Forall2 R l1 l2 -> In y l2 -> exists x, In x l1 /\ R x y.
Proof.
  induction 1 as [|a b l1 l2 Hab _ IH]; simpl; [done|].
  intros [<-|Hin]; [exists a; auto|].
  destruct (IH Hin) as (x & Hx & Hr). exists x. auto.
Qed.

Lemma view_field_In h r rd k c d f x :
  h !! r = Some rd -> In (k, VDict c) rd -> h !! c = Some d -> In (f, VDict x) d ->
  exists vs fs, view h r = Some vs /\ In (k, Some fs) vs /\ In (f, FDict (h !! x)) fs.
Proof.
  intros Hr Hk Hc Hf. exists (map (fun kv => (kv.1, view_entry h kv.2)) rd), (deref_fields h d).
  unfold view. rewrite Hr. split; [reflexivity|]. split.
  - apply in_map_iff. exists (k, VDict c). simpl. rewrite Hc. auto.
  - apply in_map_iff. exists (f, VDict x). auto.
Qed.

(** One call: the result is a dict whose values are dicts allocated by the
    call after it, and a dict held in a field of a merged descriptor is held
    by the copy of that descriptor (except a ["tavily"] ["url"]). *)
Lemma get_config_result_dicts s ov r s' :
  default_loaded s -> override_ok s ov ->
  get_mcp_servers_config ov s = (inr r, s') ->
  exists rd, heap s' !! r = Some rd /\
    (forall k v, In (k, v) rd -> exists c, v = VDict c /\ r < c < next_loc s') /\
    (forall kd f x, In kd (merged (heap s) ov) -> In (f, VDict x) kd.2 ->
       kd.1 <> "tavily" \/ f <> "url" ->
       exists c d, aget rd kd.1 = Some (VDict c) /\ r < c < next_loc s' /\
         heap s' !! c = Some d /\ In (f, VDict x) d).
Proof.
  intros Hdl Hov H.
  destruct (get_config_spec s ov r s' Hdl Hov H) as (_ & _ & _ & (rd & rcat & Hrd & Hrep & HF2) & _).
  exists rd. split; [exact Hrd|]. split.
  - intros k v Hin. destruct (Forall2_In_l _ _ _ _ Hrep Hin) as (kod & _ & _ & (c & Hv & Hc & _)).
    exists c. split; [exact Hv|simpl in Hc; lia].
  - intros kd f x Hkd Hfx Hcond.
    destruct (Forall2_In_l _ _ _ _ HF2 Hkd) as (kod & Hkod & Hk & (h & em & Hd)).
    destruct (Forall2_In_r _ _ _ _ Hrep Hkod) as ([k0 v0] & Hkv & Hk' & (c & Hv & Hc & Hcd)).
    simpl in Hk', Hv. subst k0 v0.
    exists c, kod.2. split_and!.
    + apply aget_NoDup_In.
      * rewrite (rep_keys _ _ _ _ _ Hrep), <- (Forall2_keys _ _ _ HF2). apply merged_NoDup.
      * rewrite Hk. exact Hkv.
    + lia.
    + lia.
    + exact Hcd.
    + rewrite Hd. apply In_resolved_fields_keep; assumption.
Qed.

(** ** Results *)

(** C6: when [TAVILY_API_KEY] (resp. [TINYFISH_API_KEY]) is absent or empty,
    [_resolve_server_config] on ["tavily"] (resp. ["tinyfish"]) does not raise:
    it returns a fresh copy of the descriptor, unchanged, after reading the
    variable and logging a warning. When both are absent,
    [get_mcp_servers_config] succeeds on any override of dicts, every
    descriptor of the result is the merged descriptor unchanged, and both
    warnings are logged. *)
Theorem missing_credential_degrades s ov :
  (tavily_key (env s) = None -> forall raw d, heap s !! raw = Some d ->
     _resolve_server_config "tavily" raw s =
       (inr (next_loc s),
        {| heap := <[next_loc s := d]> (heap s); next_loc := S (next_loc s); env := env s;
           trace := trace s ++ [EnvGet "TAVILY_API_KEY"; LogWarning TAVILY_WARNING] |})) /\
  (tinyfish_key (env s) = None -> forall raw d, heap s !! raw = Some d ->
     _resolve_server_config "tinyfish" raw s =
       (inr (next_loc s),
        {| heap := <[next_loc s := d]> (heap s); next_loc := S (next_loc s); env := env s;
           trace := trace s ++ [EnvGet "TINYFISH_API_KEY"; LogWarning TINYFISH_WARNING] |})) /\
  (default_loaded s -> override_ok s ov ->
   tavily_key (env s) = None -> tinyfish_key (env s) = None ->
   exists r s', get_mcp_servers_config ov s = (inr r, s') /\
     view (heap s') r =
       Some (map (fun kd => (kd.1, Some (deref_fields (heap s) kd.2))) (merged (heap s) ov)) /\
     In (LogWarning TAVILY_WARNING) (trace s') /\ In (LogWarning TINYFISH_WARNING) (trace s')).
Proof.
  split_and!.
  - intros Hta raw d Hraw. rewrite resolve_plain by (intros E; first [exact Hta|discriminate]).
    rewrite Hraw. unfold resolve_events. simpl. rewrite Hta. reflexivity.
  - intros Htf raw d Hraw. rewrite resolve_plain by (intros E; first [exact Htf|discriminate]).
    rewrite Hraw. unfold resolve_events. simpl. rewrite Htf. reflexivity.
  - intros Hdl Hov Hta Htf.
    destruct (get_config_total s ov Hdl Hov Hta Htf) as (r & s' & H).
    exists r, s'. split; [exact H|].
    destruct (get_config_spec s ov r s' Hdl Hov H) as (_ & _ & Ht & _ & _ & Hnm).
    assert (Hnone : Forall (fun kd => mutated (env s) kd.1 kd.2 = None) (merged (heap s) ov)).
    { apply List.Forall_forall. intros kd _. unfold mutated. rewrite Htf.
      destruct (String.eqb kd.1 "tinyfish"); reflexivity. }
    destruct (Hnm Hnone) as (_ & Hv).
    split_and!.
    + rewrite Hv. f_equal. unfold spec_view. rewrite fold_aset_map by (simpl; apply merged_NoDup).
      simpl. apply map_ext_in. intros [k d] _. simpl. f_equal. f_equal.
      unfold spec_desc, resolved_fields. rewrite Hta, Htf.
      destruct (String.eqb k "tavily"); destruct (String.eqb k "tinyfish"); reflexivity.
    + rewrite Ht. apply in_app_iff. right. apply in_flat_map.
      assert (Hk : In "tavily" (map fst (merged (heap s) ov)))
        by (apply merged_keys_default; simpl; auto 6).
      apply in_map_iff in Hk as (kd & Hk & Hkd). exists kd. split; [exact Hkd|].
      rewrite Hk. unfold resolve_events. simpl. rewrite Hta. simpl. auto.
    + rewrite Ht. apply in_app_iff. right. apply in_flat_map.
      assert (Hk : In "tinyfish" (map fst (merged (heap s) ov)))
        by (apply merged_keys_default; simpl; auto 6).
      apply in_map_iff in Hk as (kd & Hk & Hkd). exists kd. split; [exact Hkd|].
      rewrite Hk. unfold resolve_events. simpl. rewrite Htf. simpl. auto.
Qed.

Lemma missing_credential_degrades_witness :
  exists r s', get_mcp_servers_config (Some 5) new_server_state = (inr r, s') /\
    In (LogWarning TAVILY_WARNING) (trace s').
Proof.
  destruct (proj2 (proj2 (missing_credential_degrades new_server_state (Some 5))))
    as (r & s' & H & _ & Hw & _).
  - split; [intros l d Hl; pose proof (module_heap_lt _ _ Hl); simpl;
            unfold new_server_heap; rewrite !lookup_insert_ne by lia; exact Hl|simpl; lia].
  - simpl; split; [lia|]; eexists; split; [reflexivity|].
    intros k v Hin; simpl in Hin; destruct Hin as [E|[]]; injection E as <- <-.
    eexists _, _; split_and!; [reflexivity|lia|reflexivity|].
    intros f x Hx; simpl in Hx; destruct Hx as [E|[]]; discriminate.
  - reflexivity.
  - reflexivity.
  - exists r, s'. split; assumption.
Defined.

(** C7, as the code behaves: from a state where [DEFAULT_MCP_SERVERS] is
    loaded and [override] is a dict of dicts, two calls that do not write
    [X-API-Key] into a [headers] dict of a merged descriptor (that is, no
    ["tinyfish"] descriptor has a [headers] dict while [TINYFISH_API_KEY] is
    set) leave every object that existed before them unchanged, return
    different dicts whose observed contents are equal, and share no object
    created by either call; writing into an object a call created and its
    result reaches changes neither the other result nor any older object.
    Both catalogs and all their descriptors are new dicts. A dict held in a
    field of a merged descriptor (other than the ["url"] of ["tavily"]) is
    not copied: the descriptors of both results hold it, so a write into it
    shows through both. *)
Theorem get_mcp_servers_config_isolation s ov r1 s2 r2 s3 :
  default_loaded s -> override_ok s ov ->
  Forall (fun kd => mutated (env s) kd.1 kd.2 = None) (merged (heap s) ov) ->
  get_mcp_servers_config ov s = (inr r1, s2) ->
  get_mcp_servers_config ov s2 = (inr r2, s3) ->
  (forall l, l < next_loc s -> heap s3 !! l = heap s !! l) /\
  view (heap s3) r1 = Some (spec_view (heap s) (env s) ov) /\
  view (heap s3) r2 = Some (spec_view (heap s) (env s) ov) /\
  r1 <> r2 /\
  (forall l, In l (reach (heap s3) r1) -> In l (reach (heap s3) r2) -> l < next_loc s) /\
  (forall l d, In l (reach (heap s3) r1) -> next_loc s <= l ->
     view (<[l := d]> (heap s3)) r2 = view (heap s3) r2 /\
     forall l', l' < next_loc s -> (<[l := d]> (heap s3)) !! l' = heap s !! l') /\
  (forall l d, In l (reach (heap s3) r2) -> next_loc s <= l ->
     view (<[l := d]> (heap s3)) r1 = view (heap s3) r1 /\
     forall l', l' < next_loc s -> (<[l := d]> (heap s3)) !! l' = heap s !! l') /\
  (exists rd1 rd2,
     heap s3 !! r1 = Some rd1 /\ heap s3 !! r2 = Some rd2 /\
     next_loc s <= r1 /\ next_loc s <= r2 /\
     (forall k v, In (k, v) rd1 -> exists c, v = VDict c /\ next_loc s <= c) /\
     (forall k v, In (k, v) rd2 -> exists c, v = VDict c /\ next_loc s <= c) /\
     forall kd f x, In kd (merged (heap s) ov) -> In (f, VDict x) kd.2 ->
       kd.1 <> "tavily" \/ f <> "url" ->
       x < next_loc s /\
       exists c1 d1 c2 d2,
         aget rd1 kd.1 = Some (VDict c1) /\ heap s3 !! c1 = Some d1 /\ In (f, VDict x) d1 /\
         aget rd2 kd.1 = Some (VDict c2) /\ heap s3 !! c2 = Some d2 /\ In (f, VDict x) d2 /\
         c1 <> c2 /\
         forall d',
           (exists vs fs, view (<[x := d']> (heap s3)) r1 = Some vs /\
              In (kd.1, Some fs) vs /\ In (f, FDict (Some d')) fs) /\
           (exists vs fs, view (<[x := d']> (heap s3)) r2 = Some vs /\
              In (kd.1, Some fs) vs /\ In (f, FDict (Some d')) fs)).
Proof.
  intros Hdl Hov Hnm H1 H2.
  destruct (get_config_result_dicts s ov r1 s2 Hdl Hov H1) as (rd1 & Hrd1 & Hv1s & Hsh1).
  destruct (get_config_spec s ov r1 s2 Hdl Hov H1) as (Hr1 & He2 & _ & _ & Hreach1 & Hnm1).
  destruct (Hnm1 Hnm) as (Hfr1 & Hv1).
  assert (Hdl2 : default_loaded s2) by (apply (default_loaded_agree s); [exact Hdl|lia|exact Hfr1]).
  assert (Hov2 : override_ok s2 ov) by (apply (override_ok_agree s); [exact Hov|lia|exact Hfr1]).
  assert (Hmg : merged (heap s2) ov = merged (heap s) ov) by exact (merged_agree s _ ov Hov Hfr1).
  destruct (get_config_spec s2 ov r2 s3 Hdl2 Hov2 H2) as (Hr2 & He3 & _ & _ & Hreach2 & Hnm2).
  rewrite Hmg, He2 in Hnm2. rewrite Hmg in Hreach2.
  destruct (Hnm2 Hnm) as (Hfr2 & Hv2).
  pose proof (merged_fields_below s ov Hov) as Hmfb.
  assert (Hold : forall l kd f, In kd (merged (heap s) ov) -> In (f, VDict l) kd.2 -> l < next_loc s).
  { intros l kd f Hkd Hf. exact (proj1 (List.Forall_forall _ _) Hmfb kd Hkd f l Hf). }
  assert (Hag1 : view (heap s3) r1 = view (heap s2) r1 /\ reach (heap s3) r1 = reach (heap s2) r1).
  { apply view_agree. intros l Hl. apply Hfr2.
    destruct (Hreach1 l Hl) as [Hl'|(kd & f & Hkd & Hf)]; [lia|].
    pose proof (Hold l kd f Hkd Hf). lia. }
  destruct Hag1 as [Hview1 Hreach1'].
  assert (Hin1 : forall l, In l (reach (heap s3) r1) -> l < next_loc s2).
  { intros l Hl. rewrite Hreach1' in Hl.
    destruct (Hreach1 l Hl) as [Hl'|(kd & f & Hkd & Hf)]; [lia|].
    pose proof (Hold l kd f Hkd Hf). lia. }
  assert (Hin2 : forall l, In l (reach (heap s3) r2) -> next_loc s2 <= l \/ l < next_loc s).
  { intros l Hl. destruct (Hreach2 l Hl) as [Hl'|(kd & f & Hkd & Hf)]; [left; lia|].
    right. exact (Hold l kd f Hkd Hf). }
  assert (Hframe : forall l, l < next_loc s -> heap s3 !! l = heap s !! l).
  { intros l Hl. rewrite Hfr2 by lia. apply Hfr1. exact Hl. }
  split_and!.
  - exact Hframe.
  - rewrite Hview1. exact Hv1.
  - rewrite Hv2. f_equal. exact (spec_view_agree s _ _ ov Hov Hfr1).
  - lia.
  - intros l Hl1 Hl2. pose proof (Hin1 l Hl1). destruct (Hin2 l Hl2); lia.
  - intros l d Hl Hge. split.
    + apply view_agree. intros l' Hl'. apply lookup_insert_ne.
      pose proof (Hin1 l Hl). destruct (Hin2 l' Hl'); lia.
    + intros l' Hl'. rewrite lookup_insert_ne by lia. apply Hframe. exact Hl'.
  - intros l d Hl Hge. split.
    + apply view_agree. intros l' Hl'. apply lookup_insert_ne.
      pose proof (Hin1 l' Hl'). destruct (Hin2 l Hl); lia.
    + intros l' Hl'. rewrite lookup_insert_ne by lia. apply Hframe. exact Hl'.
  - destruct (get_config_result_dicts s2 ov r2 s3 Hdl2 Hov2 H2) as (rd2 & Hrd2 & Hv2s & Hsh2).
    rewrite Hmg in Hsh2.
    assert (Hrd1' : heap s3 !! r1 = Some rd1) by (rewrite Hfr2 by lia; exact Hrd1).
    exists rd1, rd2. split_and!; [exact Hrd1'|exact Hrd2|lia|lia| | |].
    + intros k v Hin. destruct (Hv1s k v Hin) as (c & -> & Hc). exists c. split; [reflexivity|lia].
    + intros k v Hin. destruct (Hv2s k v Hin) as (c & -> & Hc). exists c. split; [reflexivity|lia].
    + intros kd f x Hkd Hfx Hcond.
      pose proof (Hold x kd f Hkd Hfx) as Hx.
      destruct (Hsh1 kd f x Hkd Hfx Hcond) as (c1 & d1 & Ha1 & Hc1 & Hd1 & Hf1).
      destruct (Hsh2 kd f x Hkd Hfx Hcond) as (c2 & d2 & Ha2 & Hc2 & Hd2 & Hf2).
      assert (Hd1' : heap s3 !! c1 = Some d1) by (rewrite Hfr2 by lia; exact Hd1).
      split; [exact Hx|].
      exists c1, d1, c2, d2. split_and!; try assumption; [lia|]. intros d'.
      split.
      * destruct (view_field_In (<[x := d']> (heap s3)) r1 rd1 kd.1 c1 d1 f x)
          as (vs & fs & Hvs & Hk & Hf).
        -- rewrite lookup_insert_ne by lia. exact Hrd1'.
        -- exact (aget_In _ _ _ Ha1).
        -- rewrite lookup_insert_ne by lia. exact Hd1'.
        -- exact Hf1.
        -- rewrite lookup_insert_eq in Hf. exists vs, fs. auto.
      * destruct (view_field_In (<[x := d']> (heap s3)) r2 rd2 kd.1 c2 d2 f x)
          as (vs & fs & Hvs & Hk & Hf).
        -- rewrite lookup_insert_ne by lia. exact Hrd2.
        -- exact (aget_In _ _ _ Ha2).
        -- rewrite lookup_insert_ne by lia. exact Hd2.
        -- exact Hf2.
        -- rewrite lookup_insert_eq in Hf. exists vs, fs. auto.
Qed.

Lemma get_mcp_servers_config_isolation_witness :
  view (heap (snd (get_mcp_servers_config (Some 5)
                     (snd (get_mcp_servers_config (Some 5) tavily_key_state))))) 27 =
  Some (spec_view (heap tavily_key_state) (env tavily_key_state) (Some 5)).
Proof.
  refine (proj1 (proj2 (proj2 (get_mcp_servers_config_isolation tavily_key_state (Some 5) 14
            (snd (get_mcp_servers_config (Some 5) tavily_key_state)) 27
            (snd (get_mcp_servers_config (Some 5)
                    (snd (get_mcp_servers_config (Some 5) tavily_key_state))))
            _ _ _ _ _))));
  [split; [intros l d Hl; pose proof (module_heap_lt _ _ Hl); simpl;
           unfold new_server_heap; rewrite !lookup_insert_ne by lia; exact Hl|simpl; lia]
  |simpl; split; [lia|]; eexists; split; [reflexivity|];
   intros k v Hin; simpl in Hin; destruct Hin as [E|[]]; injection E as <- <-;
   eexists _, _; split_and!; [reflexivity|lia|reflexivity|];
   intros f x Hx; simpl in Hx; destruct Hx as [E|[]]; discriminate
  |vm_compute; repeat constructor
  |vm_compute; reflexivity
  |vm_compute; reflexivity].
Defined.

(** C7, against the spec: the results of two calls are not independent
    copies. An override [{"internal": {"headers": H}}] gives both results a
    descriptor whose [headers] field is the same dict [H] (location 7): the
    results are equal, but a write into [H] through the first one changes
    what the second one holds. *)
Lemma shared_override_dict_links_results :
  let '(res1, s2) := get_mcp_servers_config (Some 5) shared_headers_state in
  let '(res2, s3) := get_mcp_servers_config (Some 5) s2 in
  res1 = inr 15 /\ res2 = inr 28 /\
  view (heap s3) 15 = view (heap s3) 28 /\
  In 7 (reach (heap s3) 15) /\ In 7 (reach (heap s3) 28) /\
  view (<[7 := [("Authorization", VStr "changed")]]> (heap s3)) 28 <> view (heap s3) 28.
Proof.
  vm_compute. split_and!; try reflexivity; try tauto. intros E. discriminate E.
Qed.

(** With [TINYFISH_API_KEY] set, an override [{"tinyfish": {"headers": H}}]
    has [X-API-Key] written into the caller's own dict [H] (location 7). *)
Example tinyfish_override_headers_written :
  heap tinyfish_headers_state !! 7 = Some [] /\
  heap (snd (get_mcp_servers_config (Some 5) tinyfish_headers_state)) !! 7 =
    Some [("X-API-Key", VStr "tf-key")].
Proof. split; vm_compute; reflexivity. Qed.

(** C9, as the code behaves: a descriptor of the result has a [transport]
    field exactly when its server is one of [DEFAULT_MCP_SERVERS] or one of
    the override's entries for it has a [transport] field. *)
Theorem get_mcp_servers_config_transport s ov r s' :
  default_loaded s -> override_ok s ov ->
  get_mcp_servers_config ov s = (inr r, s') ->
  exists rd, heap s' !! r = Some rd /\ map fst rd = map fst (merged (heap s) ov) /\
    forall k v, In (k, v) rd ->
      exists c d, v = VDict c /\ heap s' !! c = Some d /\
        (In "transport" (map fst d) <->
           In k (map fst DEFAULT_MCP_SERVERS_dict) \/
           exists u, In (k, u) (ov_items (heap s) ov) /\ In "transport" (map fst u)).
Proof.
  intros Hdl Hov H.
  destruct (get_config_spec s ov r s' Hdl Hov H) as (_ & _ & _ & (rd & rcat & Hrd & Hrep & HF) & _).
  exists rd. split_and!; [exact Hrd| |].
  - rewrite (rep_keys _ _ _ _ _ Hrep). symmetry. exact (Forall2_keys _ _ _ HF).
  - intros k v Hin.
    destruct (Forall2_In_both _ _ _ _ _ _ Hrep HF Hin)
      as (kod & kd & Hkod & Hkd & [Hk (c & Hv & _ & Hc)] & [Hk' (h & em & Hres)]).
    simpl in Hk, Hv. exists c, kod.2. split_and!; [exact Hv|exact Hc|].
    rewrite Hres, resolved_fields_keys by discriminate.
    rewrite (merged_transport _ _ _ Hkd). rewrite Hk', <- Hk. reflexivity.
Qed.

Lemma get_mcp_servers_config_transport_witness :
  exists rd, heap (snd (get_mcp_servers_config (Some 5) new_server_state)) !! 14 = Some rd /\
    map fst rd = map fst (merged (heap new_server_state) (Some 5)).
Proof.
  destruct (get_mcp_servers_config_transport new_server_state (Some 5) 14
              (snd (get_mcp_servers_config (Some 5) new_server_state)))
    as (rd & Hrd & Hkeys & _).
  - split; [intros l d Hl; pose proof (module_heap_lt _ _ Hl); simpl;
            unfold new_server_heap; rewrite !lookup_insert_ne by lia; exact Hl|simpl; lia].
  - simpl; split; [lia|]; eexists; split; [reflexivity|].
    intros k v Hin; simpl in Hin; destruct Hin as [E|[]]; injection E as <- <-.
    eexists _, _; split_and!; [reflexivity|lia|reflexivity|].
    intros f x Hx; simpl in Hx; destruct Hx as [E|[]]; discriminate.
  - vm_compute. reflexivity.
  - exists rd. split; assumption.
Defined.

(** C9, against the spec: with [override = {"new-server": {"url": ...}}] the
    result's ["new-server"] descriptor has no [transport] field. *)
Lemma new_server_lacks_transport :
  let '(res, s') := get_mcp_servers_config (Some 5) new_server_state in
  res = inr 14 /\
  option_map (fun cat => aget cat "new-server") (view (heap s') 14) =
    Some (Some (Some [("url", FPlain (VStr "https://example.org/mcp"))])).
Proof. vm_compute. split; reflexivity. Qed.

(** C10: [_resolve_server_config] reads the environment only for ["tavily"]
    and ["tinyfish"]. Any other server gets a fresh copy of its descriptor,
    unchanged, with no environment read and no log event; ["tavily"] with a
    key gets [tavilyApiKey=<key>] appended to its [url] as a query parameter;
    ["tinyfish"] with a key and no [headers] gets a new [headers] dict
    holding [X-API-Key]. *)
Theorem env_resolution_only_for_known_servers k raw d s :
  heap s !! raw = Some d ->
  (k <> "tavily" -> k <> "tinyfish" ->
     _resolve_server_config k raw s =
       (inr (next_loc s),
        {| heap := <[next_loc s := d]> (heap s); next_loc := S (next_loc s);
           env := env s; trace := trace s |})) /\
  (forall key u, k = "tavily" -> tavily_key (env s) = Some key -> aget d "url" = Some (VStr u) ->
     _resolve_server_config k raw s =
       (inr (next_loc s),
        {| heap := <[next_loc s := aset d "url" (VStr (tavily_url u key))]> (heap s);
           next_loc := S (next_loc s); env := env s;
           trace := trace s ++ [EnvGet "TAVILY_API_KEY"] |})) /\
  (forall key, k = "tinyfish" -> tinyfish_key (env s) = Some key -> aget d "headers" = None ->
     _resolve_server_config k raw s =
       (inr (next_loc s),
        {| heap := <[S (next_loc s) := [("X-API-Key", VStr key)]]>
                     (<[next_loc s := aset d "headers" (VDict (S (next_loc s)))]> (heap s));
           next_loc := S (S (next_loc s)); env := env s;
           trace := trace s ++ [EnvGet "TINYFISH_API_KEY"] |})).
Proof.
  intros Hraw. split_and!.
  - intros Hta Htf. rewrite resolve_plain by (intros E; congruence).
    rewrite Hraw. unfold resolve_events.
    destruct (String.eqb_spec k "tavily"); [congruence|].
    destruct (String.eqb_spec k "tinyfish"); [congruence|].
    rewrite app_nil_r. reflexivity.
  - intros key u -> Hkey Hu. unfold tavily_key in Hkey.
    unfold _resolve_server_config, em_bind, load, alloc, environ_get, store, em_ret. simpl.
    rewrite Hraw. simpl. rewrite Hkey, Hu. simpl. rewrite lookup_insert_eq. simpl.
    rewrite insert_insert_eq. reflexivity.
  - intros key -> Hkey Hh. unfold tinyfish_key in Hkey.
    unfold _resolve_server_config, em_bind, load, alloc, environ_get, store, em_ret. simpl.
    rewrite Hraw. simpl. rewrite Hkey. simpl.
    lk. simpl. rewrite Hh. simpl. rewrite aget_aset_same. simpl. lk. simpl.
    rewrite (insert_insert_ne _ (next_loc s) (S (next_loc s))) by lia.
    rewrite !insert_insert_eq. reflexivity.
Qed.

Lemma env_resolution_only_for_known_servers_witness :
  _resolve_server_config "web-fetch" 3 new_server_state =
    (inr 7, {| heap := <[7 := web_fetch_entry]> new_server_heap; next_loc := 8;
               env := []; trace := [] |}).
Proof.
  exact (proj1 (env_resolution_only_for_known_servers "web-fetch" 3 web_fetch_entry
                  new_server_state eq_refl) ltac:(discriminate) ltac:(discriminate)).
Defined.

End ConfigFacts.

Module ProviderExtra.
Import Provider ProviderFacts.


Lemma unwind_from cbs exc s :
  exists o, fst (unwind cbs exc s) = inr o /\ clock (snd (unwind cbs exc s)) = clock s /\
    (o = exc \/ exists q, In q cbs /\ q.2 = o).
Proof.
  revert exc s. induction cbs as [|[name close] rest IH]; intros exc s; simpl.
  - exists exc. auto.
  - unfold em_bind, emit. simpl.
    destruct (IH (match close with Some f => Some f | None => exc end)
                 {| clock := clock s; stack := stack s; trace := trace s ++ [EvClosed name] |})
      as (o & H1 & H2 & H3).
    exists o. split; [exact H1|]. split; [exact H2|].
    destruct H3 as [->|(q & Hq & Ho)].
    + destruct close as [f|]; [right; exists (name, Some f); simpl; auto|left; reflexivity].
    + right. exists q. auto.
Qed.

Lemma stack_exit_from exc s :
  exists o, fst (stack_exit exc s) = inr o /\ clock (snd (stack_exit exc s)) = clock s /\
    (o = exc \/ exists q, In q (stack s) /\ q.2 = o).
Proof.
  unfold stack_exit, em_bind, em_get, set_stack. simpl.
  apply (unwind_from (stack s) exc {| clock := clock s; stack := []; trace := trace s |}).
Qed.

Lemma acquire_error ff servers acc s e :
  fst (acquire ff servers acc s) = inl e ->
  (ff = true /\ exists p err, In p servers /\ attempt_result p.2 = inl err /\
     is_Exception err = true /\ e = MCPConnectionError p.1 (report err)) \/
  (exists p, In p servers /\ attempt_result p.2 = inl CancelledError /\ e = CancelledError).
Proof.
  revert acc s. induction servers as [|[name srv] rest IH]; intros acc s H; simpl in H.
  - discriminate.
  - destruct (attempt_spec name srv s) as (d & mid & Ha & _ & _).
    rewrite (em_bind_inr _ _ _ _ _ Ha) in H.
    set (s1 := {| clock := clock s + d;
                  stack := (if opens srv then [(name, close_error srv)] else []) ++ stack s;
                  trace := trace s ++ [EvConnecting name] ++
                    (if opens srv then [EvOpened name] else []) ++ mid |}) in H.
    assert (Hlift : forall acc' s', fst (acquire ff rest acc' s') = inl e ->
              (ff = true /\ exists p err, In p ((name, srv) :: rest) /\ attempt_result p.2 = inl err /\
                 is_Exception err = true /\ e = MCPConnectionError p.1 (report err)) \/
              (exists p, In p ((name, srv) :: rest) /\ attempt_result p.2 = inl CancelledError /\
                 e = CancelledError)).
    { intros acc' s' H'. destruct (IH acc' s' H') as [(Hff & p & err & Hp & R)|(p & Hp & R)].
      - left. split; [exact Hff|]. exists p, err. split; [right; exact Hp|exact R].
      - right. exists p. split; [right; exact Hp|exact R]. }
    destruct (attempt_result srv) as [err|tools] eqn:Hr.
    + destruct (is_timeout err) eqn:Ht; [|destruct (is_Exception err) eqn:Hx]; destruct ff;
        unfold em_raise, em_bind, emit in H; simpl in H.
      * injection H as <-. left. split; [reflexivity|]. exists (name, srv), err.
        simpl. unfold report. rewrite Ht, Hr.
        split_and!; auto. destruct err; simpl in *; congruence.
      * eapply Hlift. exact H.
      * injection H as <-. left. split; [reflexivity|]. exists (name, srv), err.
        simpl. unfold report. rewrite Ht, Hr. auto.
      * eapply Hlift. exact H.
      * injection H as <-. right. exists (name, srv). simpl. rewrite Hr.
        destruct err; simpl in *; try discriminate. auto.
      * injection H as <-. right. exists (name, srv). simpl. rewrite Hr.
        destruct err; simpl in *; try discriminate. auto.
    + eapply Hlift. exact H.
Qed.




(** X2: the only exceptions that leave [tool_session] are an [MCPConnectionError]
    for a configured server whose connection failed with an [Exception] (only
    with [fail_fast]), a [CancelledError] raised while connecting, the caller's
    own exception, and the close error of a configured server. *)
Theorem tool_session_raises ff config block s e :
  fst (tool_session ff config block s) = inl e ->
  (ff = true /\ exists p err, In p config /\ attempt_result p.2 = inl err /\
     is_Exception err = true /\ e = MCPConnectionError p.1 (report err)) \/
  (exists p, In p config /\ attempt_result p.2 = inl CancelledError /\ e = CancelledError) \/
  (exists ts, block ts = BRaise e) \/
  (exists p, In p config /\ close_error p.2 = Some e).
Proof.
  unfold tool_session, em_bind, em_try, set_stack at 1. simpl.
  set (s0 := {| clock := clock s; stack := []; trace := trace s |}).
  destruct (acquire ff config [] s0) as [r s1] eqn:Ea.
  pose proof (acquire_stack_from ff config [] s0 r s1 Ea) as Hst. simpl in Hst.
  assert (Hclose : forall q o, In q (stack s1) -> q.2 = o ->
            exists p, In p config /\ close_error p.2 = o).
  { intros q o Hq <-. destruct (Hst q Hq) as [[]|(p & Hp & ->)]. exists p. auto. }
  destruct r as [e0|ts].
  - pose proof (acquire_error ff config [] s0 e0) as Herr. rewrite Ea in Herr.
    specialize (Herr eq_refl).
    destruct (stack_exit_from (Some e0) s1) as (o & Ho & _ & Hfrom).
    destruct (stack_exit (Some e0) s1) as [r s2]. simpl in Ho. subst r.
    unfold em_raise. simpl. intros [= <-].
    destruct Hfrom as [->|(q & Hq & Hqo)]; simpl.
    + destruct Herr as [H|H]; [left|right; left]; exact H.
    + destruct o as [f|]; simpl.
      * right. right. right. exact (Hclose q (Some f) Hq Hqo).
      * destruct Herr as [H|H]; [left|right; left]; exact H.
  - unfold emit. simpl.
    set (s2 := {| clock := clock s1; stack := stack s1; trace := trace s1 ++ [EvYield ts] |}).
    destruct (stack_exit_from (block_exc (block ts)) s2) as (o & Ho & _ & Hfrom).
    destruct (stack_exit (block_exc (block ts)) s2) as [r s3]. simpl in Ho. subst r.
    destruct o as [f|]; [|destruct (block ts) as [v|f] eqn:Eb]; simpl;
      unfold em_raise, em_ret; simpl; intros H; try discriminate; injection H as <-.
    + destruct Hfrom as [Hb|(q & Hq & Hqo)].
      * right. right. left. exists ts. destruct (block ts); simpl in Hb; congruence.
      * right. right. right. exact (Hclose q (Some f) Hq Hqo).
    + right. right. left. exists ts. exact Eb.
Qed.

Lemma tool_session_raises_witness :
  fst (tool_session false [("a", good ["t"]); ("b", close_fails ["u"])]
         (fun _ => BReturn "done") init_pstate)
    = inl (OtherError "HTTPStatusError" "405 Method Not Allowed") /\
  ((false = true /\ exists p err, In p [("a", good ["t"]); ("b", close_fails ["u"])] /\
      attempt_result p.2 = inl err /\ is_Exception err = true /\
      OtherError "HTTPStatusError" "405 Method Not Allowed" = MCPConnectionError p.1 (report err)) \/
   (exists p, In p [("a", good ["t"]); ("b", close_fails ["u"])] /\
      attempt_result p.2 = inl CancelledError /\
      OtherError "HTTPStatusError" "405 Method Not Allowed" = CancelledError) \/
   (exists ts : list tool, BReturn "done" = BRaise (OtherError "HTTPStatusError" "405 Method Not Allowed")) \/
   (exists p, In p [("a", good ["t"]); ("b", close_fails ["u"])] /\
      close_error p.2 = Some (OtherError "HTTPStatusError" "405 Method Not Allowed"))).
Proof.
  split; [vm_compute; reflexivity|].
  apply (tool_session_raises false _ (fun _ => BReturn "done") init_pstate).
  vm_compute. reflexivity.
Defined.


Lemma acquire_false_opened servers acc s :
  Forall (fun p => attempt_result p.2 <> inl CancelledError) servers ->
  exists acq, trace (snd (acquire false servers acc s)) = trace s ++ acq /\
    opened_of acq = map fst (List.filter (fun p => opens p.2) servers).
Proof.
  revert acc s. induction servers as [|[name srv] rest IH]; intros acc s Hc.
  - exists []. simpl. rewrite app_nil_r. auto.
  - inversion Hc as [|? ? Hcs Hcr]; subst. simpl in Hcs.
    destruct (attempt_spec name srv s) as (d & mid & Ha & _ & Hmid).
    destruct (loaded_only_projections mid Hmid) as (Ho & _).
    set (s1 := {| clock := clock s + d;
                  stack := (if opens srv then [(name, close_error srv)] else []) ++ stack s;
                  trace := trace s ++ [EvConnecting name] ++
                    (if opens srv then [EvOpened name] else []) ++ mid |}) in Ha.
    set (acq1 := [EvConnecting name] ++ (if opens srv then [EvOpened name] else []) ++ mid).
    assert (Ho1 : opened_of acq1 = if opens srv then [name] else []).
    { subst acq1. destruct (opens srv); proj_simpl; rewrite Ho; reflexivity. }
    assert (Ht1 : trace s1 = trace s ++ acq1) by reflexivity.
    clearbody acq1 s1.
    assert (Hcont : forall ext acc' s2,
              trace s2 = trace s1 ++ ext -> opened_of ext = [] ->
              exists acq, trace (snd (acquire false rest acc' s2)) = trace s ++ acq /\
                opened_of acq = (if opens srv then [name] else []) ++
                                map fst (List.filter (fun p => opens p.2) rest)).
    { intros ext acc' s2 Ht2 Hoe. destruct (IH acc' s2 Hcr) as (acq & Hacq & Hop).
      exists (acq1 ++ ext ++ acq). rewrite Hacq, Ht2, Ht1, <- !app_assoc.
      split; [reflexivity|]. proj_simpl. rewrite Ho1, Hoe, Hop. reflexivity. }
    simpl. rewrite (em_bind_inr _ _ _ _ _ Ha).
    assert (Hf : map fst (if opens srv then (name, srv) :: List.filter (fun p => opens p.2) rest
                          else List.filter (fun p => opens p.2) rest) =
                 (if opens srv then [name] else []) ++
                 map fst (List.filter (fun p => opens p.2) rest))
      by (destruct (opens srv); reflexivity).
    rewrite Hf.
    destruct (attempt_result srv) as [e|tools] eqn:Hr.
    + assert (He : is_Exception e = true) by (destruct e; simpl; congruence).
      destruct (is_timeout e); rewrite ?He; unfold em_bind, emit; simpl;
        (eapply (Hcont [EvFailed name _]); [reflexivity|reflexivity]).
    + eapply (Hcont []); [rewrite app_nil_r; reflexivity|reflexivity].
Qed.

(** X3: with [fail_fast=False] and no cancellation while connecting, the
    sessions opened before the yield are exactly those of the servers that
    opened, in catalog order; none is closed before the yield, none is opened
    after it, and all are closed after it in reverse order, whatever the
    caller's block does. *)
Theorem tool_session_keeps_opened_sessions config block s :
  Forall (fun p => attempt_result p.2 <> inl CancelledError) config ->
  exists acq rest,
    trace (snd (tool_session false config block s)) =
      trace s ++ acq ++ EvYield (succeeded_tools config) :: rest /\
    opened_of acq = map fst (List.filter (fun p => opens p.2) config) /\
    closed_of acq = [] /\ opened_of rest = [] /\
    closed_of rest = rev (map fst (List.filter (fun p => opens p.2) config)).
Proof.
  intros Hc.
  unfold tool_session, em_bind, em_try, set_stack at 1. simpl.
  set (s0 := {| clock := clock s; stack := []; trace := trace s |}).
  destruct (acquire_best_effort config [] s0 Hc) as (acq & Hr & Ha & _).
  destruct (acquire_false_opened config [] s0 Hc) as (acq' & Ha' & Hop).
  destruct (acquire false config [] s0) as [r s1] eqn:E.
  destruct (acquire_stack _ _ _ _ _ _ E) as (acq'' & Ha'' & Hcl & _ & Hk).
  simpl in Hr, Ha, Ha', Ha'', Hk. subst r.
  rewrite Ha in Ha', Ha''. apply app_inv_head in Ha'. apply app_inv_head in Ha''.
  subst acq' acq''. rewrite app_nil_r in Hk.
  simpl.
  set (s2 := {| clock := clock s1; stack := stack s1;
                trace := trace s1 ++ [EvYield (succeeded_tools config)] |}).
  destruct (stack_exit_spec (block_exc (block (succeeded_tools config))) s2)
    as (o & Hx & _).
  rewrite Hx. exists acq, (map (fun p => EvClosed p.1) (stack s2)).
  split.
  { destruct o as [f|]; [|destruct (block (succeeded_tools config))]; simpl;
      rewrite Ha, <- !app_assoc; reflexivity. }
  split; [exact Hop|]. split; [exact Hcl|]. split; [apply opened_of_closing|].
  rewrite closed_of_closing. simpl. rewrite Hk, Hop. reflexivity.
Qed.

Lemma tool_session_keeps_opened_sessions_witness :
  Forall (fun p => attempt_result p.2 <> inl CancelledError) [("a", good ["t"]); ("b", refused)] /\
  exists acq rest,
    trace (snd (tool_session false [("a", good ["t"]); ("b", refused)]
                  (fun _ => BRaise CancelledError) init_pstate)) =
      trace init_pstate ++ acq ++ EvYield (succeeded_tools [("a", good ["t"]); ("b", refused)]) :: rest /\
    opened_of acq = ["a"] /\ closed_of acq = [] /\ opened_of rest = [] /\ closed_of rest = ["a"].
Proof.
  assert (Hc : Forall (fun p => attempt_result p.2 <> inl CancelledError)
                 [("a", good ["t"]); ("b", refused)]).
  { repeat constructor; intros H; vm_compute in H; discriminate H. }
  split; [exact Hc|].
  exact (tool_session_keeps_opened_sessions _ (fun _ => BRaise CancelledError) init_pstate Hc).
Defined.

Lemma acquire_no_failure servers acc s :
  Forall (fun p => failed (attempt_result p.2) = false) servers ->
  acquire true servers acc s = acquire false servers acc s.
Proof.
  revert acc s. induction servers as [|[name srv] rest IH]; intros acc s Hf; [reflexivity|].
  inversion Hf as [|? ? Hp Hr]; subst. simpl in Hp. simpl.
  destruct (attempt_spec name srv s) as (d & mid & Ha & _ & _).
  rewrite !(em_bind_inr _ _ _ _ _ Ha).
  destruct (attempt_result srv); [discriminate|]. apply IH. exact Hr.
Qed.

(** X4: when no configured server fails, [fail_fast] makes no difference:
    [tool_session(True)] and [tool_session(False)] give the same result, trace
    and clock. *)
Theorem fail_fast_irrelevant_without_failure config block s :
  Forall (fun p => failed (attempt_result p.2) = false) config ->
  tool_session true config block s = tool_session false config block s.
Proof.
  intros Hf. unfold tool_session, em_bind, em_try, set_stack at 1. simpl.
  rewrite acquire_no_failure by exact Hf. reflexivity.
Qed.

Lemma fail_fast_irrelevant_without_failure_witness :
  Forall (fun p => failed (attempt_result p.2) = false) [("a", good ["t"]); ("b", close_fails ["u"])] /\
  tool_session true [("a", good ["t"]); ("b", close_fails ["u"])] (fun _ => BReturn "done") init_pstate =
  tool_session false [("a", good ["t"]); ("b", close_fails ["u"])] (fun _ => BReturn "done") init_pstate.
Proof.
  assert (Hf : Forall (fun p => failed (attempt_result p.2) = false)
                 [("a", good ["t"]); ("b", close_fails ["u"])]) by (repeat constructor).
  split; [exact Hf|]. exact (fail_fast_irrelevant_without_failure _ _ init_pstate Hf).
Defined.

End ProviderExtra.

Module AgentExtra.
Import Provider Agent.

Lemma get_tools_cached self :
  (forall ts self', get_tools self = (inr ts, self') ->
     _tools_cache self' = Some ts /\ _config self' = _config self /\
     get_tools self' = (inr ts, self')) /\
  (forall e self', get_tools self = (inl e, self') ->
     self' = self /\ _tools_cache self = None).
Proof.
  unfold get_tools. split.
  - intros ts self' H. destruct (_tools_cache self) as [c|] eqn:Ec.
    + injection H as <- <-. rewrite Ec. auto.
    + destruct (MultiServerMCPClient_get_tools (_config self)); [discriminate|].
      injection H as <- <-. auto.
  - intros e self' H. destruct (_tools_cache self) as [c|] eqn:Ec; [discriminate|].
    destruct (MultiServerMCPClient_get_tools (_config self)); [|discriminate].
    injection H as <- <-. auto.
Qed.

(** X5: after a successful [MCPProvider.get_tools] the tools are cached and
    the configuration is unchanged, and the next call returns the same tools
    without contacting any server: its outcome is the same whatever the
    servers do then (any catalog in place of the configured one). A failed
    call caches nothing and changes nothing (so the next call tries
    again). *)
Theorem get_tools_cache_once self :
  (forall ts self', get_tools self = (inr ts, self') ->
     _tools_cache self' = Some ts /\ _config self' = _config self /\
     get_tools self' = (inr ts, self') /\
     forall cfg, get_tools {| _config := cfg; _tools_cache := _tools_cache self' |} =
                   (inr ts, {| _config := cfg; _tools_cache := Some ts |})) /\
  (forall e self', get_tools self = (inl e, self') ->
     self' = self /\ _tools_cache self = None).
Proof.
  destruct (get_tools_cached self) as [Hok Hko]. split; [|exact Hko].
  intros ts self' H. destruct (Hok ts self' H) as (Hc & Hcfg & Hg).
  split_and!; [exact Hc|exact Hcfg|exact Hg|].
  intros cfg. rewrite Hc. reflexivity.
Qed.

(** X6: [_ensure_initialized] on an agent not yet initialized. On success the
    agent's tools are its local tools followed by the initial MCP tools if
    given, else the provider's (now cached) tools if it has a provider, else
    nothing; a second call does nothing; the provider is not used unless it
    is asked for tools. On failure the agent and the provider are unchanged,
    and the failure comes from the provider. *)
Theorem ensure_initialized_once a p :
  _graph a = None ->
  let '(r1, (a1, p1)) := _ensure_initialized a p in
  (r1 = inr tt ->
     LangGraphMCPAgent_get_tools a1 =
       _tools a ++ match _initial_mcp_tools a with
                   | Some ts => ts
                   | None => if _mcp_provider a then default [] (_tools_cache p1) else []
                   end /\
     _ensure_initialized a1 p1 = (inr tt, (a1, p1)) /\
     (_initial_mcp_tools a <> None \/ _mcp_provider a = false -> p1 = p)) /\
  (forall e, r1 = inl e ->
     a1 = a /\ p1 = p /\ _initial_mcp_tools a = None /\ _mcp_provider a = true).
Proof.
  intros Hg. unfold _ensure_initialized. rewrite Hg. unfold _load_mcp_tools.
  destruct (_initial_mcp_tools a) as [ts|] eqn:Ei.
  - simpl. split; [|discriminate]. intros _. split_and!; [reflexivity|reflexivity|auto].
  - destruct (_mcp_provider a) eqn:Em.
    + destruct (get_tools p) as [[e|ts] p'] eqn:Eg.
      * split; [discriminate|]. intros e' _.
        destruct (proj2 (get_tools_cached p) e p' Eg) as [-> _]. auto.
      * destruct (proj1 (get_tools_cached p) ts p' Eg) as (Hc & _).
        split; [|discriminate]. intros _. simpl. rewrite Hc, ?Ei, ?Em. simpl.
        split_and!; [reflexivity|reflexivity|]. intros [H|H]; congruence.
    + simpl. split; [|discriminate]. intros _. rewrite ?Ei, ?Em.
      split_and!; [rewrite app_nil_r; reflexivity|reflexivity|auto].
Qed.

Lemma ensure_initialized_once_witness :
  _graph (LangGraphMCPAgent___init__ ["local"] true None) = None /\
  fst (_ensure_initialized (LangGraphMCPAgent___init__ ["local"] true None)
         {| _config := [("a", good ["t"])]; _tools_cache := None |}) = inr tt /\
  LangGraphMCPAgent_get_tools
    (fst (snd (_ensure_initialized (LangGraphMCPAgent___init__ ["local"] true None)
                 {| _config := [("a", good ["t"])]; _tools_cache := None |}))) = ["local"; "t"].
Proof.
  pose proof (ensure_initialized_once (LangGraphMCPAgent___init__ ["local"] true None)
                {| _config := [("a", good ["t"])]; _tools_cache := None |} eq_refl) as H.
  vm_compute in H. vm_compute. destruct H as [H _].
  split; [reflexivity|]. split; [reflexivity|]. exact (proj1 (H eq_refl)).
Defined.

Lemma get_tools_cache_once_witness :
  get_tools {| _config := [("a", good ["t"])]; _tools_cache := None |} =
    (inr ["t"], {| _config := [("a", good ["t"])]; _tools_cache := Some ["t"] |}) /\
  get_tools {| _config := [("a", refused)]; _tools_cache := Some ["t"] |} =
    (inr ["t"], {| _config := [("a", refused)]; _tools_cache := Some ["t"] |}).
Proof.
  assert (H : get_tools {| _config := [("a", good ["t"])]; _tools_cache := None |} =
    (inr ["t"], {| _config := [("a", good ["t"])]; _tools_cache := Some ["t"] |}))
    by (vm_compute; reflexivity).
  split; [exact H|].
  exact (proj2 (proj2 (proj2 (proj1 (get_tools_cache_once _) _ _ H))) [("a", refused)]).
Defined.

(** X7: two agents not yet initialized that share one provider: once the first
    initializes, the second initializes without error from the provider's
    cache, without changing the provider, and both hold their local tools
    followed by the same MCP tools. *)
Theorem shared_provider_same_tools a b p :
  _graph a = None -> _graph b = None ->
  _initial_mcp_tools a = None -> _initial_mcp_tools b = None ->
  _mcp_provider a = true -> _mcp_provider b = true ->
  fst (_ensure_initialized a p) = inr tt ->
  let '(_, (a1, p1)) := _ensure_initialized a p in
  let '(r2, (b1, p2)) := _ensure_initialized b p1 in
  r2 = inr tt /\ p2 = p1 /\
  exists ts, _tools_cache p1 = Some ts /\
    LangGraphMCPAgent_get_tools a1 = _tools a ++ ts /\
    LangGraphMCPAgent_get_tools b1 = _tools b ++ ts.
Proof.
  intros Hga Hgb Hia Hib Hma Hmb Hok.
  unfold _ensure_initialized in *. rewrite Hga in *. rewrite Hgb.
  unfold _load_mcp_tools in *. rewrite Hia, Hma in *. rewrite Hib, Hmb.
  destruct (get_tools p) as [[e|ts] p1] eqn:Eg; [discriminate|].
  destruct (proj1 (get_tools_cached p) ts p1 Eg) as (Hc & _ & Hg1).
  rewrite Hg1. simpl. split_and!; [reflexivity|reflexivity|]. exists ts. auto.
Qed.

Lemma shared_provider_same_tools_witness :
  fst (_ensure_initialized (LangGraphMCPAgent___init__ ["a-local"] true None)
         {| _config := [("a", good ["t"])]; _tools_cache := None |}) = inr tt /\
  let '(_, (a1, p1)) := _ensure_initialized (LangGraphMCPAgent___init__ ["a-local"] true None)
                          {| _config := [("a", good ["t"])]; _tools_cache := None |} in
  let '(r2, (b1, p2)) := _ensure_initialized (LangGraphMCPAgent___init__ ["b-local"] true None) p1 in
  r2 = inr tt /\ p2 = p1 /\
  exists ts, _tools_cache p1 = Some ts /\
    LangGraphMCPAgent_get_tools a1 = ["a-local"] ++ ts /\
    LangGraphMCPAgent_get_tools b1 = ["b-local"] ++ ts.
Proof.
  assert (Hok : fst (_ensure_initialized (LangGraphMCPAgent___init__ ["a-local"] true None)
                  {| _config := [("a", good ["t"])]; _tools_cache := None |}) = inr tt)
    by (vm_compute; reflexivity).
  split; [exact Hok|].
  exact (shared_provider_same_tools (LangGraphMCPAgent___init__ ["a-local"] true None)
           (LangGraphMCPAgent___init__ ["b-local"] true None) _
           eq_refl eq_refl eq_refl eq_refl eq_refl eq_refl Hok).
Defined.

End AgentExtra.

Module KeyOrder.
Import Config ProviderInit.

Lemma map_fst_aset {V} (d : list (string * V)) k v :
  map fst (aset d k v) =
    if existsb (String.eqb k) (map fst d) then map fst d else map fst d ++ [k].
Proof.
  induction d as [|[k' v'] d IH]; simpl; [reflexivity|].
  destruct (String.eqb_spec k k') as [->|Hne]; simpl; [reflexivity|].
  rewrite IH. destruct (existsb (String.eqb k) (map fst d)); reflexivity.
Qed.

Lemma existsb_eqb_In k l : existsb (String.eqb k) l = true <-> In k l.
Proof.
  rewrite existsb_exists. split.
  - intros (x & Hx & E). apply String.eqb_eq in E. subst. exact Hx.
  - intros H. exists k. split; [exact H|]. apply String.eqb_refl.
Qed.

Lemma dedup_first_ext seen1 seen2 l :
  (forall x, In x seen1 <-> In x seen2) -> dedup_first seen1 l = dedup_first seen2 l.
Proof.
  revert seen1 seen2. induction l as [|x l IH]; intros seen1 seen2 Heq; simpl; [reflexivity|].
  destruct (existsb (String.eqb x) seen1) eqn:E1, (existsb (String.eqb x) seen2) eqn:E2.
  - apply IH. exact Heq.
  - apply existsb_eqb_In, Heq, existsb_eqb_In in E1. congruence.
  - apply existsb_eqb_In, Heq, existsb_eqb_In in E2. congruence.
  - f_equal. apply IH. intros y. simpl. rewrite Heq. reflexivity.
Qed.

(** Filling a dict key by key: the keys already there, then the new ones
    at their first occurrence. *)
Lemma fold_keys_dedup {V} (l : list (string * V)) (d : list (string * V)) :
  map fst (fold_left (fun acc kv => aset acc kv.1 kv.2) l d) =
    map fst d ++ dedup_first (map fst d) (map fst l).
Proof.
  revert d. induction l as [|[k v] l IH]; intros d; simpl; [rewrite app_nil_r; reflexivity|].
  rewrite IH, map_fst_aset.
  destruct (existsb (String.eqb k) (map fst d)) eqn:E; [reflexivity|].
  rewrite <- app_assoc. simpl. f_equal. f_equal.
  apply dedup_first_ext. intros x. rewrite in_app_iff. simpl. tauto.
Qed.

End KeyOrder.

Module RegistryFacts.
Import Registry.

Lemma aget_aset_eq {V} (d : list (string * V)) k1 v k :
  Config.aget (Config.aset d k1 v) k = if String.eqb k k1 then Some v else Config.aget d k.
Proof.
  induction d as [|[k' v'] d IH]; simpl; [reflexivity|].
  destruct (String.eqb_spec k1 k') as [<-|Hne]; simpl.
  - destruct (String.eqb k k1); reflexivity.
  - rewrite IH. destruct (String.eqb_spec k k') as [->|_]; [|reflexivity].
    rewrite (proj2 (String.eqb_neq k' k1)) by congruence. reflexivity.
Qed.

Lemma aget_some_keys {V} (d : list (string * V)) k :
  existsb (String.eqb k) (map fst d) = match Config.aget d k with Some _ => true | None => false end.
Proof.
  induction d as [|[k' v'] d IH]; simpl; [reflexivity|].
  destruct (String.eqb k k'); simpl; auto.
Qed.

Lemma register_outcome name mcp_servers override c cls :
  (forall e, fst (register name mcp_servers override c cls) = inl e ->
     snd (register name mcp_servers override c cls) = cls /\
     override = false /\ _strict_registration cls = true /\
     exists existing, get name cls = Some existing /\
       e = DuplicateAgentRegistrationError name existing c) /\
  (get name cls = None \/ override = true \/ _strict_registration cls = false ->
     fst (register name mcp_servers override c cls) = inr c).
Proof.
  unfold register, get. split.
  - intros e. destruct (Config.aget (_registry cls) name) as [ex|], override, (_strict_registration cls);
      simpl; intros H; try discriminate. injection H as <-. split_and!; eauto.
  - intros Hc. destruct (Config.aget (_registry cls) name) as [ex|], override, (_strict_registration cls);
      simpl; try reflexivity. destruct Hc as [H|[H|H]]; discriminate.
Qed.

(** X8: [AgentRegistry.register] raises only when strict registration is on,
    [override] is off and the name is already registered; it then raises
    [DuplicateAgentRegistrationError] naming the existing and the new class,
    and leaves the registry unchanged. In every other case it returns the
    class. *)
Theorem register_raises_only_on_strict_duplicate name mcp_servers override c cls :
  (forall e, fst (register name mcp_servers override c cls) = inl e ->
     snd (register name mcp_servers override c cls) = cls /\
     override = false /\ _strict_registration cls = true /\
     exists existing, get name cls = Some existing /\
       e = DuplicateAgentRegistrationError name existing c) /\
  (get name cls = None \/ override = true \/ _strict_registration cls = false ->
     fst (register name mcp_servers override c cls) = inr c).
Proof. exact (register_outcome name mcp_servers override c cls). Qed.

Lemma register_effect name mcp_servers override c cls :
  fst (register name mcp_servers override c cls) = inr c ->
  let cls' := snd (register name mcp_servers override c cls) in
  get name cls' = Some c /\ get_mcp_servers name cls' = mcp_servers /\
  (forall n, n <> name ->
     get n cls' = get n cls /\ get_mcp_servers n cls' = get_mcp_servers n cls) /\
  list_agents cls' =
    (match get name cls with Some _ => list_agents cls | None => list_agents cls ++ [name] end) /\
  log cls' = log cls ++
    (match get name cls, override with
     | Some existing, false => [LogWarning name existing c]
     | _, _ => []
     end) ++ [LogDebug name c] /\
  _strict_registration cls' = _strict_registration cls.
Proof.
  unfold register, get, get_mcp_servers, list_agents.
  destruct (Config.aget (_registry cls) name) as [ex|] eqn:Ea, override eqn:Eo,
    (_strict_registration cls) eqn:Es; simpl; intros H; try discriminate.
  all: clear H; simpl.
  all: rewrite !aget_aset_eq, String.eqb_refl, KeyOrder.map_fst_aset, aget_some_keys, Ea.
  all: split_and!; try reflexivity.
  all: intros n Hn; rewrite !aget_aset_eq, (proj2 (String.eqb_neq n name) Hn); auto.
Qed.

Lemma register_raises_only_on_strict_duplicate_witness :
  let cls := snd (register "simple" None false "SimpleAgent"
                    (set_strict_registration true AgentRegistry_class)) in
  fst (register "simple" None false "SimpleAgent" cls) =
    inl (DuplicateAgentRegistrationError "simple" "SimpleAgent" "SimpleAgent") /\
  snd (register "simple" None false "SimpleAgent" cls) = cls.
Proof.
  cbv zeta.
  assert (H : fst (register "simple" None false "SimpleAgent"
                     (snd (register "simple" None false "SimpleAgent"
                             (set_strict_registration true AgentRegistry_class)))) =
              inl (DuplicateAgentRegistrationError "simple" "SimpleAgent" "SimpleAgent"))
    by (vm_compute; reflexivity).
  split; [exact H|].
  exact (proj1 (proj1 (register_raises_only_on_strict_duplicate _ _ _ _ _) _ H)).
Defined.

(** X9: a successful [AgentRegistry.register] maps the name to the class and to
    its MCP server list, leaves every other name alone, adds the name at the
    end of [list_agents] only if it is new, logs a warning only for a
    duplicate without [override] and then a debug line, and keeps the strict
    flag. *)
Theorem register_updates name mcp_servers override c cls :
  fst (register name mcp_servers override c cls) = inr c ->
  let cls' := snd (register name mcp_servers override c cls) in
  get name cls' = Some c /\ get_mcp_servers name cls' = mcp_servers /\
  (forall n, n <> name ->
     get n cls' = get n cls /\ get_mcp_servers n cls' = get_mcp_servers n cls) /\
  list_agents cls' =
    (match get name cls with Some _ => list_agents cls | None => list_agents cls ++ [name] end) /\
  log cls' = log cls ++
    (match get name cls, override with
     | Some existing, false => [LogWarning name existing c]
     | _, _ => []
     end) ++ [LogDebug name c] /\
  _strict_registration cls' = _strict_registration cls.
Proof. exact (register_effect name mcp_servers override c cls). Qed.


Lemma aget_app {V} (l1 l2 : list (string * V)) k :
  Config.aget (l1 ++ l2) k = match Config.aget l1 k with Some v => Some v | None => Config.aget l2 k end.
Proof.
  induction l1 as [|[k' v'] l1 IH]; simpl; [reflexivity|].
  destruct (String.eqb k k'); [reflexivity|exact IH].
Qed.

Lemma register_updates_witness :
  fst (register "developer" (Some ["webfetch"]) false "DeveloperAgent" AgentRegistry_class)
    = inr "DeveloperAgent" /\
  get_mcp_servers "developer"
    (snd (register "developer" (Some ["webfetch"]) false "DeveloperAgent" AgentRegistry_class))
    = Some ["webfetch"].
Proof.
  assert (H : fst (register "developer" (Some ["webfetch"]) false "DeveloperAgent"
                     AgentRegistry_class) = inr "DeveloperAgent") by reflexivity.
  split; [exact H|].
  exact (proj1 (proj2 (register_updates _ _ _ _ _ H))).
Defined.

(** X10: with strict registration off, registering any sequence of agents (as
    [discover_agents] does in import order) never raises; [list_agents] gains
    the new names in the order they are first registered, and each name maps
    to the class and MCP server list of its last registration. *)
Theorem registrations_non_strict decls cls :
  _strict_registration cls = false ->
  map fst (_mcp_servers cls) = list_agents cls ->
  let '(r, cls') := run_registrations decls cls in
  r = inr tt /\
  list_agents cls' =
    list_agents cls ++ ProviderInit.dedup_first (list_agents cls) (map (fun d => d.1.1.1) decls) /\
  map fst (_mcp_servers cls') = list_agents cls' /\
  forall n,
    get n cls' = match Config.aget (rev (map (fun d => (d.1.1.1, d.2)) decls)) n with
                 | Some c => Some c
                 | None => get n cls
                 end /\
    get_mcp_servers n cls' =
      match Config.aget (rev (map (fun d => (d.1.1.1, d.1.1.2)) decls)) n with
      | Some m => m
      | None => get_mcp_servers n cls
      end.
Proof.
  revert cls. induction decls as [|[[[name mcp] ov] c] rest IH]; intros cls Hs Hk; simpl.
  - rewrite app_nil_r. auto.
  - pose proof (proj2 (register_outcome name mcp ov c cls)
                ltac:(auto)) as Hok.
    pose proof (register_effect name mcp ov c cls Hok) as Hu.
    destruct (register name mcp ov c cls) as [r1 cls1] eqn:Er. simpl in Hok, Hu. subst r1.
    destruct Hu as (Hg & Hm & Hother & Hl & _ & Hs1).
    assert (Hk1 : map fst (_mcp_servers cls1) = list_agents cls1).
    { unfold register in Er.
      destruct (Config.aget (_registry cls) name), ov, (_strict_registration cls);
        simpl in Er; try discriminate; injection Er as <-; simpl;
        unfold list_agents in *; simpl; rewrite !KeyOrder.map_fst_aset, Hk; reflexivity. }
    specialize (IH cls1 ltac:(congruence) Hk1).
    destruct (run_registrations rest cls1) as [r cls'].
    destruct IH as (Hr & Hl' & Hk' & Hn). split_and!; [exact Hr| |exact Hk'|].
    + rewrite Hl', Hl. unfold get in *.
      destruct (Config.aget (_registry cls) name) eqn:Ea.
      * assert (Hin : existsb (String.eqb name) (list_agents cls) = true).
        { unfold list_agents. rewrite aget_some_keys, Ea. reflexivity. }
        rewrite Hin. reflexivity.
      * assert (Hin : existsb (String.eqb name) (list_agents cls) = false).
        { unfold list_agents. rewrite aget_some_keys, Ea. reflexivity. }
        rewrite Hin, <- app_assoc. simpl. f_equal. f_equal.
        apply KeyOrder.dedup_first_ext. intros x. rewrite in_app_iff. simpl. tauto.
    + intros n. destruct (Hn n) as [Hgn Hmn].
      rewrite !aget_app, Hgn, Hmn. simpl.
      destruct (String.eqb_spec n name) as [->|Hne].
      * rewrite Hg, Hm.
        destruct (Config.aget (rev (map (fun d => (d.1.1.1, d.2)) rest)) name);
        destruct (Config.aget (rev (map (fun d => (d.1.1.1, d.1.1.2)) rest)) name); auto.
      * destruct (Hother n Hne) as [Hg2 Hm2]. rewrite Hg2, Hm2.
        destruct (Config.aget (rev (map (fun d => (d.1.1.1, d.2)) rest)) n);
        destruct (Config.aget (rev (map (fun d => (d.1.1.1, d.1.1.2)) rest)) n); auto.
Qed.

Lemma registrations_non_strict_witness :
  let decls :=
    [("simple", None, false, "SimpleAgent");
     ("chef", Some ["tavily"], false, "ChefAgent");
     ("developer", Some ["webfetch"], false, "DeveloperAgent");
     ("github-pr-reviewer", None, false, "GitHubPRReviewerAgent");
     ("news", Some ["web-fetch"], false, "NewsAgent");
     ("simple", None, false, "SimpleAgent");
     ("travel", Some ["kiwi-com-flight-search"], false, "TravelAgent");
     ("travel-coordinator", Some ["kiwi-com-flight-search"; "web-fetch"], false,
        "TravelCoordinatorAgent")] in
  fst (run_registrations decls AgentRegistry_class) = inr tt /\
  list_agents (snd (run_registrations decls AgentRegistry_class)) =
    ["simple"; "chef"; "developer"; "github-pr-reviewer"; "news"; "travel";
     "travel-coordinator"].
Proof.
  intros decls.
  pose proof (registrations_non_strict decls AgentRegistry_class eq_refl eq_refl) as H.
  destruct (run_registrations decls AgentRegistry_class) as [r c].
  destruct H as (-> & Hl & _). split; [reflexivity|]. exact Hl.
Defined.

End RegistryFacts.

Module ConfigExtra.
Import Config ConfigFacts.

Lemma aset_aget_same {V} (d : list (string * V)) k v : aget d k = Some v -> aset d k v = d.
Proof.
  induction d as [|[k' v'] d IH]; simpl; [discriminate|].
  destruct (String.eqb_spec k k') as [->|_]; [intros [= ->]; reflexivity|].
  intros H. rewrite (IH H). reflexivity.
Qed.

(** X11: with [TAVILY_API_KEY] set, a ["tavily"] descriptor whose [url] is
    missing, [None] or empty gets the URL ["?tavilyApiKey=<key>"], with no
    host; one whose [url] is a non-empty dict makes [_resolve_server_config]
    raise [AttributeError] once the copy is made. *)
Theorem tavily_url_edge_cases raw d s key :
  heap s !! raw = Some d -> tavily_key (env s) = Some key ->
  ((aget d "url" = None \/ aget d "url" = Some VNone \/ aget d "url" = Some (VStr "")) ->
   _resolve_server_config "tavily" raw s =
     (inr (next_loc s),
      {| heap := <[next_loc s := aset d "url" (VStr ("?tavilyApiKey=" ++ key))]> (heap s);
         next_loc := S (next_loc s); env := env s;
         trace := trace s ++ [EnvGet "TAVILY_API_KEY"] |})) /\
  (forall l x xs, aget d "url" = Some (VDict l) -> l < next_loc s ->
     heap s !! l = Some (x :: xs) ->
     _resolve_server_config "tavily" raw s =
       (inl AttributeError,
        {| heap := <[next_loc s := d]> (heap s); next_loc := S (next_loc s); env := env s;
           trace := trace s ++ [EnvGet "TAVILY_API_KEY"] |})).
Proof.
  intros Hraw Hkey. unfold tavily_key in Hkey.
  unfold _resolve_server_config, em_bind, load, alloc, environ_get, store, em_ret, em_raise.
  simpl. rewrite Hraw. simpl. rewrite Hkey. split.
  - intros [Hu|[Hu|Hu]]; rewrite Hu; simpl; rewrite lookup_insert_eq, insert_insert_eq; reflexivity.
  - intros l x xs Hu Hl Hx. rewrite Hu. simpl.
    unfold em_bind, load, em_raise; simpl. rewrite lookup_insert_ne by lia. rewrite Hx. reflexivity.
Qed.

Lemma tavily_url_edge_cases_witness :
  let s := {| heap := <[5 := [("transport", VStr "sse")]]> module_heap; next_loc := 6;
              env := [("TAVILY_API_KEY", "k")]; trace := [] |} in
  heap s !! 5 = Some [("transport", VStr "sse")] /\ tavily_key (env s) = Some "k" /\
  _resolve_server_config "tavily" 5 s =
    (inr 6, {| heap := <[6 := [("transport", VStr "sse"); ("url", VStr "?tavilyApiKey=k")]]> (heap s);
               next_loc := 7; env := env s; trace := [EnvGet "TAVILY_API_KEY"] |}).
Proof.
  intros s.
  assert (H1 : heap s !! 5 = Some [("transport", VStr "sse")]) by reflexivity.
  assert (H2 : tavily_key (env s) = Some "k") by reflexivity.
  split; [exact H1|]. split; [exact H2|].
  exact (proj1 (tavily_url_edge_cases 5 _ s "k" H1 H2) (or_introl eq_refl)).
Defined.

(** X12: with [TINYFISH_API_KEY] set, for a ["tinyfish"] descriptor whose
    [headers] is an existing dict [H], the copy shares [H] and [X-API-Key] is
    written into [H] itself; besides the copy, an unused empty dict is
    allocated, and no other existing object changes. When [headers] is [None]
    or a string, [_resolve_server_config] raises [TypeError] and no existing
    object changes. *)
Theorem tinyfish_headers_edge_cases raw d s key :
  heap s !! raw = Some d -> tinyfish_key (env s) = Some key ->
  let n := next_loc s in
  let '(r, s') := _resolve_server_config "tinyfish" raw s in
  (forall H hd, aget d "headers" = Some (VDict H) -> H < n -> heap s !! H = Some hd ->
     r = inr n /\ next_loc s' = S (S n) /\ env s' = env s /\
     trace s' = trace s ++ [EnvGet "TINYFISH_API_KEY"] /\
     heap s' !! n = Some d /\ heap s' !! S n = Some [] /\
     heap s' !! H = Some (aset hd "X-API-Key" (VStr key)) /\
     (forall l, l < n -> l <> H -> heap s' !! l = heap s !! l)) /\
  ((aget d "headers" = Some VNone \/ exists x, aget d "headers" = Some (VStr x)) ->
     r = inl TypeError /\ (forall l, l < n -> heap s' !! l = heap s !! l)).
Proof.
  intros Hraw Hkey n. unfold n. clear n. unfold tinyfish_key in Hkey.
  unfold _resolve_server_config, em_bind, load, alloc, environ_get, store, em_ret, em_raise.
  simpl. rewrite Hraw. simpl. rewrite Hkey. simpl.
  rewrite (lookup_insert_ne _ (S (next_loc s)) (next_loc s)) by lia. rewrite !lookup_insert_eq. simpl.
  rewrite aget_aset_same.
  destruct (aget d "headers") as [[x| |H]|] eqn:Hh; simpl;
    try rewrite (aset_aget_same _ _ _ Hh).
  - split; [intros ? ? [=]|intros _; split; [reflexivity|]].
    intros l Hl. rewrite !lookup_insert_ne by lia. reflexivity.
  - split; [intros ? ? [=]|intros _; split; [reflexivity|]].
    intros l Hl. rewrite !lookup_insert_ne by lia. reflexivity.
  - split; [|intros [[=]|[? [=]]]].
    intros H' hd [= <-] HH Hhd.
    assert (Hload : <[next_loc s:=d]> (<[S (next_loc s):=[]]> (<[next_loc s:=d]> (heap s))) !! H
                 = Some hd) by (rewrite !lookup_insert_ne by lia; exact Hhd).
    rewrite Hload. simpl.
    split_and!; try reflexivity.
    + rewrite lookup_insert_ne by lia. apply lookup_insert_eq.
    + rewrite lookup_insert_ne by lia. rewrite lookup_insert_ne by lia.
      apply lookup_insert_eq.
    + apply lookup_insert_eq.
    + intros l Hl Hne. rewrite lookup_insert_ne by congruence.
      rewrite !lookup_insert_ne by lia. reflexivity.
  - split; [intros ? ? [=]|intros [[=]|[? [=]]]].
Qed.

Lemma tinyfish_headers_edge_cases_witness :
  heap tinyfish_headers_state !! 6 = Some [("headers", VDict 7)] /\
  tinyfish_key (env tinyfish_headers_state) = Some "tf-key" /\
  let '(r, s') := _resolve_server_config "tinyfish" 6 tinyfish_headers_state in
  r = inr 8 /\ heap s' !! 7 = Some [("X-API-Key", VStr "tf-key")].
Proof.
  assert (H1 : heap tinyfish_headers_state !! 6 = Some [("headers", VDict 7)]) by reflexivity.
  assert (H2 : tinyfish_key (env tinyfish_headers_state) = Some "tf-key") by reflexivity.
  split; [exact H1|]. split; [exact H2|].
  pose proof (tinyfish_headers_edge_cases 6 _ _ "tf-key" H1 H2) as H.
  destruct (_resolve_server_config "tinyfish" 6 tinyfish_headers_state) as [r s'].
  destruct H as [H _]. destruct (H 7 [] eq_refl ltac:(simpl; lia) eq_refl) as (Hr & _ & _ & _ & _ & _ & Hh & _).
  split; [exact Hr|exact Hh].
Defined.

Lemma as_dict_inl v s e s' : as_dict v s = (inl e, s') -> e = TypeError.
Proof.
  destruct v as [x| |l]; simpl; [destruct (String.eqb x "")|..];
    unfold em_raise, em_ret, load; intros H; congruence.
Qed.

Lemma as_dict_non_dict v s :
  (forall l, v <> VDict l) -> v <> VStr "" -> as_dict v s = (inl TypeError, s).
Proof.
  intros Hv Hs. destruct v as [x| |l]; [|reflexivity|destruct (Hv l eq_refl)].
  simpl. destruct (String.eqb_spec x "") as [->|_]; [congruence|reflexivity].
Qed.

(** [merge_override] raises only [TypeError], and does raise on an item
    that is not a dict. *)
Lemma merge_override_non_dict base items s k v :
  In (k, v) items -> (forall l, v <> VDict l) -> v <> VStr "" ->
  fst (merge_override base items s) = inl TypeError.
Proof.
  revert s. induction items as [|[k1 v1] items IH]; intros s Hin Hv Hs; [destruct Hin|].
  cbn [merge_override]. unfold em_bind at 1, alloc. simpl.
  unfold em_bind at 1, load. simpl.
  unfold em_bind at 1.
  match goal with |- context [as_dict ?w ?st] => destruct (as_dict w st) as [[e|src] s2] eqn:E1 end.
  { apply as_dict_inl in E1. subst. reflexivity. }
  unfold em_bind at 1, alloc. simpl.
  unfold em_bind at 1, load. simpl.
  unfold em_bind at 1, store. simpl.
  unfold em_bind at 1, load. simpl.
  unfold em_bind at 1.
  match goal with |- context [as_dict v1 ?st] => destruct (as_dict v1 st) as [[e|u] s3] eqn:E2 end.
  { apply as_dict_inl in E2. subst. reflexivity. }
  destruct Hin as [E|Hin].
  - injection E as <- <-. rewrite as_dict_non_dict in E2 by assumption. discriminate.
  - unfold em_bind at 1, store. simpl. apply IH; assumption.
Qed.

(** X13: an override entry that is [None] or a non-empty string (not a dict)
    makes [get_mcp_servers_config] raise. *)
Theorem malformed_override_raises s ol od k v :
  default_loaded s -> ol < next_loc s -> heap s !! ol = Some od -> In (k, v) od ->
  (v = VNone \/ exists x, v = VStr x /\ x <> "") ->
  fst (get_mcp_servers_config (Some ol) s) = inl TypeError.
Proof.
  intros [Hml Hn5] Hol Hod Hin Hv. unfold get_mcp_servers_config.
  erewrite em_bind_inr by (unfold alloc; reflexivity). cbv beta.
  erewrite em_bind_inr by (unfold load; reflexivity). cbv beta. simpl heap.
  assert (Hdef : heap s !! DEFAULT_MCP_SERVERS = Some DEFAULT_MCP_SERVERS_dict)
    by (apply Hml; reflexivity).
  rewrite lookup_insert_ne by (unfold DEFAULT_MCP_SERVERS; lia).
  rewrite Hdef. simpl default.
  destruct (copy_entries_spec (next_loc s) DEFAULT_MCP_SERVERS_dict
              {| heap := <[next_loc s := []]> (heap s); next_loc := S (next_loc s);
                 env := env s; trace := trace s |} [] [])
    as (sb & Hcp & Hnb & Heb & Htb & Hagb & _).
  { simpl. lia. }
  { simpl. apply lookup_insert_eq. }
  { constructor. }
  { intros k' v' Hin'. simpl in Hin'.
    destruct Hin' as [E|[E|[E|[E|[]]]]]; injection E as <- <-; eexists; split; try reflexivity; lia. }
  erewrite em_bind_inr by exact Hcp. cbv beta.
  assert (Hsb : heap sb !! ol = Some od).
  { simpl in Hagb. rewrite Hagb by (try lia; intros [= ?]; lia). simpl.
    rewrite lookup_insert_ne by lia. exact Hod. }
  destruct od as [|p od']; [destruct Hin|].
  assert (Hnd : forall l, v <> VDict l) by (intros l ->; destruct Hv as [[=]|(x & [=] & _)]).
  assert (Hns : v <> VStr "") by (intros ->; destruct Hv as [[=]|(x & [= ->] & Hx)]; congruence).
  pose proof (merge_override_non_dict (next_loc s) (p :: od') sb k v Hin Hnd Hns) as Hm.
  destruct (merge_override (next_loc s) (p :: od') sb) as [r s3] eqn:Em.
  simpl in Hm. subst r.
  erewrite em_bind_inl; [reflexivity|].
  unfold em_bind at 1, load. rewrite Hsb. simpl. exact Em.
Qed.

Lemma malformed_override_raises_witness :
  fst (get_mcp_servers_config (Some 5)
         {| heap := <[5 := [("ok", VDict 1); ("bad", VNone)]]> module_heap; next_loc := 6;
            env := []; trace := [] |}) = inl TypeError.
Proof.
  apply (malformed_override_raises _ 5 [("ok", VDict 1); ("bad", VNone)] "bad" VNone).
  - split; [intros l d Hl; pose proof (module_heap_lt _ _ Hl); simpl;
            rewrite lookup_insert_ne by lia; exact Hl|simpl; lia].
  - simpl. lia.
  - reflexivity.
  - right. left. reflexivity.
  - left. reflexivity.
Defined.

Lemma fold_keys_dedup_gen {V W} (g : list (string * V) -> string * W -> V) l d :
  map fst (fold_left (fun acc kv => aset acc kv.1 (g acc kv)) l d) =
    map fst d ++ ProviderInit.dedup_first (map fst d) (map fst l).
Proof.
  revert d. induction l as [|[k v] l IH]; intros d; simpl; [rewrite app_nil_r; reflexivity|].
  rewrite IH, KeyOrder.map_fst_aset.
  destruct (existsb (String.eqb k) (map fst d)) eqn:E; [reflexivity|].
  rewrite <- app_assoc. simpl. f_equal. f_equal.
  apply KeyOrder.dedup_first_ext. intros x. rewrite in_app_iff. simpl. tauto.
Qed.

Lemma merged_keys h ov :
  map fst (merged h ov) =
    map fst DEFAULT_MCP_SERVERS_dict ++
    ProviderInit.dedup_first (map fst DEFAULT_MCP_SERVERS_dict) (map fst (ov_items h ov)).
Proof.
  unfold merged, merge_step.
  exact (fold_keys_dedup_gen (fun cat ku => dict_update (default [] (aget cat ku.1)) ku.2)
           (ov_items h ov) default_catalog).
Qed.

Lemma dedup_first_In x seen l :
  In x (ProviderInit.dedup_first seen l) -> ~ In x seen /\ In x l.
Proof.
  revert seen. induction l as [|y l IH]; intros seen; simpl; [intros []|].
  destruct (existsb (String.eqb y) seen) eqn:E.
  - intros H. destruct (IH _ H). auto.
  - intros [<-|H].
    + split; [|auto]. intros Hin. apply KeyOrder.existsb_eqb_In in Hin. congruence.
    + destruct (IH _ H) as [Hn Hl]. split; [|auto]. intros Hin. apply Hn. right. exact Hin.
Qed.

Lemma flat_map_fst {B} (f : string -> list B) (l : list (string * pydict)) :
  flat_map (fun kd => f kd.1) l = flat_map f (map fst l).
Proof. induction l as [|kd l IH]; simpl; congruence. Qed.

Lemma resolve_events_new e l :
  (forall k, In k l -> ~ In k (map fst DEFAULT_MCP_SERVERS_dict)) ->
  flat_map (resolve_events e) l = [].
Proof.
  induction l as [|k l IH]; intros Hl; simpl; [reflexivity|].
  rewrite IH by (intros k' Hk'; apply Hl; right; exact Hk').
  unfold resolve_events.
  destruct (String.eqb_spec k "tavily") as [->|_].
  { exfalso. apply (Hl "tavily"); [left; reflexivity|simpl; auto 6]. }
  destruct (String.eqb_spec k "tinyfish") as [->|_]; [|reflexivity].
  exfalso. apply (Hl "tinyfish"); [left; reflexivity|simpl; auto 6].
Qed.

(** What [get_mcp_servers_config] returns, keyed: the four defaults, then
    the override's new names; and the environment reads it makes. *)
Lemma get_config_keys_trace s ov r s' :
  default_loaded s -> override_ok s ov ->
  get_mcp_servers_config ov s = (inr r, s') ->
  next_loc s <= r < next_loc s' /\ env s' = env s /\
  (exists rd, heap s' !! r = Some rd /\
     map fst rd = map fst DEFAULT_MCP_SERVERS_dict ++
       ProviderInit.dedup_first (map fst DEFAULT_MCP_SERVERS_dict) (map fst (ov_items (heap s) ov))) /\
  trace s' = trace s ++
    EnvGet "TINYFISH_API_KEY" ::
      match tinyfish_key (env s) with None => [LogWarning TINYFISH_WARNING] | Some _ => [] end ++
    EnvGet "TAVILY_API_KEY" ::
      match tavily_key (env s) with None => [LogWarning TAVILY_WARNING] | Some _ => [] end.
Proof.
  intros Hdl Hov H.
  destruct (get_config_spec s ov r s' Hdl Hov H)
    as (Hr & Henv & Htr & (rd & rcat & Hrd & Hrep & HF2) & _).
  split; [exact Hr|]. split; [exact Henv|]. split.
  - exists rd. split; [exact Hrd|]. rewrite (rep_keys _ _ _ _ _ Hrep).
    rewrite <- (Forall2_keys _ _ _ HF2). apply merged_keys.
  - rewrite Htr, flat_map_fst, merged_keys, flat_map_app.
    rewrite (resolve_events_new (env s) (ProviderInit.dedup_first _ _)) by (intros k Hk; exact (proj1 (dedup_first_In _ _ _ Hk))).
    rewrite app_nil_r. simpl. rewrite app_nil_r. reflexivity.
Qed.

Lemma new_server_heap_ok e :
  let s := {| heap := new_server_heap; next_loc := 7; env := e; trace := [] |} in
  default_loaded s /\ override_ok s (Some 5).
Proof.
  intros s.
  split.
  - split; [intros l d Hl; pose proof (module_heap_lt _ _ Hl); simpl;
            unfold new_server_heap; rewrite !lookup_insert_ne by lia; exact Hl|simpl; lia].
  - simpl; split; [lia|]; eexists; split; [reflexivity|].
    intros k v Hin; simpl in Hin; destruct Hin as [E|[]]; injection E as <- <-.
    eexists _, _; split_and!; [reflexivity|lia|reflexivity|].
    intros f x Hx; simpl in Hx; destruct Hx as [E|[]]; discriminate.
Qed.

(** X14: the server names of the catalog [get_mcp_servers_config] returns are
    the four default names in their order, then the override's names that are
    not defaults, in the override's order. *)
Theorem get_mcp_servers_config_key_order s ov r s' :
  default_loaded s -> override_ok s ov ->
  get_mcp_servers_config ov s = (inr r, s') ->
  exists rd, heap s' !! r = Some rd /\
    map fst rd = map fst DEFAULT_MCP_SERVERS_dict ++
      ProviderInit.dedup_first (map fst DEFAULT_MCP_SERVERS_dict) (map fst (ov_items (heap s) ov)).
Proof. intros Hdl Hov H. exact (proj1 (proj2 (proj2 (get_config_keys_trace s ov r s' Hdl Hov H)))). Qed.

(** X15: whatever the override, a successful [get_mcp_servers_config] reads
    [TINYFISH_API_KEY] and then [TAVILY_API_KEY] exactly once each, logs a
    warning right after each that is absent or empty, and logs nothing else. *)
Theorem get_mcp_servers_config_env_reads s ov r s' :
  default_loaded s -> override_ok s ov ->
  get_mcp_servers_config ov s = (inr r, s') ->
  env s' = env s /\
  trace s' = trace s ++
    EnvGet "TINYFISH_API_KEY" ::
      match tinyfish_key (env s) with None => [LogWarning TINYFISH_WARNING] | Some _ => [] end ++
    EnvGet "TAVILY_API_KEY" ::
      match tavily_key (env s) with None => [LogWarning TAVILY_WARNING] | Some _ => [] end.
Proof.
  intros Hdl Hov H. destruct (get_config_keys_trace s ov r s' Hdl Hov H) as (_ & He & _ & Ht).
  split; assumption.
Qed.

Lemma get_mcp_servers_config_env_reads_witness :
  exists r s', get_mcp_servers_config (Some 5) tavily_key_state = (inr r, s') /\
    env s' = env tavily_key_state /\
    trace s' = [EnvGet "TINYFISH_API_KEY"; LogWarning TINYFISH_WARNING; EnvGet "TAVILY_API_KEY"].
Proof.
  destruct (new_server_heap_ok [("TAVILY_API_KEY", "tv-key")]) as [Hdl Hov].
  eexists _, _. split; [vm_compute; reflexivity|].
  eapply (get_mcp_servers_config_env_reads _ _ _ _ Hdl Hov).
  vm_compute. reflexivity.
Defined.

Lemma get_mcp_servers_config_key_order_witness :
  exists r s', get_mcp_servers_config (Some 5) new_server_state = (inr r, s') /\
    exists rd, heap s' !! r = Some rd /\
      map fst rd = ["kiwi-com-flight-search"; "tinyfish"; "web-fetch"; "tavily"; "new-server"].
Proof.
  destruct (new_server_heap_ok []) as [Hdl Hov].
  eexists _, _. split; [vm_compute; reflexivity|].
  apply (get_mcp_servers_config_key_order _ _ _ _ Hdl Hov). vm_compute. reflexivity.
Defined.

Lemma select_servers_spec cfg resolved ns s cd rd :
  cfg <> resolved -> heap s !! cfg = Some cd -> heap s !! resolved = Some rd ->
  exists s' cd', ProviderInit.select_servers cfg resolved ns s = (inr tt, s') /\
    heap s' !! cfg = Some cd' /\ (forall l, l <> cfg -> heap s' !! l = heap s !! l) /\
    next_loc s' = next_loc s /\ env s' = env s /\ trace s' = trace s /\
    map fst cd' = map fst cd ++
      ProviderInit.dedup_first (map fst cd)
        (List.filter (fun k => existsb (String.eqb k) (map fst rd)) ns) /\
    (forall k v, In (k, v) cd' -> In (k, v) cd \/ aget rd k = Some v).
Proof.
  intros Hne. revert s cd. induction ns as [|k ns IH]; intros s cd Hcd Hrd; cbn [ProviderInit.select_servers].
  - exists s, cd. split_and!; auto. simpl. rewrite app_nil_r. reflexivity.
  - unfold em_bind at 1, load. rewrite Hrd. simpl.
    cbn [List.filter]. rewrite RegistryFacts.aget_some_keys.
    destruct (aget rd k) as [v|] eqn:Hk.
    + unfold em_bind at 1, load. rewrite Hcd. simpl.
      unfold em_bind at 1, store. simpl.
      destruct (IH {| heap := <[cfg:=aset cd k v]> (heap s); next_loc := next_loc s;
                      env := env s; trace := trace s |} (aset cd k v))
        as (s' & cd' & Hrun & Hcd' & Hfr & Hn & He & Ht & Hkeys & Hvals).
      { apply lookup_insert_eq. }
      { simpl. rewrite lookup_insert_ne by congruence. exact Hrd. }
      exists s', cd'. split_and!; auto.
      * intros l Hl. rewrite Hfr by exact Hl. simpl. apply lookup_insert_ne. congruence.
      * rewrite Hkeys, KeyOrder.map_fst_aset. simpl.
        destruct (existsb (String.eqb k) (map fst cd)) eqn:E; [reflexivity|].
        rewrite <- app_assoc. f_equal. simpl. f_equal.
        apply KeyOrder.dedup_first_ext. intros x. rewrite in_app_iff. simpl. tauto.
      * intros k' v' Hin. destruct (Hvals k' v' Hin) as [H|H]; [|right; exact H].
        destruct (In_aset _ _ _ _ _ H) as [[-> ->]|H']; [right; exact Hk|left; exact H'].
    + exact (IH s cd Hcd Hrd).
Qed.

(** X16: [MCPProvider(server_names=names)] keeps the names of [names] that are
    default servers, in first-occurrence order and each once, and silently
    drops every other name; each kept entry is the very descriptor object of
    the resolved catalog. Configuration resolution reads the environment as
    in X15. *)
Theorem MCPProvider_init_server_names s ns c s' :
  default_loaded s ->
  ProviderInit.MCPProvider___init__ None (Some ns) s = (inr c, s') ->
  exists r rd cd, heap s' !! r = Some rd /\ heap s' !! c = Some cd /\ r < c /\
    map fst rd = map fst DEFAULT_MCP_SERVERS_dict /\
    map fst cd = ProviderInit.dedup_first []
      (List.filter (fun k => existsb (String.eqb k) (map fst DEFAULT_MCP_SERVERS_dict)) ns) /\
    (forall k v, In (k, v) cd -> aget rd k = Some v) /\
    trace s' = trace s ++
      EnvGet "TINYFISH_API_KEY" ::
        match tinyfish_key (env s) with None => [LogWarning TINYFISH_WARNING] | Some _ => [] end ++
      EnvGet "TAVILY_API_KEY" ::
        match tavily_key (env s) with None => [LogWarning TAVILY_WARNING] | Some _ => [] end.
Proof.
  intros Hdl H. unfold ProviderInit.MCPProvider___init__ in H.
  apply em_bind_inv in H as (r & s1 & Hg & H).
  destruct (get_config_keys_trace s None r s1 Hdl I Hg)
    as ([_ Hr] & _ & (rd & Hrd & Hkeys) & Htr).
  simpl in Hkeys.
  apply em_bind_inv in H as (cfg & s2 & Ha & H). unfold alloc in Ha. injection Ha as <- <-.
  destruct (select_servers_spec (next_loc s1) r ns
              {| heap := <[next_loc s1:=[]]> (heap s1); next_loc := S (next_loc s1);
                 env := env s1; trace := trace s1 |} [] rd)
    as (s3 & cd & Hrun & Hcd & Hfr & _ & _ & Ht3 & Hk3 & Hv3).
  { lia. }
  { apply lookup_insert_eq. }
  { simpl. rewrite lookup_insert_ne by lia. exact Hrd. }
  apply em_bind_inv in H as (u & s4 & Hs & H). rewrite Hrun in Hs. injection Hs as <- <-.
  unfold em_ret in H. injection H as <- <-.
  exists r, rd, cd. split_and!.
  - rewrite Hfr by lia. simpl. rewrite lookup_insert_ne by lia. exact Hrd.
  - exact Hcd.
  - lia.
  - exact Hkeys.
  - rewrite Hk3. simpl. rewrite Hkeys. reflexivity.
  - intros k v Hin. destruct (Hv3 k v Hin) as [[]|Hv]. exact Hv.
  - rewrite Ht3. simpl. exact Htr.
Qed.

Lemma MCPProvider_init_server_names_witness :
  exists c s', ProviderInit.MCPProvider___init__ None
      (Some ["web-fetch"; "webfetch"; "kiwi-com-flight-search"; "web-fetch"]) new_server_state
      = (inr c, s') /\
    exists r rd cd, heap s' !! r = Some rd /\ heap s' !! c = Some cd /\ r < c /\
      map fst rd = map fst DEFAULT_MCP_SERVERS_dict /\
      map fst cd = ["web-fetch"; "kiwi-com-flight-search"] /\
      (forall k v, In (k, v) cd -> aget rd k = Some v) /\
      trace s' = [EnvGet "TINYFISH_API_KEY"; LogWarning TINYFISH_WARNING;
                  EnvGet "TAVILY_API_KEY"; LogWarning TAVILY_WARNING].
Proof.
  destruct (new_server_heap_ok []) as [Hdl _].
  destruct (ProviderInit.MCPProvider___init__ None
      (Some ["web-fetch"; "webfetch"; "kiwi-com-flight-search"; "web-fetch"]) new_server_state)
    as [[e|c] s'] eqn:E; [vm_compute in E; discriminate E|].
  exists c, s'. split; [reflexivity|].
  destruct (MCPProvider_init_server_names _ _ _ _ Hdl E)
    as (r & rd & cd & H1 & H2 & H3 & H4 & H5 & H6 & H7).
  exists r, rd, cd. split_and!; assumption.
Defined.
End ConfigExtra.
